(** * Standings computation of the public beach map

    Shallow embedding of the [competitors] memo of
    [src/components/public/BeachMap.tsx]: aggregation of hourly entries and
    big catches into competitor chips, sector ranking with coefficients,
    general ranking by place groups, and grouping by sector for display.

    Numbers.  The quantities the memo computes with ([fishCount],
    [totalWeight], [biggestCatch], [points], [coefficient]) are JavaScript
    numbers, that is IEEE 754 binary64 values: they are Rocq's primitive
    floats, whose operations the kernel evaluates as the hardware does and
    which the Standard Library specifies by [SpecFloat].  Sums are taken in
    the order of the source, so rounding, infinities and NaN are those of
    the program.  Fields that only index something ([hour], [boxNumber]) and
    the ranks the loops number from their counters ([classementSecteur],
    [classementGeneral]) are integers ([Z]).

    Missing fields.  A document field that may be absent from a snapshot
    record ([sector] of a competitor, [hour] of an hourly entry) is an
    [option]; [None] is JavaScript's [undefined], for which [===] against a
    string or a number is false.

    Objects.  Every chip object is created once by the [map] callback and is
    referenced at most once by each array that holds it, so the in-place
    field assignments of the source are rendered as functional updates of
    the list element. *)

From Stdlib Require Import ZArith Lia List Bool String Permutation Sorted Floats.
From stdpp Require Import gmap strings.

Set Warnings "-inexact-float".

Import ListNotations.
Local Open Scope string_scope.
Local Open Scope Z_scope.
Local Open Scope list_scope.

(** ** Snapshot documents *)

Module CompetitorDoc.
Record t := mk
  { id : string;
    fullName : string;
    equipe : string;
    boxNumber : Z;
    boxCode : string;
    sector : option string;
    photo : string }.
End CompetitorDoc.

Module HourlyEntryDoc.
Record t := mk
  { competitorId : string;
    hour : option Z;
    fishCount : float;
    totalWeight : float;
    status : string }.
End HourlyEntryDoc.

Module BigCatchDoc.
Record t := mk
  { competitorId : string;
    biggestCatch : float;
    status : string }.
End BigCatchDoc.

(** What [useFirestore()] hands to the memo. *)
Record Snapshot := mkSnapshot
  { firestoreCompetitors : list CompetitorDoc.t;
    firestoreHourlyEntries : list HourlyEntryDoc.t;
    firestoreBigCatches : list BigCatchDoc.t }.

(** ** [interface CompetitorChip] *)

Module Chip.
Record t := mk
  { id : string;
    name : string;
    equipe : string;
    boxNumber : Z;
    boxCode : string;
    sector : string;
    points : float;
    fishCount : float;
    totalWeight : float;
    biggestCatch : float;
    photo : string;
    coefficient : float;
    classementSecteur : Z;
    classementGeneral : Z }.

(** [comp.coefficient = v] *)
Definition set_coefficient (c : t) (v : float) : t :=
  mk (id c) (name c) (equipe c) (boxNumber c) (boxCode c) (sector c)
     (points c) (fishCount c) (totalWeight c) (biggestCatch c) (photo c)
     v (classementSecteur c) (classementGeneral c).

(** [comp.classementSecteur = v] *)
Definition set_classementSecteur (c : t) (v : Z) : t :=
  mk (id c) (name c) (equipe c) (boxNumber c) (boxCode c) (sector c)
     (points c) (fishCount c) (totalWeight c) (biggestCatch c) (photo c)
     (coefficient c) v (classementGeneral c).

(** [comp.classementGeneral = v] *)
Definition set_classementGeneral (c : t) (v : Z) : t :=
  mk (id c) (name c) (equipe c) (boxNumber c) (boxCode c) (sector c)
     (points c) (fishCount c) (totalWeight c) (biggestCatch c) (photo c)
     (coefficient c) (classementSecteur c) v.
End Chip.

(** ** JavaScript helpers *)

(** [x === s] for a possibly missing string field. *)
Definition strict_eq_string (x : option string) (s : string) : bool :=
  match x with
  | Some x' => String.eqb x' s
  | None => false
  end.

(** [x === n] for a possibly missing integer field. *)
Definition strict_eq_Z (x : option Z) (n : Z) : bool :=
  match x with
  | Some x' => Z.eqb x' n
  | None => false
  end.

(** [arr.includes(s)] on an array of strings. *)
Definition includes (arr : list string) (s : string) : bool :=
  existsb (String.eqb s) arr.

(** [arr.forEach((x, index) => ...)] where the callback assigns a field of
    [x]: the element at [index] is replaced by the updated object. *)
Fixpoint forEach_from {A} (f : A -> Z -> A) (index : Z) (arr : list A) : list A :=
  match arr with
  | [] => []
  | x :: rest => f x index :: forEach_from f (index + 1) rest
  end.

Definition forEach_indexed {A} (f : A -> Z -> A) (arr : list A) : list A :=
  forEach_from f 0 arr.

(** What [Array.prototype.sort] reads of the number [v] that a comparator
    returns: whether [v < 0] and whether [v > 0].  A NaN is neither, and
    the sort takes it for zero.  The comparators of the memo return doubles,
    or integers where they subtract box numbers. *)
Class Compared (N : Type) := mkCompared
  { below_zero : N -> bool;
    above_zero : N -> bool }.

#[global] Instance Compared_float : Compared float :=
  {| below_zero v := (v <? 0)%float; above_zero v := (0 <? v)%float |}.

#[global] Instance Compared_Z : Compared Z :=
  {| below_zero v := v <? 0; above_zero v := 0 <? v |}.

(** [Array.prototype.sort(cmp)]: a result of the comparator that is not
    above zero keeps the left argument first, and the sort is stable.  The
    reference implementation is a stable insertion sort. *)
Section Sort.
Context {A N : Type} `{Compared N} (cmp : A -> A -> N).

Fixpoint sort_insert (x : A) (l : list A) : list A :=
  match l with
  | [] => [x]
  | y :: l' =>
      if above_zero (cmp x y) then y :: sort_insert x l' else x :: y :: l'
  end.

Definition js_sort (l : list A) : list A := fold_right sort_insert [] l.
End Sort.

(** The type of an [Array.prototype.sort] on chips; the computation below
    takes the engine's sort as a parameter. *)
Definition chip_sort :=
  forall N : Type, Compared N -> (Chip.t -> Chip.t -> N) -> list Chip.t -> list Chip.t.

(** The reference sort, on chips. *)
Definition chipSort : chip_sort := @js_sort Chip.t.

(** ** The [competitors] memo *)

Definition sectors : list string := ["A"; "B"; "C"; "D"; "E"; "F"].

Definition countedStatuses : list string :=
  ["locked_judge"; "locked_admin"; "offline_judge"; "offline_admin"].

(** The constants of the source. *)
Definition POINTS_PER_FISH : float := 50.
Definition LAST_PLACE : Z := 20.
Definition UNRANKED : Z := 120.

(** [for (let hour = 1; hour <= 7; hour++)] *)
Definition hours : list Z := map Z.of_nat (seq 1 7).

(** [for (let place = 1; place <= 20; place++)] *)
Definition places : list Z := map Z.of_nat (seq 1 (Z.to_nat LAST_PLACE)).

Section Memo.
Variable srt : chip_sort.
Variable snap : Snapshot.

(** The filter of the hour loop. *)
Definition hourEntries (cid : string) (hour : Z) : list HourlyEntryDoc.t :=
  List.filter
    (fun entry =>
       String.eqb (HourlyEntryDoc.competitorId entry) cid
       && strict_eq_Z (HourlyEntryDoc.hour entry) hour
       && includes countedStatuses (HourlyEntryDoc.status entry))
    (firestoreHourlyEntries snap).

(** The hour loop: the pair is ([nbPrisesGlobal], [poidsTotal]), each
    entry added to it in turn. *)
Definition sumHours (cid : string) : float * float :=
  fold_left
    (fun acc hour =>
       fold_left
         (fun acc entry =>
            ((fst acc + HourlyEntryDoc.fishCount entry)%float,
             (snd acc + HourlyEntryDoc.totalWeight entry)%float))
         (hourEntries cid hour) acc)
    hours (0%float, 0%float).

Definition grossePriseEntry (cid : string) : option BigCatchDoc.t :=
  List.find
    (fun entry =>
       String.eqb (BigCatchDoc.competitorId entry) cid
       && includes countedStatuses (BigCatchDoc.status entry))
    (firestoreBigCatches snap).

(** The callback of [sectorCompetitors.map].  [competitor.sector] is read
    from the document; the filter has made it strictly equal to the loop
    variable [sector], which stands in for a field that is not there. *)
Definition calculate (sector : string) (competitor : CompetitorDoc.t) : Chip.t :=
  let nbPrisesGlobal := fst (sumHours (CompetitorDoc.id competitor)) in
  let poidsTotal := snd (sumHours (CompetitorDoc.id competitor)) in
  let grossePrise :=
    match grossePriseEntry (CompetitorDoc.id competitor) with
    | Some entry => BigCatchDoc.biggestCatch entry
    | None => 0%float
    end in
  let points := (nbPrisesGlobal * POINTS_PER_FISH + poidsTotal)%float in
  {| Chip.id := CompetitorDoc.id competitor;
     Chip.name := CompetitorDoc.fullName competitor;
     Chip.equipe := CompetitorDoc.equipe competitor;
     Chip.boxNumber := CompetitorDoc.boxNumber competitor;
     Chip.boxCode := CompetitorDoc.boxCode competitor;
     Chip.sector := default sector (CompetitorDoc.sector competitor);
     Chip.photo := CompetitorDoc.photo competitor;
     Chip.fishCount := nbPrisesGlobal;
     Chip.totalWeight := poidsTotal;
     Chip.biggestCatch := grossePrise;
     Chip.points := points;
     Chip.coefficient := 0%float;
     Chip.classementSecteur := 0;
     Chip.classementGeneral := 0 |}.

Definition sectorCompetitors (sector : string) : list CompetitorDoc.t :=
  List.filter (fun comp => strict_eq_string (CompetitorDoc.sector comp) sector)
    (firestoreCompetitors snap).

Definition sectorCalculated (sector : string) : list Chip.t :=
  map (calculate sector) (sectorCompetitors sector).

Definition sectorTotalNbPrises (sector : string) : float :=
  fold_left (fun sum comp => (sum + Chip.fishCount comp)%float)
    (sectorCalculated sector) 0%float.

(** The body of the coefficient loop. *)
Definition withCoefficient (total : float) (comp : Chip.t) : Chip.t :=
  if (0 <? total)%float
  then Chip.set_coefficient comp
         ((Chip.points comp * Chip.fishCount comp) / total)%float
  else Chip.set_coefficient comp 0%float.

Definition byPoints (a b : Chip.t) : float := (Chip.points b - Chip.points a)%float.

(** [sectorCalculated] once its coefficients are assigned. *)
Definition sectorCoefficients (sector : string) : list Chip.t :=
  map (withCoefficient (sectorTotalNbPrises sector)) (sectorCalculated sector).

(** [sectorSorted] once its ranks are assigned. *)
Definition sectorSorted (sector : string) : list Chip.t :=
  forEach_indexed
    (fun comp index => Chip.set_classementSecteur comp (index + 1))
    (srt float _ byPoints (sectorCoefficients sector)).

(** The object [sectorCalculations] after the loop over the sectors. *)
Definition sectorCalculations : gmap string (list Chip.t) :=
  fold_left (fun calc sector => <[sector := sectorSorted sector]> calc) sectors ∅.

Definition byCoefficient (a b : Chip.t) : float :=
  if negb (Chip.coefficient b =? Chip.coefficient a)%float
  then (Chip.coefficient b - Chip.coefficient a)%float
  else (Chip.biggestCatch b - Chip.biggestCatch a)%float.

(** [placeGroup] after the loop over the sectors, before it is sorted. *)
Definition placeGroup (place : Z) : list Chip.t :=
  fold_left
    (fun group sector =>
       match List.find (fun comp => Chip.classementSecteur comp =? place)
               (default [] (sectorCalculations !! sector)) with
       | Some competitorAtPlace => group ++ [competitorAtPlace]
       | None => group
       end)
    sectors [].

Definition generalRanking : list Chip.t :=
  fold_left (fun ranking place => ranking ++ srt float _ byCoefficient (placeGroup place))
    places [].

Definition zeroCoeffCompetitors : list Chip.t :=
  map (fun comp => Chip.set_classementGeneral comp UNRANKED)
    (List.filter (fun comp => (Chip.coefficient comp =? 0)%float) generalRanking).

Definition nonZeroCompetitors : list Chip.t :=
  forEach_indexed
    (fun comp index => Chip.set_classementGeneral comp (index + 1))
    (List.filter (fun comp => (0 <? Chip.coefficient comp)%float) generalRanking).

(** The body of the grouping loop. *)
Definition pushBySector (bySector : gmap string (list Chip.t)) (comp : Chip.t)
  : gmap string (list Chip.t) :=
  match bySector !! Chip.sector comp with
  | None => <[Chip.sector comp := [comp]]> bySector
  | Some arr => <[Chip.sector comp := arr ++ [comp]]> bySector
  end.

Definition byBoxNumber (a b : Chip.t) : Z := Chip.boxNumber a - Chip.boxNumber b.

(** The value of the memo. *)
Definition competitorsBySector : gmap string (list Chip.t) :=
  srt Z _ byBoxNumber <$>
    fold_left pushBySector (nonZeroCompetitors ++ zeroCoeffCompetitors) ∅.
End Memo.

(** The memo with the reference sort. *)
Definition competitors (snap : Snapshot) : gmap string (list Chip.t) :=
  competitorsBySector chipSort snap.

(** What the general stage reads: [sectorCalculations[sector] || []]. *)
Definition sectorRanking (snap : Snapshot) (sector : string) : list Chip.t :=
  default [] (sectorCalculations chipSort snap !! sector).

(** What the display reads: [competitors[sector]], an absent key being an
    empty row. *)
Definition standings (snap : Snapshot) (sector : string) : list Chip.t :=
  default [] (competitors snap !! sector).

(** ** Comparators and stable sorts *)

(** [a] may stand before [b]: the comparator does not return a number above
    zero. *)
Definition before {A N} `{Compared N} (cmp : A -> A -> N) (a b : A) : Prop :=
  above_zero (cmp a b) = false.

(** The comparator returns zero, or NaN. *)
Definition tie {A N} `{Compared N} (cmp : A -> A -> N) (a b : A) : bool :=
  negb (above_zero (cmp a b)) && negb (below_zero (cmp a b)).

(** A comparator is consistent on the elements that satisfy [P] when its
    sign is a total preorder there, as [Array.prototype.sort] requires for a
    defined result. *)
Record consistent {A N} `{Compared N} (cmp : A -> A -> N) (P : A -> Prop) : Prop :=
  mk_consistent
  { consistent_total : forall a b, P a -> P b -> before cmp a b \/ before cmp b a;
    consistent_trans :
      forall a b c, P a -> P b -> P c ->
                    before cmp a b -> before cmp b c -> before cmp a c;
    consistent_tie :
      forall a b, P a -> P b ->
                  (tie cmp a b = true <-> before cmp a b /\ before cmp b a) }.

(** [l'] is [l] sorted by [cmp], elements that tie keeping their order. *)
Record stable_sort_of {A N} `{Compared N} (cmp : A -> A -> N) (P : A -> Prop)
  (l l' : list A) : Prop :=
  mk_stable_sort_of
  { sorted_perm : Permutation l' l;
    sorted_order : StronglySorted (before cmp) l';
    sorted_stable :
      forall x, P x -> List.filter (tie cmp x) l' = List.filter (tie cmp x) l }.

(** An engine's sort conforms when it is a stable sort for every comparator
    on every array on whose elements the comparator is consistent. *)
Definition conforming (srt : chip_sort) : Prop :=
  forall N (cmpN : Compared N) (cmp : Chip.t -> Chip.t -> N) (P : Chip.t -> Prop),
    consistent cmp P ->
    forall l, Forall P l -> stable_sort_of cmp P l (srt N cmpN cmp l).

(** Another stable sort: insertion from the left, a new element going
    behind the elements it ties with. *)
Section SortLeft.
Context {A N : Type} `{Compared N} (cmp : A -> A -> N).

Fixpoint insert_last (x : A) (l : list A) : list A :=
  match l with
  | [] => [x]
  | y :: l' =>
      if above_zero (cmp y x) then x :: y :: l' else y :: insert_last x l'
  end.

Definition sort_left (l : list A) : list A :=
  fold_left (fun acc x => insert_last x acc) l [].

End SortLeft.

(** [sort_left], on chips. *)
Definition chipSortLeft : chip_sort := @sort_left Chip.t.

(** ** Vocabulary of the specification *)

(** The sum of an array of doubles as the loops of the source take it: from
    0, one element after the other. *)
Definition fsum (l : list float) : float :=
  fold_left (fun sum x => (sum + x)%float) l 0%float.

(** An optional element as an array of length at most one. *)
Definition found {A} (o : option A) : list A :=
  match o with
  | Some x => [x]
  | None => []
  end.

(** The spec's reading of a counted status. *)
Definition counted_status (st : string) : Prop :=
  st = "locked_judge" \/ st = "locked_admin" \/ st = "offline_judge" \/ st = "offline_admin".

(** The spec's reading of an hour slot: present and within 1..7. *)
Definition hourInRange (h : option Z) : bool :=
  match h with
  | Some h' => (1 <=? h') && (h' <=? 7)
  | None => false
  end.

(** The spec's counted hourly entries of a competitor, in snapshot order. *)
Definition countedEntries (snap : Snapshot) (cid : string) : list HourlyEntryDoc.t :=
  List.filter
    (fun entry =>
       String.eqb (HourlyEntryDoc.competitorId entry) cid
       && hourInRange (HourlyEntryDoc.hour entry)
       && includes countedStatuses (HourlyEntryDoc.status entry))
    (firestoreHourlyEntries snap).

(** The spec's counted big catches of a competitor, in snapshot order. *)
Definition countedBigCatches (snap : Snapshot) (cid : string) : list BigCatchDoc.t :=
  List.filter
    (fun entry =>
       String.eqb (BigCatchDoc.competitorId entry) cid
       && includes countedStatuses (BigCatchDoc.status entry))
    (firestoreBigCatches snap).

(** The hour slot of a counted entry. *)
Definition hourOf (entry : HourlyEntryDoc.t) : Z := default 0 (HourlyEntryDoc.hour entry).

(** The comparator that orders entries by hour. *)
Definition byHour (a b : HourlyEntryDoc.t) : Z := hourOf a - hourOf b.

(** Entries hour after hour, those of one hour in the order they have. *)
Definition hourOrder (l : list HourlyEntryDoc.t) : list HourlyEntryDoc.t :=
  flat_map
    (fun h => List.filter (fun entry => strict_eq_Z (HourlyEntryDoc.hour entry) h) l)
    hours.

(** The spec's sector total: the sum, over the competitors of the sector, of
    the fish counts of their counted entries. *)
Definition sectorTotalFish (snap : Snapshot) (s : string) : float :=
  fsum (map (fun comp =>
               fsum (map HourlyEntryDoc.fishCount
                       (hourOrder (countedEntries snap (CompetitorDoc.id comp)))))
          (sectorCompetitors snap s)).

(** [0 <= x]: a double that is zero, positive or plus infinity. *)
Definition nonneg (x : float) : Prop := (0 <=? x)%float = true.

(** The data model of the snapshot: fish counts and weights are not
    negative. *)
Definition nonnegative_entries (snap : Snapshot) : Prop :=
  Forall (fun entry =>
            nonneg (HourlyEntryDoc.fishCount entry)
            /\ nonneg (HourlyEntryDoc.totalWeight entry))
    (firestoreHourlyEntries snap).

(** A double that is a number. *)
Definition a_number (x : float) : Prop := is_nan x = false.

(** The chips that the comparator of the place groups orders: those whose
    coefficient and biggest catch are numbers. *)
Definition scored (c : Chip.t) : Prop :=
  a_number (Chip.coefficient c) /\ a_number (Chip.biggestCatch c).


(** The chips that the two filters of the general stage keep: those whose
    coefficient is 0 or above 0.  A negative coefficient and a NaN pass
    neither filter. *)
Definition displayable (c : Chip.t) : bool :=
  (Chip.coefficient c =? 0)%float || (0 <? Chip.coefficient c)%float.

(** ** Doubles and their specification

    The operations on primitive floats are specified by [SpecFloat], where a
    double is a zero, an infinity, NaN or a sign, a mantissa and an exponent.
    The definitions below read a specified double. *)

(** The order of the doubles that are numbers, as an integer: a larger
    double has a larger key, and the two zeros have the key 0. *)
Definition ord (x : spec_float) : Z :=
  match x with
  | S754_zero _ => 0
  | S754_nan => 0
  | S754_infinity s => if s then - (2048 * 2 ^ 53) else 2048 * 2 ^ 53
  | S754_finite s m e =>
      if s then - ((e + 1075) * 2 ^ 53 + Zpos m) else (e + 1075) * 2 ^ 53 + Zpos m
  end.

Definition key (x : float) : Z := ord (Prim2SF x).

Definition SFnan (x : spec_float) : bool :=
  match x with
  | S754_nan => true
  | _ => false
  end.

(** A result that is not NaN and has the sign [s]. *)
Definition signed (s : bool) (r : spec_float) : Prop :=
  match r with
  | S754_zero s' | S754_infinity s' | S754_finite s' _ _ => s' = s
  | S754_nan => False
  end.

(** The same, zero excluded. *)
Definition strictly_signed (s : bool) (r : spec_float) : Prop :=
  match r with
  | S754_infinity s' | S754_finite s' _ _ => s' = s
  | S754_zero _ | S754_nan => False
  end.

(** Zero, a positive number or plus infinity. *)
Definition SFnonneg (r : spec_float) : Prop :=
  match r with
  | S754_zero _ => True
  | S754_infinity s | S754_finite s _ _ => s = false
  | S754_nan => False
  end.

(** A mantissa of a subtraction, brought to the smaller exponent. *)
Definition aligned (s : bool) (m : positive) (e ez : Z) : Z :=
  cond_Zopp s (Zpos (fst (shl_align m e ez))).

(** The keys on which the comparators of the memo order the chips, as pairs
    compared from the left. *)
Definition pair_ltb (p q : Z * Z) : bool :=
  (fst p <? fst q) || ((fst p =? fst q) && (snd p <? snd q)).

(** ** Views of the memo used in the proofs *)

(** The body of the loop over the entries of an hour. *)
Definition addEntry (acc : float * float) (entry : HourlyEntryDoc.t) : float * float :=
  ((fst acc + HourlyEntryDoc.fishCount entry)%float,
   (snd acc + HourlyEntryDoc.totalWeight entry)%float).

(** A chip as it was before its sector rank was assigned. *)
Definition unranked (c : Chip.t) : Chip.t := Chip.set_classementSecteur c 0.

(** A chip as it was before its general rank was assigned. *)
Definition unplaced (c : Chip.t) : Chip.t := Chip.set_classementGeneral c 0.

(** The chip of a competitor of the sector once its coefficient is assigned. *)
Definition chipOf (snap : Snapshot) (sector : string) (comp : CompetitorDoc.t) : Chip.t :=
  withCoefficient (sectorTotalNbPrises snap sector) (calculate snap sector comp).

(** The chips of a sector that hold a given place: at most one. *)
Definition atPlace (snap : Snapshot) (s : string) (place : Z) : list Chip.t :=
  List.filter (fun comp => Chip.classementSecteur comp =? place)
    (sectorSorted chipSort snap s).

(** The chips of a sector that are ranked within the places of the loop. *)
Definition withinPlaces (snap : Snapshot) (s : string) : list Chip.t :=
  List.filter (fun comp => Chip.classementSecteur comp <=? LAST_PLACE)
    (sectorSorted chipSort snap s).

(** ** A worked snapshot

    Sector A is the scenario of the specification: three competitors with
    (fish, weight) = (2, 10), (0, 0) and (5, 3).  The snapshot also holds a
    draft entry, an entry outside the hours, an entry without hour, a
    competitor of no known sector and one without sector. *)

Definition competitorDoc (id : string) (box : Z) (sector : option string) : CompetitorDoc.t :=
  CompetitorDoc.mk id id "" box "" sector "".

Definition sample : Snapshot :=
  {| firestoreCompetitors :=
       [ competitorDoc "a1" 3 (Some "A"); competitorDoc "a2" 1 (Some "A");
         competitorDoc "a3" 2 (Some "A"); competitorDoc "b1" 1 (Some "B");
         competitorDoc "z1" 1 (Some "Z"); competitorDoc "n1" 1 None ];
     firestoreHourlyEntries :=
       [ HourlyEntryDoc.mk "a1" (Some 1) 1 4 "locked_judge";
         HourlyEntryDoc.mk "a3" (Some 7) 5 3 "offline_admin";
         HourlyEntryDoc.mk "a1" (Some 2) 1 6 "locked_admin";
         HourlyEntryDoc.mk "a2" (Some 1) 4 9 "draft";
         HourlyEntryDoc.mk "a2" (Some 9) 2 2 "locked_judge";
         HourlyEntryDoc.mk "a2" None 2 2 "locked_judge";
         HourlyEntryDoc.mk "b1" (Some 3) 1 1.5 "offline_judge" ];
     firestoreBigCatches :=
       [ BigCatchDoc.mk "a1" 2 "submitted";
         BigCatchDoc.mk "a1" 2.5 "locked_judge";
         BigCatchDoc.mk "b1" 1 "offline_admin" ] |}.

(** The chip of [a1] in the sector ranking and in the displayed row. *)
Definition sample_a1 (rank general : Z) : Chip.t :=
  {| Chip.id := "a1"; Chip.name := "a1"; Chip.equipe := ""; Chip.boxNumber := 3;
     Chip.boxCode := ""; Chip.sector := "A"; Chip.photo := "";
     Chip.fishCount := 2; Chip.totalWeight := 10; Chip.biggestCatch := 2.5;
     Chip.points := 110; Chip.coefficient := (110 * 2 / 7)%float;
     Chip.classementSecteur := rank; Chip.classementGeneral := general |}.

(** [sample] without its stray competitors and entries. *)
Definition sample_valid_competitors : list CompetitorDoc.t :=
  [ competitorDoc "a1" 3 (Some "A"); competitorDoc "a2" 1 (Some "A");
    competitorDoc "a3" 2 (Some "A"); competitorDoc "b1" 1 (Some "B") ].

Definition sample_valid_entries : list HourlyEntryDoc.t :=
  [ HourlyEntryDoc.mk "a1" (Some 1) 1 4 "locked_judge";
    HourlyEntryDoc.mk "a3" (Some 7) 5 3 "offline_admin";
    HourlyEntryDoc.mk "a1" (Some 2) 1 6 "locked_admin";
    HourlyEntryDoc.mk "a2" (Some 1) 4 9 "draft" ].

(** Twenty-one competitors in sector A, none with an entry. *)
Definition crowded : Snapshot :=
  {| firestoreCompetitors :=
       map (fun n => competitorDoc (String (Ascii.ascii_of_nat (96 + n)) "")
                       (Z.of_nat n) (Some "A"))
         (seq 1 21);
     firestoreHourlyEntries := [];
     firestoreBigCatches := [] |}.

(** Two competitors with one fish each and the same three weights, entered
    in opposite hour order: the sums differ in their last bit. *)
Definition rounded : Snapshot :=
  {| firestoreCompetitors :=
       [competitorDoc "y" 1 (Some "A"); competitorDoc "x" 2 (Some "A")];
     firestoreHourlyEntries :=
       [ HourlyEntryDoc.mk "x" (Some 1) 1 3.1 "locked_judge";
         HourlyEntryDoc.mk "x" (Some 2) 0 37.8 "locked_judge";
         HourlyEntryDoc.mk "x" (Some 3) 0 15.3 "locked_judge";
         HourlyEntryDoc.mk "y" (Some 3) 0 3.1 "locked_judge";
         HourlyEntryDoc.mk "y" (Some 2) 0 37.8 "locked_judge";
         HourlyEntryDoc.mk "y" (Some 1) 1 15.3 "locked_judge" ];
     firestoreBigCatches := [] |}.

(** One competitor alone in its sector, with 9 fish and 5.2 of weight. *)
Definition alone : Snapshot :=
  {| firestoreCompetitors := [competitorDoc "a1" 1 (Some "A")];
     firestoreHourlyEntries := [HourlyEntryDoc.mk "a1" (Some 1) 9 5.2 "locked_judge"];
     firestoreBigCatches := [] |}.

(** A sector where a fish count is negative: [m] has 3 fish, [n] has -1 fish
    and 100 of weight. *)
Definition negative_count : Snapshot :=
  {| firestoreCompetitors :=
       [competitorDoc "m" 1 (Some "A"); competitorDoc "n" 2 (Some "A")];
     firestoreHourlyEntries :=
       [ HourlyEntryDoc.mk "m" (Some 1) 3 0 "locked_judge";
         HourlyEntryDoc.mk "n" (Some 1) (-1) 100 "locked_judge" ];
     firestoreBigCatches := [] |}.

(** A sector where a total weight overflows: [w] has no fish and two
    weights of 1e308, [v] has one fish. *)
Definition overflowed : Snapshot :=
  {| firestoreCompetitors :=
       [competitorDoc "v" 1 (Some "A"); competitorDoc "w" 2 (Some "A")];
     firestoreHourlyEntries :=
       [ HourlyEntryDoc.mk "v" (Some 1) 1 0 "locked_judge";
         HourlyEntryDoc.mk "w" (Some 1) 0 1e308 "locked_judge";
         HourlyEntryDoc.mk "w" (Some 2) 0 1e308 "locked_judge" ];
     firestoreBigCatches := [] |}.

(** ** The grid of the display *)

(** [arr.slice(start, end)]: a negative bound counts from the end, and
    both bounds are clamped to the array. *)
Definition slice {A} (start finish : Z) (arr : list A) : list A :=
  let len := Z.of_nat (length arr) in
  let k := if start <? 0 then Z.max (len + start) 0 else Z.min start len in
  let final := if finish <? 0 then Z.max (len + finish) 0 else Z.min finish len in
  firstn (Z.to_nat (Z.max (final - k) 0)) (skipn (Z.to_nat k) arr).

(** The chips of the first row of a sector,
    [competitors[sector]?.slice(0, 10)]; an absent key renders nothing. *)
Definition firstRow (snap : Snapshot) (sector : string) : list Chip.t :=
  default [] (slice 0 10 <$> competitors snap !! sector).

(** The chips of the second row, [competitors[sector]?.slice(10, 20)]. *)
Definition secondRow (snap : Snapshot) (sector : string) : list Chip.t :=
  default [] (slice 10 20 <$> competitors snap !! sector).

(** Two counted big catches for one competitor, the later one heavier. *)
Definition two_catches : Snapshot :=
  {| firestoreCompetitors := [competitorDoc "a1" 1 (Some "A")];
     firestoreHourlyEntries := [HourlyEntryDoc.mk "a1" (Some 1) 1 4 "locked_judge"];
     firestoreBigCatches :=
       [ BigCatchDoc.mk "a1" 9 "draft";
         BigCatchDoc.mk "a1" 2 "locked_judge";
         BigCatchDoc.mk "a1" 7 "locked_admin" ] |}.

(** The order of the general ranking: a better sector rank first, then a
    larger coefficient, then a larger biggest catch. *)
Definition strictlyAhead (a b : Chip.t) : Prop :=
  Chip.classementSecteur a < Chip.classementSecteur b
  \/ (Chip.classementSecteur a = Chip.classementSecteur b
      /\ ((Chip.coefficient b <? Chip.coefficient a)%float = true
          \/ ((Chip.coefficient b =? Chip.coefficient a)%float = true
              /\ (Chip.biggestCatch b <? Chip.biggestCatch a)%float = true))).

(** The same order, ties allowed. *)
Definition notBehind (a b : Chip.t) : Prop :=
  Chip.classementSecteur a < Chip.classementSecteur b
  \/ (Chip.classementSecteur a = Chip.classementSecteur b /\ before byCoefficient a b).

(** A sector whose winner has the smaller coefficient: [a1] has 2 fish and
    1000 of weight, [a2] has 10 fish and no weight. *)
Definition tiers : Snapshot :=
  {| firestoreCompetitors :=
       [competitorDoc "a2" 2 (Some "A"); competitorDoc "a1" 1 (Some "A")];
     firestoreHourlyEntries :=
       [ HourlyEntryDoc.mk "a1" (Some 1) 2 1000 "locked_judge";
         HourlyEntryDoc.mk "a2" (Some 1) 10 0 "locked_judge" ];
     firestoreBigCatches := [] |}.

(** ** The countdown overlay

    [CountdownOverlay] of the countdown component.  Times are integers of
    milliseconds, as [Date.getTime] gives them; the start time is absent
    when [new Date(startDateTime)] is not a date, [getTime] then being NaN,
    for which every comparison is false. *)

Module Countdown.
Record t := mk
  { showCountdown : bool;
    countdownSeconds : Z }.
End Countdown.

(** [useState(false)] and [useState(60)]. *)
Definition countdownInitial : Countdown.t := Countdown.mk false 60.

(** [Math.floor(timeUntilStart / 1000)], absent for NaN. *)
Definition secondsUntilStart (start : option Z) (now : Z) : option Z :=
  match start with
  | Some startTime => Some ((startTime - now) / 1000)
  | None => None
  end.

(** One run of [checkCountdown] at time [now]: the state after the state
    setters it calls, and whether it arms the timeout that hides the
    overlay.  The three tests read the [showCountdown] of the render. *)
Definition checkCountdown (start : option Z) (now : Z) (st : Countdown.t)
  : Countdown.t * bool :=
  match secondsUntilStart start now with
  | None => (st, false)
  | Some seconds =>
      let show := Countdown.showCountdown st in
      let st1 :=
        if (seconds <=? 60) && (0 <? seconds) && negb show
        then Countdown.mk true seconds else st in
      let st2 :=
        if show && (0 <? seconds)
        then Countdown.mk (Countdown.showCountdown st1) seconds else st1 in
      let st3 :=
        if show && (seconds <=? 0)
        then Countdown.mk (Countdown.showCountdown st2) 0 else st2 in
      (st3, show && (seconds <=? 0))
  end.

(** The callback of the timeout: [setShowCountdown(false)]. *)
Definition hideCountdown (st : Countdown.t) : Countdown.t :=
  Countdown.mk false (Countdown.countdownSeconds st).

(** What happens to the overlay: the interval or the initial check runs
    [checkCountdown] at some time, or an armed timeout fires. *)
Inductive countdownEvent :=
| Tick (now : Z)
| TimeoutFired.

(** The state after a sequence of events, with the number of timeouts that
    are armed and have not fired; a timeout fires only if one is armed. *)
Fixpoint countdownRun (start : option Z) (events : list countdownEvent)
  (st : Countdown.t) (armed : nat) : Countdown.t * nat :=
  match events with
  | [] => (st, armed)
  | Tick now :: rest =>
      let (st', arms) := checkCountdown start now st in
      countdownRun start rest st' (if arms then S armed else armed)
  | TimeoutFired :: rest =>
      match armed with
      | O => countdownRun start rest st armed
      | S armed' => countdownRun start rest (hideCountdown st) armed'
      end
  end.

(** The clock does not go back: the times of the ticks, from [since] on. *)
Fixpoint clockMonotone (since : Z) (events : list countdownEvent) : Prop :=
  match events with
  | [] => True
  | Tick now :: rest => since <= now /\ clockMonotone now rest
  | TimeoutFired :: rest => clockMonotone since rest
  end.

(** What a render of the overlay gives: nothing, "GO!", or a
    ReferenceError.  The branch that is to show the seconds left evaluates
    [competitionSettings?.soundEnabled], and the component binds no
    [competitionSettings] (it binds the settings as
    [firestoreCompetitionSettings]), so that branch throws before it shows
    anything. *)
Inductive overlay :=
| OverlayHidden
| OverlayThrows
| OverlayGo.

Definition countdownView (st : Countdown.t) : overlay :=
  if Countdown.showCountdown st
  then if 0 <? Countdown.countdownSeconds st
       then OverlayThrows
       else OverlayGo
  else OverlayHidden.

(** ** Judges: validation and sessions

    [validateJudgeData] of [FirebaseAuthAdmin] and the session that
    [useCurrentUser] derives from the signed-in user.  The strings these
    functions inspect are sequences of UTF-16 code units, which is what
    [trim], [length], [split] and a regular expression without the [u] flag
    work on. *)

Definition jsString := list Z.

(** A literal of the source made of ASCII characters. *)
Definition lit (s : string) : jsString :=
  map (fun a => Z.of_N (Ascii.N_of_ascii a)) (list_ascii_of_string s).

(** The code units of WhiteSpace and LineTerminator: what [\s] matches and
    what [trim] removes. *)
Definition whiteSpaceUnits : list Z :=
  [9; 10; 11; 12; 13; 32; 160; 5760;
   8192; 8193; 8194; 8195; 8196; 8197; 8198; 8199; 8200; 8201; 8202;
   8232; 8233; 8239; 8287; 12288; 65279].

Definition is_white_space (c : Z) : bool := existsb (Z.eqb c) whiteSpaceUnits.

Fixpoint trimStart (s : jsString) : jsString :=
  match s with
  | [] => []
  | c :: rest => if is_white_space c then trimStart rest else s
  end.

(** [s.trim()] *)
Definition trim (s : jsString) : jsString := rev (trimStart (rev (trimStart s))).

(** The code units of [@] and of the dot. *)
Definition AT : Z := 64.
Definition DOT : Z := 46.

(** [s.split('@')[0]]: what stands before the first [@], the whole string
    when there is none. *)
Fixpoint beforeAt (s : jsString) : jsString :=
  match s with
  | [] => []
  | c :: rest => if c =? AT then [] else c :: beforeAt rest
  end.

(** [!x?.trim()] for a field that may be missing. *)
Definition blank (x : option jsString) : bool :=
  match x with
  | None => true
  | Some s => match trim s with [] => true | _ => false end
  end.

(** [a || b] on strings: a missing or empty [a] gives [b]. *)
Definition orElse (a : option jsString) (b : jsString) : jsString :=
  match a with
  | Some (c :: rest) => c :: rest
  | _ => b
  end.

(** Regular expressions over code units: classes, sequence, alternation and
    repetition.  [RNone] matches nothing. *)
Inductive regex :=
| RNone
| REps
| RClass (p : Z -> bool)
| RSeq (r1 r2 : regex)
| RAlt (r1 r2 : regex)
| RStar (r : regex).

(** [c] and [r+]. *)
Definition RChar (c : Z) : regex := RClass (Z.eqb c).
Definition RPlus (r : regex) : regex := RSeq r (RStar r).

(** The strings a regular expression matches from end to end. *)
Inductive Matches : regex -> jsString -> Prop :=
| MEps : Matches REps []
| MClass p c : p c = true -> Matches (RClass p) [c]
| MSeq r1 r2 s1 s2 : Matches r1 s1 -> Matches r2 s2 -> Matches (RSeq r1 r2) (s1 ++ s2)
| MAltL r1 r2 s : Matches r1 s -> Matches (RAlt r1 r2) s
| MAltR r1 r2 s : Matches r2 s -> Matches (RAlt r1 r2) s
| MStarNil r : Matches (RStar r) []
| MStarApp r s1 s2 : Matches r s1 -> Matches (RStar r) s2 -> Matches (RStar r) (s1 ++ s2).

(** Matching by derivatives. *)
Fixpoint nullable (r : regex) : bool :=
  match r with
  | RNone => false
  | REps => true
  | RClass _ => false
  | RSeq r1 r2 => nullable r1 && nullable r2
  | RAlt r1 r2 => nullable r1 || nullable r2
  | RStar _ => true
  end.

Fixpoint derive (c : Z) (r : regex) : regex :=
  match r with
  | RNone => RNone
  | REps => RNone
  | RClass p => if p c then REps else RNone
  | RSeq r1 r2 =>
      if nullable r1
      then RAlt (RSeq (derive c r1) r2) (derive c r2)
      else RSeq (derive c r1) r2
  | RAlt r1 r2 => RAlt (derive c r1) (derive c r2)
  | RStar r' => RSeq (derive c r') (RStar r')
  end.

(** [/^r$/.test(s)] *)
Definition test (r : regex) (s : jsString) : bool :=
  nullable (fold_left (fun r c => derive c r) s r).

(** The class [[^\s@]]. *)
Definition emailUnit (c : Z) : bool := negb (is_white_space c || (c =? AT)).

(** [/^[^\s@]+@[^\s@]+\.[^\s@]+$/] *)
Definition emailPattern : regex :=
  RSeq (RPlus (RClass emailUnit))
    (RSeq (RChar AT)
       (RSeq (RPlus (RClass emailUnit))
          (RSeq (RChar DOT) (RPlus (RClass emailUnit))))).

Module JudgeAuthData.
Record t := mk
  { id : option jsString;
    name : option jsString;
    email : option jsString;
    password : option jsString;
    sector : option jsString;
    role : jsString;
    status : jsString }.
End JudgeAuthData.

(** [validateJudgeData]: the object [errors], its keys being the fields at
    fault.  The messages are the literals of the source. *)
Definition validateJudgeData (judgeData : JudgeAuthData.t) (isEditing : bool)
  (excludeUid : option jsString) : gmap string string :=
  let errors : gmap string string := ∅ in
  let errors :=
    if blank (JudgeAuthData.name judgeData)
    then <["name" := "Nom et prénom requis"]> errors
    else errors in
  let errors :=
    if blank (JudgeAuthData.email judgeData)
    then <["email" := "Adresse email requise"]> errors
    else if negb (test emailPattern (default [] (JudgeAuthData.email judgeData)))
         then <["email" := "Adresse email invalide"]> errors
         else errors in
  let errors :=
    if negb isEditing && blank (JudgeAuthData.password judgeData)
    then <["password" := "Mot de passe requis"]> errors
    else match JudgeAuthData.password judgeData with
         | Some (c :: rest) =>
             if Z.of_nat (length (c :: rest)) <? 6
             then <["password" := "Le mot de passe doit contenir au moins 6 caractères"]> errors
             else errors
         | _ => errors
         end in
  errors.

(** [username: judgeData.email.split('@')[0]] of [createJudge]. *)
Definition judgeUsername (email : jsString) : jsString := beforeAt email.

Module FirebaseUser.
Record t := mk
  { uid : jsString;
    email : option jsString;
    displayName : option jsString }.
End FirebaseUser.

(** The fields of a judge document that the session reads. *)
Module JudgeDoc.
Record t := mk
  { name : jsString;
    username : jsString;
    role : jsString;
    sector : option jsString;
    status : jsString }.
End JudgeDoc.

Module UserSession.
Record t := mk
  { id : jsString;
    name : jsString;
    username : jsString;
    role : jsString;
    sector : option jsString;
    loginTime : jsString }.
End UserSession.

(** What [await JudgeService.getJudgeByUid(uid)] does: it throws, or gives
    [null], or gives a document. *)
Inductive judgeLookup :=
| LookupThrows
| LookupNull
| LookupDoc (judgeData : JudgeDoc.t).

(** [user.email === 'admin@titaniumopen.com' || user.email === 'admin@titanium-f7b50.com'] *)
Definition isAdminEmail (email : option jsString) : bool :=
  match email with
  | Some e =>
      bool_decide (e = lit "admin@titaniumopen.com")
      || bool_decide (e = lit "admin@titanium-f7b50.com")
  | None => false
  end.

(** The session for a user without an active judge document. *)
Definition fallbackSession (user : FirebaseUser.t) (now : jsString) : UserSession.t :=
  let isAdmin := isAdminEmail (FirebaseUser.email user) in
  {| UserSession.id := FirebaseUser.uid user;
     UserSession.name :=
       orElse (FirebaseUser.displayName user)
         (orElse (beforeAt <$> FirebaseUser.email user) (lit "Unknown"));
     UserSession.username :=
       orElse (beforeAt <$> FirebaseUser.email user) (lit "unknown");
     UserSession.role := if isAdmin then lit "admin" else lit "judge";
     UserSession.sector := if isAdmin then None else Some (lit "A");
     UserSession.loginTime := now |}.

(** The callback of [onAuthStateChanged]: the value given to
    [setCurrentUser].  [now] is [new Date().toISOString()]. *)
Definition currentUserOf (user : option FirebaseUser.t)
  (getJudgeByUid : jsString -> judgeLookup) (now : jsString) : option UserSession.t :=
  match user with
  | None => None
  | Some user =>
      match getJudgeByUid (FirebaseUser.uid user) with
      | LookupThrows => None
      | LookupNull => Some (fallbackSession user now)
      | LookupDoc judgeData =>
          if bool_decide (JudgeDoc.status judgeData = lit "active")
          then Some {| UserSession.id := FirebaseUser.uid user;
                       UserSession.name := JudgeDoc.name judgeData;
                       UserSession.username := JudgeDoc.username judgeData;
                       UserSession.role := JudgeDoc.role judgeData;
                       UserSession.sector := JudgeDoc.sector judgeData;
                       UserSession.loginTime := now |}
          else Some (fallbackSession user now)
      end
  end.

(** A non-empty run of code units that are neither white space nor [@]:
    what [[^\s@]+] matches. *)
Definition plain (s : jsString) : Prop :=
  s <> [] /\ List.Forall (fun c => emailUnit c = true) s.

(** A code unit that [trim] keeps. *)
Definition visible (c : Z) : Prop := is_white_space c = false.

(** The passwords that raise no error: when a judge is created, one that
    [trim] does not empty, of six code units or more; when a judge is
    edited, a missing or empty one as well, and any of six code units or
    more. *)
Definition passwordAccepted (isEditing : bool) (password : option jsString) : Prop :=
  if isEditing
  then forall p, password = Some p -> p = [] \/ (6 <= length p)%nat
  else exists p, password = Some p /\ List.Exists visible p /\ (6 <= length p)%nat.

(** A judge to create, a signed-in user and a judge document that is not
    active. *)
Definition judgeSample : JudgeAuthData.t :=
  {| JudgeAuthData.id := None;
     JudgeAuthData.name := Some (lit "Ana B");
     JudgeAuthData.email := Some (lit "ana@club.tn");
     JudgeAuthData.password := Some (lit "secret1");
     JudgeAuthData.sector := Some (lit "A");
     JudgeAuthData.role := lit "judge";
     JudgeAuthData.status := lit "active" |}.

Definition visitor : FirebaseUser.t :=
  {| FirebaseUser.uid := lit "u1";
     FirebaseUser.email := Some (lit "ana@club.tn");
     FirebaseUser.displayName := None |}.

Definition inactiveJudge : JudgeDoc.t :=
  {| JudgeDoc.name := lit "Ana B";
     JudgeDoc.username := lit "ana";
     JudgeDoc.role := lit "admin";
     JudgeDoc.sector := Some (lit "C");
     JudgeDoc.status := lit "inactive" |}.

(** * Properties *)

(** ** Doubles

    Facts of [SpecFloat] at the binary64 format, then of the primitive
    floats through their specification. *)

Lemma digits2_size p : digits2_pos p = Pos.size p.
Proof. induction p; simpl; congruence. Qed.

Lemma digits_bounds p :
  2 ^ (Zpos (digits2_pos p) - 1) <= Zpos p < 2 ^ Zpos (digits2_pos p).
Proof.
  rewrite digits2_size. split.
  - pose proof (Pos.size_le p) as H.
    assert (H' : (2 ^ Pos.size p <= 2 * p)%positive) by exact H.
    apply Pos2Z.pos_le_pos in H'. rewrite Pos2Z.inj_mul, Pos2Z.inj_pow in H'.
    replace (Zpos (Pos.size p)) with (Z.succ (Zpos (Pos.size p) - 1)) in H' by lia.
    rewrite Z.pow_succ_r in H' by lia. lia.
  - pose proof (Pos.size_gt p) as H.
    apply Pos2Z.pos_lt_pos in H. rewrite Pos2Z.inj_pow in H. exact H.
Qed.

Lemma valid_finite s m e :
  valid_binary (S754_finite s m e) = true ->
  -1074 <= e <= 971 /\ Zpos m < 2 ^ 53 /\ (-1074 < e -> 2 ^ 52 <= Zpos m).
Proof.
  cbn [SpecFloat.valid_binary]. unfold bounded, canonical_mantissa, fexp, SpecFloat.emin.
  change prec with 53. change emax with 1024.
  rewrite andb_true_iff, Z.eqb_eq, Z.leb_le.
  intros [Hc He].
  pose proof (digits_bounds m) as [Hlo Hhi].
  set (d := Zpos (digits2_pos m)) in *.
  assert (Hd : d <= 53) by lia.
  split; [lia|]. split.
  - eapply Z.lt_le_trans; [exact Hhi|]. apply Z.pow_le_mono_r; lia.
  - intros Hgt. assert (d = 53) by lia. subst d. rewrite H in Hlo. exact Hlo.
Qed.

Lemma compare_cont_Eq (p q : positive) : Pos.compare_cont Eq p q = (Zpos p ?= Zpos q).
Proof. reflexivity. Qed.

Lemma SFcompare_ord (x y : spec_float) :
  valid_binary x = true -> valid_binary y = true ->
  SFnan x = false -> SFnan y = false ->
  SFcompare x y = Some (ord x ?= ord y).
Proof.
  intros Hx Hy Nx Ny.
  destruct x as [sx|sx| |sx mx ex]; try discriminate;
    destruct y as [sy|sy| |sy my ey]; try discriminate;
    try (apply valid_finite in Hx; destruct Hx as (Hex & Hmx & _));
    try (apply valid_finite in Hy; destruct Hy as (Hey & Hmy & _));
    cbn [SFcompare ord];
    try destruct sx; try destruct sy; f_equal; symmetry;
    try reflexivity;
    try (apply Z.compare_lt_iff; lia);
    try (apply Z.compare_gt_iff; lia).
  - (* both negative *)
    destruct (Z.compare_spec ex ey) as [->|Hlt|Hgt].
    + rewrite compare_cont_Eq.
      destruct (Z.compare_spec (Zpos mx) (Zpos my)) as [Heq|Hl|Hg]; cbn [CompOpp].
      * rewrite Heq. apply Z.compare_refl.
      * apply Z.compare_gt_iff. lia.
      * apply Z.compare_lt_iff. lia.
    + apply Z.compare_gt_iff. lia.
    + apply Z.compare_lt_iff. lia.
  - destruct (Z.compare_spec ex ey) as [->|Hlt|Hgt].
    + rewrite compare_cont_Eq.
      destruct (Z.compare_spec (Zpos mx) (Zpos my)) as [Heq|Hl|Hg].
      * rewrite Heq. apply Z.compare_refl.
      * apply Z.compare_lt_iff. lia.
      * apply Z.compare_gt_iff. lia.
    + apply Z.compare_lt_iff. lia.
    + apply Z.compare_gt_iff. lia.
Qed.

(** Rounding keeps the sign. *)

Lemma shr_1_m mrs : 0 <= shr_m mrs -> shr_m (shr_1 mrs) = shr_m mrs / 2.
Proof.
  destruct mrs as [m r s]. cbn [shr_m shr_1]. intros Hm.
  destruct m as [|p|p]; [reflexivity| |lia].
  destruct p as [p|p|]; cbn [shr_m].
  - rewrite Pos2Z.inj_xI. apply Z.div_unique with 1; lia.
  - rewrite Pos2Z.inj_xO. apply Z.div_unique with 0; lia.
  - reflexivity.
Qed.

Lemma pow2_xO n : 2 ^ Zpos n~0 = 2 ^ Zpos n * 2 ^ Zpos n.
Proof. rewrite <- Z.pow_add_r by lia. f_equal. lia. Qed.

Lemma pow2_xI n : 2 ^ Zpos n~1 = 2 * (2 ^ Zpos n * 2 ^ Zpos n).
Proof.
  rewrite <- Z.pow_add_r by lia.
  replace (Zpos n~1) with (Z.succ (Zpos n + Zpos n)) by lia.
  apply Z.pow_succ_r. lia.
Qed.

Lemma iter_shr_m n : forall mrs,
  0 <= shr_m mrs -> shr_m (SpecFloat.iter_pos shr_1 n mrs) = shr_m mrs / 2 ^ Zpos n.
Proof.
  assert (Hpos : forall k, 0 < 2 ^ Zpos k) by (intros; apply Z.pow_pos_nonneg; lia).
  assert (Hnonneg : forall a k, 0 <= a -> 0 <= a / 2 ^ Zpos k)
    by (intros; apply Z.div_pos; [lia | apply Hpos]).
  induction n as [n IH|n IH|]; intros mrs Hm; cbn [SpecFloat.iter_pos].
  - assert (H1 : 0 <= shr_m (shr_1 mrs))
      by (rewrite shr_1_m by exact Hm; apply Z.div_pos; lia).
    assert (H2 : 0 <= shr_m (SpecFloat.iter_pos shr_1 n (shr_1 mrs)))
      by (rewrite IH by exact H1; apply Hnonneg, H1).
    rewrite IH by exact H2. rewrite IH by exact H1. rewrite shr_1_m by exact Hm.
    pose proof (Hpos n).
    rewrite !Z.div_div by lia.
    rewrite pow2_xI. reflexivity.
  - assert (H2 : 0 <= shr_m (SpecFloat.iter_pos shr_1 n mrs))
      by (rewrite IH by exact Hm; apply Hnonneg, Hm).
    rewrite IH by exact H2. rewrite IH by exact Hm.
    pose proof (Hpos n).
    rewrite !Z.div_div by lia.
    rewrite pow2_xO. reflexivity.
  - rewrite shr_1_m by exact Hm. reflexivity.
Qed.

Lemma shr_record_of_loc_m m l : shr_m (shr_record_of_loc m l) = m.
Proof. destruct l as [|[]]; reflexivity. Qed.

Lemma shr_fexp_m m e l :
  0 <= m ->
  let n := fexp prec emax (Zdigits2 m + e) - e in
  (0 < n /\ shr_m (fst (shr_fexp prec emax m e l)) = m / 2 ^ n
         /\ snd (shr_fexp prec emax m e l) = e + n)
  \/ (n <= 0 /\ shr_m (fst (shr_fexp prec emax m e l)) = m
              /\ snd (shr_fexp prec emax m e l) = e).
Proof.
  intros Hm n. unfold shr_fexp. fold n.
  destruct n as [|p|p]; cbn [shr fst snd].
  - right. split; [lia|]. split; [apply shr_record_of_loc_m | reflexivity].
  - left. split; [lia|]. split; [|reflexivity].
    rewrite iter_shr_m, shr_record_of_loc_m; [reflexivity|].
    rewrite shr_record_of_loc_m. exact Hm.
  - right. split; [lia|]. split; [apply shr_record_of_loc_m | reflexivity].
Qed.

Lemma shr_fexp_nonneg m e l : 0 <= m -> 0 <= shr_m (fst (shr_fexp prec emax m e l)).
Proof.
  intros Hm.
  destruct (shr_fexp_m m e l Hm) as [(Hn & -> & _)|(_ & -> & _)]; [|exact Hm].
  apply Z.div_pos; [exact Hm | apply Z.pow_pos_nonneg; lia].
Qed.

Lemma round_nearest_even_ge m l : m <= round_nearest_even m l.
Proof. destruct l as [|[]]; cbn [round_nearest_even]; try destruct (Z.even m); lia. Qed.

Lemma binary_round_aux_signed s m e l :
  0 <= m -> signed s (binary_round_aux prec emax s m e l).
Proof.
  intros Hm. unfold binary_round_aux.
  pose proof (shr_fexp_nonneg m e l Hm) as H1.
  destruct (shr_fexp prec emax m e l) as [mrs1 e1]. cbn [fst] in H1.
  pose proof (round_nearest_even_ge (shr_m mrs1) (loc_of_shr_record mrs1)) as H2.
  set (m2 := round_nearest_even (shr_m mrs1) (loc_of_shr_record mrs1)) in *.
  pose proof (shr_fexp_nonneg m2 e1 loc_Exact ltac:(lia)) as H3.
  destruct (shr_fexp prec emax m2 e1 loc_Exact) as [mrs3 e3]. cbn [fst] in H3.
  destruct (shr_m mrs3) as [|p|p]; [reflexivity| |lia].
  destruct (_ <=? _); reflexivity.
Qed.

Lemma shr_fexp_pos m e l :
  0 < m -> -1074 <= e ->
  0 < shr_m (fst (shr_fexp prec emax m e l)) /\ -1074 <= snd (shr_fexp prec emax m e l).
Proof.
  intros Hm He.
  destruct (shr_fexp_m m e l ltac:(lia)) as [(Hn & -> & ->)|(_ & -> & ->)]; [|lia].
  cbv zeta in Hn.
  set (n := fexp prec emax (Zdigits2 m + e) - e) in *.
  destruct m as [|p|p]; try lia.
  pose proof (digits_bounds p) as [Hlo _].
  unfold fexp, SpecFloat.emin in n. change prec with 53 in n. change emax with 1024 in n.
  cbn [Zdigits2] in n.
  set (d := Zpos (digits2_pos p)) in *.
  assert (Hnd : n = d - 53) by lia.
  split; [|lia].
  apply Z.div_str_pos. split; [apply Z.pow_pos_nonneg; lia|].
  eapply Z.le_trans; [|exact Hlo]. apply Z.pow_le_mono_r; lia.
Qed.

Lemma binary_round_aux_strict s m e l :
  0 < m -> -1074 <= e -> strictly_signed s (binary_round_aux prec emax s m e l).
Proof.
  intros Hm He. unfold binary_round_aux.
  pose proof (shr_fexp_pos m e l Hm He) as [H1 E1].
  destruct (shr_fexp prec emax m e l) as [mrs1 e1]. cbn [fst snd] in H1, E1.
  pose proof (round_nearest_even_ge (shr_m mrs1) (loc_of_shr_record mrs1)) as H2.
  set (m2 := round_nearest_even (shr_m mrs1) (loc_of_shr_record mrs1)) in *.
  pose proof (shr_fexp_pos m2 e1 loc_Exact ltac:(lia) E1) as [H3 _].
  destruct (shr_fexp prec emax m2 e1 loc_Exact) as [mrs3 e3]. cbn [fst] in H3.
  destruct (shr_m mrs3) as [|p|p]; [lia| |lia].
  destruct (_ <=? _); reflexivity.
Qed.

Lemma iter_xO m d : Zpos (Pos.iter xO m d) = Zpos m * 2 ^ Zpos d.
Proof.
  induction d as [|d IH] using Pos.peano_ind.
  - cbn [Pos.iter]. rewrite Pos2Z.inj_xO. change (2 ^ 1) with 2. lia.
  - rewrite Pos.iter_succ, Pos2Z.inj_xO, IH, Pos2Z.inj_succ, Z.pow_succ_r by lia. lia.
Qed.

(** The mantissa of [shl_align], as an integer in units of [2 ^ e']. *)
Lemma shl_align_m m e e' :
  e' <= e -> Zpos (fst (shl_align m e e')) = Zpos m * 2 ^ (e - e')
             /\ snd (shl_align m e e') = e'.
Proof.
  intros He. unfold shl_align.
  destruct (e' - e) as [|p|p] eqn:Hd; cbn [fst snd].
  - assert (e = e') by lia. subst. rewrite Z.sub_diag. cbn. lia.
  - lia.
  - rewrite iter_xO. replace (e - e') with (Zpos p) by lia. split; reflexivity.
Qed.

Lemma binary_normalize_sign z e szero :
  -1074 <= e ->
  match z with
  | Z0 => binary_normalize prec emax z e szero = S754_zero szero
  | Zpos _ => strictly_signed false (binary_normalize prec emax z e szero)
  | Zneg _ => strictly_signed true (binary_normalize prec emax z e szero)
  end.
Proof.
  intros He.
  assert (H : forall s m, strictly_signed s (binary_round prec emax s m e)).
  { intros s m. unfold binary_round.
    set (e' := fexp prec emax (Zpos (digits2_pos m) + e)).
    assert (He' : -1074 <= e').
    { unfold e', fexp, SpecFloat.emin. change prec with 53. change emax with 1024. lia. }
    unfold shl_align.
    destruct (e' - e) as [|p|p] eqn:Hd;
      apply binary_round_aux_strict; lia. }
  destruct z; cbn [binary_normalize]; [reflexivity | apply H | apply H].
Qed.

Lemma aligned_compare sx mx ex sy my ey :
  valid_binary (S754_finite sx mx ex) = true ->
  valid_binary (S754_finite sy my ey) = true ->
  (aligned sx mx ex (Z.min ex ey) ?= aligned sy my ey (Z.min ex ey))
  = (ord (S754_finite sx mx ex) ?= ord (S754_finite sy my ey)).
Proof.
  intros Hx Hy.
  apply valid_finite in Hx. destruct Hx as (Hex & Hmx & Hnx).
  apply valid_finite in Hy. destruct Hy as (Hey & Hmy & Hny).
  unfold aligned.
  destruct (shl_align_m mx ex (Z.min ex ey) ltac:(lia)) as [-> _].
  destruct (shl_align_m my ey (Z.min ex ey) ltac:(lia)) as [-> _].
  cbn [ord].
  assert (Hpow : forall k, 1 <= k -> 2 <= 2 ^ k).
  { intros k Hk. change 2 with (2 ^ 1) at 1. apply Z.pow_le_mono_r; lia. }
  destruct (Z.lt_trichotomy ex ey) as [Hlt|[Heq|Hgt]].
  - rewrite Z.min_l by lia. rewrite Z.sub_diag, Z.mul_1_r.
    assert (Hbig : 2 ^ 53 <= Zpos my * 2 ^ (ey - ex)).
    { specialize (Hny ltac:(lia)). specialize (Hpow (ey - ex) ltac:(lia)).
      change (2 ^ 53) with (2 ^ 52 * 2). apply Z.mul_le_mono_nonneg; lia. }
    destruct sx, sy; cbn [cond_Zopp];
      match goal with
      | |- (?a ?= ?b) = _ =>
          destruct (Z.compare_spec a b) as [Hc|Hc|Hc]; symmetry;
          [apply Z.compare_eq_iff | apply Z.compare_lt_iff | apply Z.compare_gt_iff]; lia
      end.
  - subst ey. rewrite Z.min_id, Z.sub_diag, !Z.mul_1_r.
    destruct sx, sy; cbn [cond_Zopp];
      match goal with
      | |- (?a ?= ?b) = _ =>
          destruct (Z.compare_spec a b) as [Hc|Hc|Hc]; symmetry;
          [apply Z.compare_eq_iff | apply Z.compare_lt_iff | apply Z.compare_gt_iff]; lia
      end.
  - rewrite Z.min_r by lia. rewrite Z.sub_diag, Z.mul_1_r.
    assert (Hbig : 2 ^ 53 <= Zpos mx * 2 ^ (ex - ey)).
    { specialize (Hnx ltac:(lia)). specialize (Hpow (ex - ey) ltac:(lia)).
      change (2 ^ 53) with (2 ^ 52 * 2). apply Z.mul_le_mono_nonneg; lia. }
    destruct sx, sy; cbn [cond_Zopp];
      match goal with
      | |- (?a ?= ?b) = _ =>
          destruct (Z.compare_spec a b) as [Hc|Hc|Hc]; symmetry;
          [apply Z.compare_eq_iff | apply Z.compare_lt_iff | apply Z.compare_gt_iff]; lia
      end.
Qed.

(** The sign of a difference is the order of its operands. *)
Lemma SFsub_sign (x y : spec_float) :
  valid_binary x = true -> valid_binary y = true ->
  SFnan x = false -> SFnan y = false ->
  match ord x ?= ord y with
  | Lt => strictly_signed true (SF64sub x y)
  | Gt => strictly_signed false (SF64sub x y)
  | Eq => match SF64sub x y with
          | S754_zero _ | S754_nan => True
          | _ => False
          end
  end.
Proof.
  intros Hx Hy Nx Ny.
  destruct x as [sx|sx| |sx mx ex]; try discriminate;
    destruct y as [sy|sy| |sy my ey]; try discriminate.
  all: try (destruct sx, sy; cbn; exact I || reflexivity).
  all: try (apply valid_finite in Hy as Hy'; destruct Hy' as (Hey & Hmy & _)).
  all: try (apply valid_finite in Hx as Hx'; destruct Hx' as (Hex & Hmx & _)).
  - (* zero, finite *)
    cbn [ord SF64sub SFsub].
    destruct sy; [replace (0 ?= _) with Gt | replace (0 ?= _) with Lt]; try reflexivity;
      symmetry; [apply Z.compare_gt_iff | apply Z.compare_lt_iff]; lia.
  - (* infinity, finite *)
    cbn [ord SF64sub SFsub].
    destruct sx, sy;
      match goal with
      | |- match ?a ?= ?b with _ => _ end =>
          destruct (Z.compare_spec a b) as [H|H|H]; try reflexivity; exfalso; lia
      end.
  - (* finite, zero *)
    cbn [ord SF64sub SFsub].
    destruct sx;
      match goal with
      | |- match ?a ?= ?b with _ => _ end =>
          destruct (Z.compare_spec a b) as [H|H|H]; try reflexivity; exfalso; lia
      end.
  - (* finite, infinity *)
    cbn [ord SF64sub SFsub].
    destruct sx, sy;
      match goal with
      | |- match ?a ?= ?b with _ => _ end =>
          destruct (Z.compare_spec a b) as [H|H|H]; try reflexivity; exfalso; lia
      end.
  - (* finite, finite *)
    rewrite <- (aligned_compare sx mx ex sy my ey Hx Hy).
    unfold SF64sub, SFsub. fold (aligned sx mx ex (Z.min ex ey)).
    fold (aligned sy my ey (Z.min ex ey)).
    set (X := aligned sx mx ex (Z.min ex ey)). set (Y := aligned sy my ey (Z.min ex ey)).
    pose proof (binary_normalize_sign (X - Y) (Z.min ex ey) false ltac:(lia)) as Hs.
    destruct (Z.compare_spec X Y) as [H|H|H].
    + replace (X - Y) with 0 in * by lia. rewrite Hs. exact I.
    + destruct (X - Y) eqn:E; try lia. exact Hs.
    + destruct (X - Y) eqn:E; try lia. exact Hs.
Qed.

(** *** Primitive floats *)

Lemma SFcompare_refl x : SFnan x = false -> SFcompare x x = Some Eq.
Proof.
  destruct x as [[]|[]| |[] m e]; try discriminate; intros _; cbn [SFcompare];
    try reflexivity; rewrite Z.compare_refl, compare_cont_Eq, Z.compare_refl; reflexivity.
Qed.

Lemma is_nan_spec x : is_nan x = SFnan (Prim2SF x).
Proof.
  unfold is_nan. rewrite FloatAxioms.eqb_spec. unfold SFeqb.
  destruct (SFnan (Prim2SF x)) eqn:E.
  - destruct (Prim2SF x); try discriminate. reflexivity.
  - rewrite (SFcompare_refl _ E). reflexivity.
Qed.

Lemma compare_key x y :
  a_number x -> a_number y ->
  SFcompare (Prim2SF x) (Prim2SF y) = Some (key x ?= key y).
Proof.
  unfold a_number. rewrite !is_nan_spec. intros Hx Hy.
  apply SFcompare_ord; auto using Prim2SF_valid.
Qed.

Lemma compare_nan x y :
  is_nan x = true \/ is_nan y = true -> SFcompare (Prim2SF x) (Prim2SF y) = None.
Proof.
  rewrite !is_nan_spec. intros [H|H].
  - destruct (Prim2SF x); try discriminate. reflexivity.
  - destruct (Prim2SF y); try discriminate. destruct (Prim2SF x); reflexivity.
Qed.

Lemma ltb_key x y : a_number x -> a_number y -> (x <? y)%float = (key x <? key y).
Proof.
  intros Hx Hy. rewrite FloatAxioms.ltb_spec. unfold SFltb. rewrite (compare_key x y Hx Hy).
  unfold Z.ltb. destruct (key x ?= key y); reflexivity.
Qed.

Lemma eqb_key x y : a_number x -> a_number y -> (x =? y)%float = (key x =? key y).
Proof.
  intros Hx Hy. rewrite FloatAxioms.eqb_spec. unfold SFeqb. rewrite (compare_key x y Hx Hy).
  destruct (key x ?= key y) eqn:E; symmetry.
  - apply Z.eqb_eq, Z.compare_eq_iff, E.
  - change (key x < key y) in E. apply Z.eqb_neq. lia.
  - change (key x > key y) in E. apply Z.eqb_neq. lia.
Qed.

Lemma leb_key x y : a_number x -> a_number y -> (x <=? y)%float = (key x <=? key y).
Proof.
  intros Hx Hy. rewrite FloatAxioms.leb_spec. unfold SFleb. rewrite (compare_key x y Hx Hy).
  unfold Z.leb. destruct (key x ?= key y); reflexivity.
Qed.

Lemma is_nan_cases x : a_number x \/ is_nan x = true.
Proof. unfold a_number. destruct (is_nan x); auto. Qed.

Lemma ltb_numbers x y : (x <? y)%float = true -> a_number x /\ a_number y.
Proof.
  rewrite FloatAxioms.ltb_spec. unfold SFltb. intros H.
  destruct (is_nan_cases x) as [Hx|Hx]; [|rewrite compare_nan in H by auto; discriminate].
  destruct (is_nan_cases y) as [Hy|Hy]; [|rewrite compare_nan in H by auto; discriminate].
  split; assumption.
Qed.

Lemma eqb_numbers x y : (x =? y)%float = true -> a_number x /\ a_number y.
Proof.
  rewrite FloatAxioms.eqb_spec. unfold SFeqb. intros H.
  destruct (is_nan_cases x) as [Hx|Hx]; [|rewrite compare_nan in H by auto; discriminate].
  destruct (is_nan_cases y) as [Hy|Hy]; [|rewrite compare_nan in H by auto; discriminate].
  split; assumption.
Qed.

Lemma leb_numbers x y : (x <=? y)%float = true -> a_number x /\ a_number y.
Proof.
  rewrite FloatAxioms.leb_spec. unfold SFleb. intros H.
  destruct (is_nan_cases x) as [Hx|Hx]; [|rewrite compare_nan in H by auto; discriminate].
  destruct (is_nan_cases y) as [Hy|Hy]; [|rewrite compare_nan in H by auto; discriminate].
  split; assumption.
Qed.

Lemma key_zero : key 0 = 0.
Proof. reflexivity. Qed.

Lemma zero_number : a_number 0.
Proof. reflexivity. Qed.

(** The two filters of the general stage exclude each other. *)
Lemma positive_not_zero x : (0 <? x)%float = true -> (x =? 0)%float = false.
Proof.
  intros H. destruct (ltb_numbers _ _ H) as [_ Hx].
  rewrite (ltb_key 0 x zero_number Hx) in H. rewrite (eqb_key x 0 Hx zero_number).
  rewrite key_zero in *. apply Z.ltb_lt in H. apply Z.eqb_neq. lia.
Qed.

(** The sign of a difference of two numbers is their order. *)
Lemma sub_sign x y :
  a_number x -> a_number y ->
  (0 <? x - y)%float = (y <? x)%float /\ (x - y <? 0)%float = (x <? y)%float.
Proof.
  intros Hx Hy.
  rewrite (ltb_key y x Hy Hx), (ltb_key x y Hx Hy).
  rewrite !FloatAxioms.ltb_spec, FloatAxioms.sub_spec.
  pose proof (SFsub_sign (Prim2SF x) (Prim2SF y) (Prim2SF_valid x) (Prim2SF_valid y)) as H.
  unfold a_number in Hx, Hy. rewrite is_nan_spec in Hx, Hy.
  specialize (H Hx Hy). fold (key x) (key y) in H.
  change (Prim2SF 0) with (S754_zero false).
  unfold Z.ltb. rewrite (Z.compare_antisym (key x) (key y)).
  destruct (key x ?= key y); cbn [CompOpp];
    destruct (SF64sub (Prim2SF x) (Prim2SF y)) as [s|s| |s m e];
    cbn [strictly_signed] in H; try contradiction; try subst s; split; reflexivity.
Qed.

Lemma signed_nonneg r : signed false r -> SFnonneg r.
Proof. destruct r; cbn; auto. Qed.

Lemma nonneg_spec x : nonneg x <-> SFnonneg (Prim2SF x).
Proof.
  unfold nonneg. rewrite FloatAxioms.leb_spec. change (Prim2SF 0) with (S754_zero false).
  unfold SFleb. destruct (Prim2SF x) as [s|[]| |[] m e]; cbn; intuition discriminate.
Qed.

Lemma positive_spec x :
  (0 <? x)%float = true <-> strictly_signed false (Prim2SF x).
Proof.
  rewrite FloatAxioms.ltb_spec. change (Prim2SF 0) with (S754_zero false).
  unfold SFltb. destruct (Prim2SF x) as [s|[]| |[] m e]; cbn; intuition discriminate.
Qed.

Lemma zero_spec x : (x =? 0)%float = true <-> exists s, Prim2SF x = S754_zero s.
Proof.
  rewrite FloatAxioms.eqb_spec. change (Prim2SF 0) with (S754_zero false).
  unfold SFeqb. destruct (Prim2SF x) as [s|[]| |[] m e]; cbn; split;
    try discriminate; try (intros [s' [=]]); eauto.
Qed.

Lemma binary_normalize_nonneg z e :
  0 <= z -> SFnonneg (binary_normalize prec emax z e false).
Proof.
  intros Hz. destruct z as [|m|m]; [exact I| |lia].
  cbn [binary_normalize]. unfold binary_round.
  destruct (shl_align m e _) as [mz ez].
  apply signed_nonneg, binary_round_aux_signed. lia.
Qed.

Lemma SFadd_nonneg x y : SFnonneg x -> SFnonneg y -> SFnonneg (SF64add x y).
Proof.
  destruct x as [sx|sx| |sx mx ex]; destruct y as [sy|sy| |sy my ey];
    cbn [SFnonneg]; intros Hx Hy; try contradiction; subst;
    unfold SF64add; cbn [SFadd SFnonneg]; try reflexivity; try exact I.
  - destruct sx, sy; exact I.
  - apply binary_normalize_nonneg. cbn [cond_Zopp]. lia.
Qed.

Lemma SFmul_nonneg x y :
  SFnonneg x -> SFnonneg y -> SFnonneg (SF64mul x y) \/ SF64mul x y = S754_nan.
Proof.
  destruct x as [sx|sx| |sx mx ex]; destruct y as [sy|sy| |sy my ey];
    cbn [SFnonneg]; intros Hx Hy; try contradiction; subst;
    unfold SF64mul; cbn [SFmul SFnonneg xorb]; auto.
  left. apply signed_nonneg, binary_round_aux_signed. lia.
Qed.

Lemma SFdiv_nonneg x y :
  SFnonneg x -> strictly_signed false y ->
  SFnonneg (SF64div x y) \/ SF64div x y = S754_nan.
Proof.
  destruct x as [sx|sx| |sx mx ex]; destruct y as [sy|sy| |sy my ey];
    cbn [SFnonneg strictly_signed]; intros Hx Hy; try contradiction; subst;
    unfold SF64div; cbn [SFdiv SFnonneg xorb]; auto.
  left. unfold SFdiv_core_binary.
  set (m' := match _ with Zpos _ => _ | Z0 => _ | Zneg _ => _ end).
  assert (Hm' : 0 <= m').
  { unfold m'. destruct (_ - _ - _) as [|p|p]; try lia.
    apply Z.shiftl_nonneg. lia. }
  pose proof (Z.div_pos m' (Zpos my) Hm' ltac:(lia)) as Hq.
  unfold Z.div in Hq. destruct (Z.div_eucl m' (Zpos my)) as [q r]. cbn [fst] in Hq.
  apply signed_nonneg, binary_round_aux_signed. exact Hq.
Qed.

Lemma number_spec x : a_number x <-> Prim2SF x <> S754_nan.
Proof.
  unfold a_number. rewrite is_nan_spec.
  destruct (Prim2SF x); cbn; intuition congruence.
Qed.

Lemma add_nonneg x y : nonneg x -> nonneg y -> nonneg (x + y).
Proof. rewrite !nonneg_spec, FloatAxioms.add_spec. apply SFadd_nonneg. Qed.

Lemma mul_nonneg x y : nonneg x -> nonneg y -> a_number (x * y) -> nonneg (x * y).
Proof.
  rewrite !nonneg_spec, number_spec, FloatAxioms.mul_spec. intros Hx Hy Hn.
  destruct (SFmul_nonneg _ _ Hx Hy); [assumption|contradiction].
Qed.

Lemma div_nonneg x t :
  nonneg x -> (0 <? t)%float = true -> a_number (x / t) -> nonneg (x / t).
Proof.
  rewrite !nonneg_spec, positive_spec, number_spec, FloatAxioms.div_spec. intros Hx Ht Hn.
  destruct (SFdiv_nonneg _ _ Hx Ht); [assumption|contradiction].
Qed.

Lemma nonneg_number x : nonneg x -> a_number x.
Proof. intros H. apply (leb_numbers 0 x H). Qed.

Lemma nonneg_tests x : nonneg x -> ((x =? 0) || (0 <? x))%float = true.
Proof.
  intros H. pose proof (nonneg_number x H) as Hx. unfold nonneg in H.
  rewrite (leb_key 0 x zero_number Hx) in H.
  rewrite (eqb_key x 0 Hx zero_number), (ltb_key 0 x zero_number Hx), key_zero in *.
  apply Z.leb_le in H. apply orb_true_iff.
  destruct (Z.eq_dec (key x) 0) as [E|E]; [left; apply Z.eqb_eq, E | right; apply Z.ltb_lt; lia].
Qed.

Lemma tests_nonneg x : ((x =? 0) || (0 <? x))%float = true -> nonneg x.
Proof.
  intros H. apply orb_true_iff in H. apply nonneg_spec.
  destruct H as [H|H].
  - apply zero_spec in H as [s ->]. exact I.
  - apply positive_spec in H. destruct (Prim2SF x); cbn in *; auto.
Qed.

(** Zero divided by a positive number is zero. *)
Lemma zero_div t : (0 <? t)%float = true -> (0 / t = 0)%float.
Proof.
  intros Ht. apply positive_spec in Ht. apply Prim2SF_inj. rewrite FloatAxioms.div_spec.
  change (Prim2SF 0) with (S754_zero false).
  destruct (Prim2SF t) as [s|s| |s m e]; cbn in Ht; try contradiction; subst; reflexivity.
Qed.

Lemma is_finite_spec x :
  is_finite x = true <->
  match Prim2SF x with S754_zero _ | S754_finite _ _ _ => True | _ => False end.
Proof.
  unfold is_finite, is_infinity. rewrite is_nan_spec, FloatAxioms.eqb_spec, FloatAxioms.abs_spec.
  change (Prim2SF infinity) with (S754_infinity false).
  destruct (Prim2SF x) as [s|s| |s m e]; cbn; intuition discriminate.
Qed.

(** A finite number times zero, over a positive number, is zero. *)
Lemma finite_times_zero p f t :
  is_finite p = true -> (f =? 0)%float = true -> (0 <? t)%float = true ->
  (p * f / t =? 0)%float = true.
Proof.
  rewrite is_finite_spec, positive_spec. intros Hp Hf Ht.
  apply zero_spec in Hf as [sf Hf]. apply zero_spec.
  rewrite FloatAxioms.div_spec, FloatAxioms.mul_spec, Hf.
  destruct (Prim2SF p) as [sp|sp| |sp mp ep]; try contradiction;
    destruct (Prim2SF t) as [st|st| |st mt et]; cbn in Ht; try contradiction; subst;
    cbn; eauto.
Qed.


(** ** Stable sorts *)

Section SortFacts.
Context {A N : Type} `{Compared N} (cmp : A -> A -> N).

Lemma sort_insert_perm x l : Permutation (sort_insert cmp x l) (x :: l).
Proof.
  induction l as [|y l IH]; simpl; [reflexivity|].
  destruct (above_zero (cmp x y)); [|reflexivity].
  rewrite IH. apply perm_swap.
Qed.

Lemma js_sort_perm l : Permutation (js_sort cmp l) l.
Proof.
  induction l as [|x l IH]; simpl; [reflexivity|].
  rewrite sort_insert_perm. now constructor.
Qed.

Lemma js_sort_length l : length (js_sort cmp l) = length l.
Proof. apply Permutation_length, js_sort_perm. Qed.

Variable P : A -> Prop.
Hypothesis Hcmp : consistent cmp P.

Lemma tie_true a b :
  P a -> P b -> (tie cmp a b = true <-> before cmp a b /\ before cmp b a).
Proof. apply (consistent_tie cmp P Hcmp). Qed.

Lemma before_total a b : P a -> P b -> ~ before cmp a b -> before cmp b a.
Proof. intros Pa Pb. destruct (consistent_total cmp P Hcmp a b Pa Pb); tauto. Qed.

Lemma before_refl a : P a -> before cmp a a.
Proof. intros Pa. destruct (consistent_total cmp P Hcmp a a Pa Pa); assumption. Qed.

Lemma before_trans a b c :
  P a -> P b -> P c -> before cmp a b -> before cmp b c -> before cmp a c.
Proof. apply (consistent_trans cmp P Hcmp). Qed.

Lemma sort_insert_sorted x l :
  P x -> List.Forall P l ->
  StronglySorted (before cmp) l -> StronglySorted (before cmp) (sort_insert cmp x l).
Proof.
  intros Px Pl Hs. induction Hs as [|y l Hl IH Hy]; simpl.
  - repeat constructor.
  - apply List.Forall_cons_iff in Pl as [Py Pl].
    destruct (above_zero (cmp x y)) eqn:E.
    + assert (Hyx : before cmp y x).
      { apply before_total; [exact Px | exact Py |]. unfold before. congruence. }
      constructor; [apply IH, Pl|].
      eapply Permutation_Forall; [symmetry; apply sort_insert_perm|].
      constructor; assumption.
    + constructor; [constructor; assumption|].
      constructor; [exact E|].
      rewrite List.Forall_forall in *. intros z Hz.
      apply before_trans with y; auto.
Qed.

Lemma js_sort_Forall l : List.Forall P l -> List.Forall P (js_sort cmp l).
Proof. intros Pl. eapply Permutation_Forall; [symmetry; apply js_sort_perm | exact Pl]. Qed.

Lemma js_sort_sorted l : List.Forall P l -> StronglySorted (before cmp) (js_sort cmp l).
Proof.
  induction l as [|x l IH]; intros Pl; simpl; [constructor|].
  apply List.Forall_cons_iff in Pl as [Px Pl].
  apply sort_insert_sorted; [exact Px | apply js_sort_Forall, Pl | apply IH, Pl].
Qed.

Lemma sort_insert_stable z x l :
  P z -> P x -> List.Forall P l ->
  List.filter (tie cmp z) (sort_insert cmp x l) = List.filter (tie cmp z) (x :: l).
Proof.
  intros Pz Px Pl. induction l as [|y l IH]; [reflexivity|].
  apply List.Forall_cons_iff in Pl as [Py Pl]. specialize (IH Pl).
  cbn [sort_insert]. destruct (above_zero (cmp x y)) eqn:E; [|reflexivity].
  cbn [List.filter] in *. rewrite IH.
  destruct (tie cmp z x) eqn:Ex, (tie cmp z y) eqn:Ey; try reflexivity.
  apply tie_true in Ex, Ey; try assumption. destruct Ex as [_ Hxz], Ey as [Hzy _].
  assert (Hxy : before cmp x y) by (apply before_trans with z; assumption).
  unfold before in Hxy. congruence.
Qed.

Lemma js_sort_stable z l :
  P z -> List.Forall P l ->
  List.filter (tie cmp z) (js_sort cmp l) = List.filter (tie cmp z) l.
Proof.
  intros Pz. induction l as [|x l IH]; intros Pl; [reflexivity|].
  apply List.Forall_cons_iff in Pl as [Px Pl].
  cbn [js_sort fold_right]. fold (js_sort cmp l).
  rewrite sort_insert_stable by (try assumption; apply js_sort_Forall, Pl).
  cbn [List.filter]. now rewrite (IH Pl).
Qed.

Lemma js_sort_stable_sort l : List.Forall P l -> stable_sort_of cmp P l (js_sort cmp l).
Proof.
  intros Pl. split; [apply js_sort_perm | apply js_sort_sorted, Pl |].
  intros x Px. apply js_sort_stable; assumption.
Qed.

(** Two sorted lists with the same elements and the same order inside
    every class of ties are the same list. *)
Lemma sorted_stable_unique l1 : forall l2,
  List.Forall P l1 ->
  StronglySorted (before cmp) l1 -> StronglySorted (before cmp) l2 ->
  Permutation l1 l2 ->
  (forall x, P x -> List.filter (tie cmp x) l1 = List.filter (tie cmp x) l2) ->
  l1 = l2.
Proof.
  induction l1 as [|a l1 IH]; intros l2 Pl S1 S2 Perm F.
  - apply Permutation_nil in Perm. now subst.
  - destruct l2 as [|b l2].
    { symmetry in Perm. now apply Permutation_nil in Perm. }
    apply List.Forall_cons_iff in Pl as [Pa Pl].
    assert (Pb : P b).
    { assert (Hin : In b (a :: l1))
        by (eapply Permutation_in; [symmetry; exact Perm | now left]).
      destruct Hin as [->|Hin]; [exact Pa|].
      rewrite List.Forall_forall in Pl. apply Pl, Hin. }
    apply StronglySorted_inv in S1 as [S1 Ha], S2 as [S2 Hb].
    rewrite List.Forall_forall in Ha, Hb.
    assert (Hab : before cmp a b).
    { assert (In b (a :: l1)) as [->|Hin]
        by (eapply Permutation_in; [symmetry; exact Perm | now left]).
      - apply before_refl, Pb.
      - now apply Ha. }
    assert (Hba : before cmp b a).
    { assert (In a (b :: l2)) as [->|Hin]
        by (eapply Permutation_in; [exact Perm | now left]).
      - apply before_refl, Pa.
      - now apply Hb. }
    assert (Haa : tie cmp a a = true).
    { apply tie_true; try assumption. split; apply before_refl, Pa. }
    assert (Hab' : tie cmp a b = true) by (apply tie_true; try assumption; now split).
    pose proof (F a Pa) as Fa. cbn [List.filter] in Fa. rewrite Haa, Hab' in Fa.
    injection Fa as <- _.
    f_equal. apply IH; try assumption.
    + now apply Permutation_cons_inv in Perm.
    + intros x Px. specialize (F x Px). cbn [List.filter] in F.
      destruct (tie cmp x a); [now injection F|exact F].
Qed.

Lemma stable_sort_unique l l1 l2 :
  List.Forall P l ->
  stable_sort_of cmp P l l1 -> stable_sort_of cmp P l l2 -> l1 = l2.
Proof.
  intros Pl [P1 S1 F1] [P2 S2 F2].
  apply sorted_stable_unique; try assumption.
  - eapply Permutation_Forall; [symmetry; exact P1 | exact Pl].
  - now rewrite P1, P2.
  - intros x Px. now rewrite F1, F2.
Qed.
End SortFacts.

(** ** The comparators of the memo *)

Lemma pair_ltb_false (p q : Z * Z) :
  pair_ltb p q = false <-> fst q < fst p \/ (fst q = fst p /\ snd q <= snd p).
Proof.
  unfold pair_ltb. rewrite orb_false_iff, andb_false_iff, Z.ltb_ge, Z.eqb_neq, Z.ltb_ge. lia.
Qed.

(** A comparator that reads an order of integer pairs is consistent. *)
Lemma keyed_consistent {A N} `{Compared N} (cmp : A -> A -> N) (P : A -> Prop)
  (K : A -> Z * Z) :
  (forall a b, P a -> P b -> above_zero (cmp a b) = pair_ltb (K a) (K b)) ->
  (forall a b, P a -> P b -> below_zero (cmp a b) = pair_ltb (K b) (K a)) ->
  consistent cmp P.
Proof.
  intros Habove Hbelow. split; unfold before, tie.
  - intros a b Pa Pb. rewrite (Habove a b Pa Pb), (Habove b a Pb Pa), !pair_ltb_false. lia.
  - intros a b c Pa Pb Pc.
    rewrite (Habove a b Pa Pb), (Habove b c Pb Pc), (Habove a c Pa Pc), !pair_ltb_false. lia.
  - intros a b Pa Pb.
    rewrite andb_true_iff, !negb_true_iff.
    rewrite (Habove a b Pa Pb), (Hbelow a b Pa Pb), (Habove b a Pb Pa), !pair_ltb_false. lia.
Qed.

Lemma byPoints_keyed a b :
  a_number (Chip.points a) -> a_number (Chip.points b) ->
  above_zero (byPoints a b) = (key (Chip.points a) <? key (Chip.points b)) /\
  below_zero (byPoints a b) = (key (Chip.points b) <? key (Chip.points a)).
Proof.
  intros Ha Hb. unfold byPoints. cbn [above_zero below_zero Compared_float].
  destruct (sub_sign (Chip.points b) (Chip.points a) Hb Ha) as [-> ->].
  rewrite (ltb_key _ _ Ha Hb), (ltb_key _ _ Hb Ha). split; reflexivity.
Qed.

Lemma byPoints_consistent :
  consistent byPoints (fun c => a_number (Chip.points c)).
Proof.
  apply (keyed_consistent byPoints _ (fun c => (key (Chip.points c), 0))).
  - intros a b Ha Hb. rewrite (proj1 (byPoints_keyed a b Ha Hb)).
    unfold pair_ltb. cbn [fst snd]. rewrite andb_false_r, orb_false_r. reflexivity.
  - intros a b Ha Hb. rewrite (proj2 (byPoints_keyed a b Ha Hb)).
    unfold pair_ltb. cbn [fst snd]. rewrite andb_false_r, orb_false_r. reflexivity.
Qed.

(** On numbers, [before byPoints a b] says that [a] has at least the points
    of [b], and a tie that the points are equal. *)
Lemma byPoints_before a b :
  a_number (Chip.points a) -> a_number (Chip.points b) ->
  (before byPoints a b <-> (Chip.points b <=? Chip.points a)%float = true) /\
  (tie byPoints a b = true <-> (Chip.points a =? Chip.points b)%float = true).
Proof.
  intros Ha Hb. unfold before, tie.
  destruct (byPoints_keyed a b Ha Hb) as [-> ->].
  rewrite (leb_key _ _ Hb Ha), (eqb_key _ _ Ha Hb).
  rewrite andb_true_iff, !negb_true_iff, !Z.ltb_ge, Z.leb_le, Z.eqb_eq. lia.
Qed.

Lemma byCoefficient_keyed a b :
  scored a -> scored b ->
  above_zero (byCoefficient a b)
  = pair_ltb (key (Chip.coefficient a), key (Chip.biggestCatch a))
             (key (Chip.coefficient b), key (Chip.biggestCatch b)) /\
  below_zero (byCoefficient a b)
  = pair_ltb (key (Chip.coefficient b), key (Chip.biggestCatch b))
             (key (Chip.coefficient a), key (Chip.biggestCatch a)).
Proof.
  intros [Hca Hba] [Hcb Hbb]. unfold byCoefficient, pair_ltb. cbn [fst snd].
  rewrite (eqb_key _ _ Hcb Hca).
  destruct (Z.eqb_spec (key (Chip.coefficient b)) (key (Chip.coefficient a))) as [E|E];
    cbn [negb above_zero below_zero Compared_float].
  - destruct (sub_sign (Chip.biggestCatch b) (Chip.biggestCatch a) Hbb Hba) as [-> ->].
    rewrite (ltb_key _ _ Hba Hbb), (ltb_key _ _ Hbb Hba), E.
    rewrite Z.ltb_irrefl, Z.eqb_refl. split; reflexivity.
  - destruct (sub_sign (Chip.coefficient b) (Chip.coefficient a) Hcb Hca) as [-> ->].
    rewrite (ltb_key _ _ Hca Hcb), (ltb_key _ _ Hcb Hca).
    destruct (Z.eqb_spec (key (Chip.coefficient a)) (key (Chip.coefficient b)));
      [congruence|].
    destruct (Z.eqb_spec (key (Chip.coefficient b)) (key (Chip.coefficient a)));
      [congruence|].
    cbn [andb]. rewrite !orb_false_r. split; reflexivity.
Qed.

Lemma byCoefficient_consistent : consistent byCoefficient scored.
Proof.
  apply (keyed_consistent byCoefficient scored
           (fun c => (key (Chip.coefficient c), key (Chip.biggestCatch c)))).
  - intros a b Ha Hb. apply (byCoefficient_keyed a b Ha Hb).
  - intros a b Ha Hb. apply (byCoefficient_keyed a b Ha Hb).
Qed.

(** On numbers, [before byCoefficient a b] says: the coefficient of [a] is
    larger, or the coefficients are equal and the biggest catch of [a] is
    not smaller. *)
Lemma byCoefficient_before a b :
  scored a -> scored b ->
  (before byCoefficient a b <->
   (Chip.coefficient b <? Chip.coefficient a)%float = true \/
   ((Chip.coefficient b =? Chip.coefficient a)%float = true /\
    (Chip.biggestCatch b <=? Chip.biggestCatch a)%float = true)).
Proof.
  intros Ha Hb. unfold before.
  rewrite (proj1 (byCoefficient_keyed a b Ha Hb)), pair_ltb_false. cbn [fst snd].
  destruct Ha as [Hca Hba], Hb as [Hcb Hbb].
  rewrite (ltb_key _ _ Hcb Hca), (eqb_key _ _ Hcb Hca), (leb_key _ _ Hbb Hba).
  rewrite Z.ltb_lt, Z.eqb_eq, Z.leb_le. reflexivity.
Qed.

Lemma byBoxNumber_consistent : consistent byBoxNumber (fun _ => True).
Proof.
  apply (keyed_consistent byBoxNumber _ (fun c => (- Chip.boxNumber c, 0)));
    intros a b _ _; unfold byBoxNumber, pair_ltb;
    cbn [above_zero below_zero Compared_Z fst snd];
    rewrite andb_false_r, orb_false_r; apply eq_iff_eq_true; rewrite !Z.ltb_lt; lia.
Qed.

Lemma byBoxNumber_before a b :
  (before byBoxNumber a b <-> Chip.boxNumber a <= Chip.boxNumber b) /\
  (tie byBoxNumber a b = true <-> Chip.boxNumber a = Chip.boxNumber b).
Proof.
  unfold before, tie, byBoxNumber. cbn [above_zero below_zero Compared_Z].
  rewrite andb_true_iff, !negb_true_iff, !Z.ltb_ge. lia.
Qed.

Lemma byHour_consistent : consistent byHour (fun _ => True).
Proof.
  apply (keyed_consistent byHour _ (fun e => (- hourOf e, 0)));
    intros a b _ _; unfold byHour, pair_ltb;
    cbn [above_zero below_zero Compared_Z fst snd];
    rewrite andb_false_r, orb_false_r; apply eq_iff_eq_true; rewrite !Z.ltb_lt; lia.
Qed.

Lemma byHour_before a b :
  (before byHour a b <-> hourOf a <= hourOf b) /\
  (tie byHour a b = true <-> hourOf a = hourOf b).
Proof.
  unfold before, tie, byHour. cbn [above_zero below_zero Compared_Z].
  rewrite andb_true_iff, !negb_true_iff, !Z.ltb_ge. lia.
Qed.
(** ** Loops as list functions *)

Section Loops.
Context {A B : Type}.

Lemma fold_left_push_all (g : B -> list A) (l : list B) (init : list A) :
  fold_left (fun acc x => acc ++ g x) l init = init ++ flat_map g l.
Proof.
  revert init. induction l as [|x l IH]; intros init; simpl.
  - now rewrite app_nil_r.
  - now rewrite IH, app_assoc.
Qed.

Lemma fold_left_push_found (h : B -> option A) (l : list B) (init : list A) :
  fold_left
    (fun acc x => match h x with Some c => acc ++ [c] | None => acc end) l init
  = init ++ flat_map (fun x => found (h x)) l.
Proof.
  revert init. induction l as [|x l IH]; intros init; simpl.
  - now rewrite app_nil_r.
  - rewrite IH. destruct (h x); simpl; [now rewrite <- app_assoc|reflexivity].
Qed.

Lemma find_filter (f : A -> bool) (l : list A) :
  found (List.find f l) = firstn 1 (List.filter f l).
Proof.
  induction l as [|x l IH]; simpl; [reflexivity|].
  destruct (f x); [reflexivity|exact IH].
Qed.

Lemma flat_map_split_perm (g h : B -> list A) (l : list B) :
  Permutation (flat_map (fun x => g x ++ h x) l) (flat_map g l ++ flat_map h l).
Proof.
  induction l as [|x l IH]; simpl; [reflexivity|].
  rewrite IH, <- !app_assoc. apply Permutation_app_head.
  rewrite !app_assoc. apply Permutation_app_tail, Permutation_app_comm.
Qed.

Lemma flat_map_nil (l : list B) : flat_map (fun _ => @nil A) l = [].
Proof. induction l; simpl; auto. Qed.

Lemma flat_map_ext_in (g h : B -> list A) (l : list B) :
  (forall x, In x l -> g x = h x) -> flat_map g l = flat_map h l.
Proof.
  induction l as [|x l IH]; intros H; simpl; [reflexivity|].
  rewrite H by now left. rewrite IH; [reflexivity|]. intros; apply H; now right.
Qed.

(** A loop over keys that filters the same array by each key collects the
    elements that match some key, provided no element matches two keys. *)
Lemma flat_map_filter_perm (F : B -> A -> bool) (ks : list B) (l : list A) :
  List.NoDup ks ->
  (forall x k1 k2, In k1 ks -> In k2 ks -> F k1 x = true -> F k2 x = true -> k1 = k2) ->
  Permutation (flat_map (fun k => List.filter (F k) l) ks)
              (List.filter (fun x => existsb (fun k => F k x) ks) l).
Proof.
  intros Hnd Hex. induction l as [|x l IH]; simpl.
  - now rewrite flat_map_nil.
  - transitivity
      ((if existsb (fun k => F k x) ks then [x] else [])
         ++ flat_map (fun k => List.filter (F k) l) ks).
    2:{ rewrite IH. now destruct (existsb _ ks). }
    clear IH. induction ks as [|k ks IHk]; simpl; [reflexivity|].
    apply List.NoDup_cons_iff in Hnd as [Hk Hnd].
    assert (IH' := IHk Hnd (fun x k1 k2 H1 H2 => Hex x k1 k2 (or_intror H1) (or_intror H2))).
    destruct (F k x) eqn:E; simpl.
    + assert (existsb (fun k0 => F k0 x) ks = false) as Hno.
      { apply not_true_is_false. intros Hyes.
        apply existsb_exists in Hyes as (k' & Hin & Hk').
        assert (k = k') by (apply (Hex x); simpl; auto). now subst. }
      rewrite Hno in IH'. simpl in IH'. now rewrite IH'.
    + rewrite IH'. rewrite !app_assoc. apply Permutation_app_tail, Permutation_app_comm.
Qed.
End Loops.

Lemma flat_map_swap_perm {A B C} (F : B -> C -> list A) (ps : list B) (ss : list C) :
  Permutation (flat_map (fun p => flat_map (fun s => F p s) ss) ps)
              (flat_map (fun s => flat_map (fun p => F p s) ps) ss).
Proof.
  induction ps as [|p ps IH]; simpl.
  - now rewrite flat_map_nil.
  - rewrite IH. symmetry. apply flat_map_split_perm.
Qed.

Lemma flat_map_perm {A B} (g h : B -> list A) (l : list B) :
  (forall x, In x l -> Permutation (g x) (h x)) ->
  Permutation (flat_map g l) (flat_map h l).
Proof.
  induction l as [|x l IH]; intros H; simpl; [reflexivity|].
  apply Permutation_app; [apply H; now left|]. apply IH. intros; apply H; now right.
Qed.

Lemma filter_flat_map {A B} (f : A -> bool) (g : B -> list A) (l : list B) :
  List.filter f (flat_map g l) = flat_map (fun x => List.filter f (g x)) l.
Proof.
  induction l as [|x l IH]; simpl; [reflexivity|].
  now rewrite List.filter_app, IH.
Qed.

Lemma filter_filter {A} (f g : A -> bool) (l : list A) :
  List.filter f (List.filter g l) = List.filter (fun x => g x && f x) l.
Proof.
  induction l as [|x l IH]; simpl; [reflexivity|].
  destruct (g x); simpl; [destruct (f x)|]; now rewrite IH.
Qed.

(** A loop over distinct keys that keeps the elements of one key only. *)
Lemma flat_map_one_key {A} (G : Z -> list A) (ks : list Z) (k : Z) :
  List.NoDup ks ->
  flat_map (fun h => if h =? k then G h else []) ks
  = if existsb (fun h => h =? k) ks then G k else [].
Proof.
  induction 1 as [|h ks Hh Hnd IH]; simpl; [reflexivity|].
  rewrite IH. destruct (Z.eqb_spec h k) as [->|Hne]; simpl; [|reflexivity].
  assert (existsb (fun h => h =? k) ks = false) as ->; [|apply app_nil_r].
  apply not_true_is_false. intros H. apply existsb_exists in H as (x & Hx & E).
  apply Z.eqb_eq in E. now subst.
Qed.

Lemma sorted_app {A} (R : A -> A -> Prop) (l1 l2 : list A) :
  StronglySorted R l1 -> StronglySorted R l2 ->
  (forall x y, In x l1 -> In y l2 -> R x y) ->
  StronglySorted R (l1 ++ l2).
Proof.
  induction 1 as [|x l1 Hs IH Hx]; intros H2 Hc; simpl; [exact H2|].
  constructor.
  - apply IH; [exact H2|]. intros; apply Hc; [now right|assumption].
  - apply Forall_app. split; [exact Hx|].
    apply List.Forall_forall. intros y Hy. apply Hc; [now left|exact Hy].
Qed.

Lemma sorted_all {A} (R : A -> A -> Prop) (l : list A) :
  (forall x y, In x l -> In y l -> R x y) -> StronglySorted R l.
Proof.
  induction l as [|x l IH]; intros Hc; constructor.
  - apply IH. intros; apply Hc; now right.
  - apply List.Forall_forall. intros y Hy. apply Hc; [now left|now right].
Qed.

(** A sum taken inside a loop is the sum of the array of the summands. *)
Lemma fold_left_fsum {A} (f : A -> float) (l : list A) (init : float) :
  fold_left (fun sum x => (sum + f x)%float) l init
  = fold_left (fun sum x => (sum + x)%float) (map f l) init.
Proof. revert init. induction l as [|x l IH]; intros init; simpl; [reflexivity|apply IH]. Qed.

(** ** Indexed assignment *)

Section ForEach.
Context {A : Type} (f : A -> Z -> A).

Lemma forEach_from_length k l : length (forEach_from f k l) = length l.
Proof. revert k. induction l; intros; simpl; auto. Qed.

Lemma forEach_from_map {B} (g : A -> B) k l :
  (forall x i, g (f x i) = g x) -> map g (forEach_from f k l) = map g l.
Proof.
  intros H. revert k. induction l as [|x l IH]; intros k; simpl; [reflexivity|].
  now rewrite H, IH.
Qed.

Lemma forEach_from_lookup k l (n : nat) :
  forEach_from f k l !! n = (fun x => f x (k + Z.of_nat n)) <$> l !! n.
Proof.
  revert k n. induction l as [|x l IH]; intros k [|n]; simpl; try reflexivity.
  - now rewrite Z.add_0_r.
  - rewrite IH. destruct (l !! n); simpl; [|reflexivity].
    do 2 f_equal. lia.
Qed.
End ForEach.

(** ** Aggregation *)

Lemma includes_counted st : includes countedStatuses st = true <-> counted_status st.
Proof.
  unfold includes, countedStatuses, counted_status. cbn [existsb].
  rewrite !orb_true_iff, !String.eqb_eq. intuition discriminate.
Qed.

Lemma hours_spec h : In h hours <-> 1 <= h <= 7.
Proof.
  unfold hours. rewrite in_map_iff. split.
  - intros (n & <- & Hn). apply in_seq in Hn. lia.
  - intros H. exists (Z.to_nat h). split; [lia|]. apply in_seq. lia.
Qed.

Lemma places_spec p : In p places <-> 1 <= p <= LAST_PLACE.
Proof.
  unfold places, LAST_PLACE. rewrite in_map_iff. split.
  - intros (n & <- & Hn). apply in_seq in Hn. lia.
  - intros H. exists (Z.to_nat p). split; [lia|]. apply in_seq. lia.
Qed.

Lemma NoDup_map_of_nat l : List.NoDup l -> List.NoDup (map Z.of_nat l).
Proof.
  intros H. apply Finite.Injective_map_NoDup; [|exact H].
  intros x y. apply Nat2Z.inj.
Qed.

Lemma hours_NoDup : List.NoDup hours.
Proof. apply NoDup_map_of_nat, seq_NoDup. Qed.

Lemma places_NoDup : List.NoDup places.
Proof. apply NoDup_map_of_nat, seq_NoDup. Qed.

Section Aggregation.
Variable snap : Snapshot.

Lemma addEntry_fold l acc :
  fold_left addEntry l acc
  = (fold_left (fun sum x => (sum + x)%float) (map HourlyEntryDoc.fishCount l) (fst acc),
     fold_left (fun sum x => (sum + x)%float) (map HourlyEntryDoc.totalWeight l) (snd acc)).
Proof.
  revert acc. induction l as [|e l IH]; intros acc; simpl.
  - now destruct acc.
  - now rewrite IH.
Qed.

Lemma sumHours_flat cid :
  sumHours snap cid
  = fold_left addEntry (flat_map (hourEntries snap cid) hours) (0%float, 0%float).
Proof.
  unfold sumHours. fold addEntry.
  generalize (0%float, 0%float). induction hours as [|h hs IH]; intros acc; simpl.
  - reflexivity.
  - now rewrite IH, fold_left_app.
Qed.

(** The hour loop reads the counted entries hour after hour. *)
Lemma hourEntries_hourOrder cid :
  flat_map (hourEntries snap cid) hours = hourOrder (countedEntries snap cid).
Proof.
  unfold hourOrder. apply flat_map_ext_in. intros h Hh. apply hours_spec in Hh.
  unfold hourEntries, countedEntries. rewrite filter_filter.
  apply filter_ext. intros e.
  destruct (String.eqb (HourlyEntryDoc.competitorId e) cid); [|reflexivity].
  destruct (includes countedStatuses (HourlyEntryDoc.status e));
    rewrite ?andb_false_r; [|reflexivity].
  cbn [andb]. rewrite andb_true_r.
  destruct (HourlyEntryDoc.hour e) as [h'|]; simpl; [|reflexivity].
  destruct (Z.eqb_spec h' h) as [->|]; [|now rewrite andb_false_r].
  destruct (Z.leb_spec 1 h), (Z.leb_spec h 7); first [lia | reflexivity].
Qed.

Lemma countedEntries_hour cid e :
  In e (countedEntries snap cid) ->
  HourlyEntryDoc.hour e = Some (hourOf e) /\ In (hourOf e) hours.
Proof.
  unfold countedEntries, hourOf. rewrite filter_In, !andb_true_iff.
  intros (_ & (_ & Hh) & _).
  destruct (HourlyEntryDoc.hour e) as [h|]; simpl in *; [|discriminate].
  split; [reflexivity|]. apply hours_spec. apply andb_true_iff in Hh. lia.
Qed.

Lemma sumHours_spec cid :
  sumHours snap cid
  = (fsum (map HourlyEntryDoc.fishCount (hourOrder (countedEntries snap cid))),
     fsum (map HourlyEntryDoc.totalWeight (hourOrder (countedEntries snap cid)))).
Proof. now rewrite sumHours_flat, addEntry_fold, hourEntries_hourOrder. Qed.

Lemma grossePriseEntry_spec cid :
  found (grossePriseEntry snap cid) = firstn 1 (countedBigCatches snap cid).
Proof. apply find_filter. Qed.
End Aggregation.

(** ** Sector stage *)

Lemma withCoefficient_fields total c :
  Chip.id (withCoefficient total c) = Chip.id c /\
  Chip.sector (withCoefficient total c) = Chip.sector c /\
  Chip.fishCount (withCoefficient total c) = Chip.fishCount c /\
  Chip.totalWeight (withCoefficient total c) = Chip.totalWeight c /\
  Chip.biggestCatch (withCoefficient total c) = Chip.biggestCatch c /\
  Chip.points (withCoefficient total c) = Chip.points c /\
  Chip.classementSecteur (withCoefficient total c) = Chip.classementSecteur c /\
  Chip.classementGeneral (withCoefficient total c) = Chip.classementGeneral c.
Proof. unfold withCoefficient. destruct (0 <? total)%float; repeat split. Qed.

Lemma withCoefficient_coefficient total c :
  Chip.coefficient (withCoefficient total c) =
  if (0 <? total)%float
  then (Chip.points c * Chip.fishCount c / total)%float
  else 0%float.
Proof. unfold withCoefficient. now destruct (0 <? total)%float. Qed.

(** Assigning [index + 1] to a field numbers the array from [k + 1]. *)
Lemma forEach_from_assigned {A} (set : A -> Z -> A) (get : A -> Z) k l :
  (forall c v, get (set c v) = v) ->
  map get (forEach_from (fun comp index => set comp (index + 1)) k l)
  = map (fun j => k + Z.of_nat j) (seq 1 (length l)).
Proof.
  intros Hget. revert k. induction l as [|c l IH]; intros k; [reflexivity|].
  cbn [forEach_from map length seq]. rewrite IH, Hget. f_equal.
  rewrite <- (seq_shift (length l) 1), map_map. apply map_ext. intros; lia.
Qed.

Section SectorStage.
Variable snap : Snapshot.
Variable sector : string.

Lemma sectorTotalNbPrises_sum :
  sectorTotalNbPrises snap sector = fsum (map Chip.fishCount (sectorCalculated snap sector)).
Proof. unfold sectorTotalNbPrises. now rewrite fold_left_fsum. Qed.

Lemma sectorCompetitors_In comp :
  In comp (sectorCompetitors snap sector) <->
  In comp (firestoreCompetitors snap) /\ CompetitorDoc.sector comp = Some sector.
Proof.
  unfold sectorCompetitors. rewrite filter_In.
  destruct (CompetitorDoc.sector comp) as [s'|]; simpl.
  - rewrite String.eqb_eq. intuition congruence.
  - intuition discriminate.
Qed.

Lemma sectorCoefficients_chipOf :
  sectorCoefficients snap sector = map (chipOf snap sector) (sectorCompetitors snap sector).
Proof. unfold sectorCoefficients, sectorCalculated. now rewrite map_map. Qed.

Lemma chipOf_unranked comp : unranked (chipOf snap sector comp) = chipOf snap sector comp.
Proof. unfold chipOf, withCoefficient. now destruct (0 <? _)%float. Qed.

Lemma chipOf_sector comp :
  In comp (sectorCompetitors snap sector) -> Chip.sector (chipOf snap sector comp) = sector.
Proof.
  intros H. apply sectorCompetitors_In in H as [_ H].
  unfold chipOf. destruct (withCoefficient_fields (sectorTotalNbPrises snap sector)
    (calculate snap sector comp)) as (_ & -> & _). simpl. now rewrite H.
Qed.

Lemma sectorSorted_unranked :
  map unranked (sectorSorted chipSort snap sector)
  = js_sort byPoints (sectorCoefficients snap sector).
Proof.
  unfold sectorSorted, chipSort, forEach_indexed.
  rewrite forEach_from_map by (intros []; reflexivity).
  rewrite <- (map_id (js_sort _ _)) at 2. apply map_ext_in.
  intros c Hc. eapply Permutation_in in Hc; [|apply js_sort_perm].
  rewrite sectorCoefficients_chipOf in Hc. apply in_map_iff in Hc as (comp & <- & _).
  apply chipOf_unranked.
Qed.

Lemma sectorSorted_length :
  length (sectorSorted chipSort snap sector) = length (sectorCompetitors snap sector).
Proof.
  unfold sectorSorted, chipSort, forEach_indexed.
  rewrite forEach_from_length, js_sort_length, sectorCoefficients_chipOf.
  apply length_map.
Qed.

Lemma sectorSorted_perm :
  Permutation (map unranked (sectorSorted chipSort snap sector))
              (map (chipOf snap sector) (sectorCompetitors snap sector)).
Proof.
  rewrite sectorSorted_unranked, <- sectorCoefficients_chipOf. apply js_sort_perm.
Qed.

Lemma sorted_chip_unranked c :
  In c (js_sort byPoints (sectorCoefficients snap sector)) -> unranked c = c.
Proof.
  intros Hc. eapply Permutation_in in Hc; [|apply js_sort_perm].
  rewrite sectorCoefficients_chipOf in Hc. apply in_map_iff in Hc as (comp & <- & _).
  apply chipOf_unranked.
Qed.

(** The rank of the chip at index [n] is [n + 1]. *)
Lemma sectorSorted_lookup (n : nat) c :
  sectorSorted chipSort snap sector !! n = Some c ->
  Chip.classementSecteur c = Z.of_nat n + 1 /\
  js_sort byPoints (sectorCoefficients snap sector) !! n = Some (unranked c).
Proof.
  unfold sectorSorted, chipSort, forEach_indexed. rewrite forEach_from_lookup.
  destruct (js_sort byPoints (sectorCoefficients snap sector) !! n) as [c0|] eqn:E;
    simpl; [|discriminate].
  intros [= <-]. split; [simpl; lia|].
  f_equal. transitivity (unranked c0); [symmetry|now destruct c0].
  apply sorted_chip_unranked. apply list_elem_of_In, list_elem_of_lookup. eauto.
Qed.

Lemma sectorSorted_ranks :
  map Chip.classementSecteur (sectorSorted chipSort snap sector)
  = map Z.of_nat (seq 1 (length (sectorCompetitors snap sector))).
Proof.
  unfold sectorSorted, chipSort, forEach_indexed.
  rewrite (forEach_from_assigned Chip.set_classementSecteur Chip.classementSecteur)
    by reflexivity.
  rewrite js_sort_length, sectorCoefficients_chipOf, length_map.
  apply map_ext. intros; lia.
Qed.
End SectorStage.

(** ** General stage *)

Lemma filter_key_unique {A} (key : A -> Z) (p : Z) (l : list A) :
  List.NoDup (map key l) -> (length (List.filter (fun x => (key x =? p)%Z) l) <= 1)%nat.
Proof.
  induction l as [|x l IH]; simpl; [lia|].
  intros H. apply List.NoDup_cons_iff in H as [Hx H]. specialize (IH H).
  destruct (Z.eqb_spec (key x) p) as [E|E]; [|exact IH]. simpl.
  assert (List.filter (fun y => key y =? p) l = []) as ->; [|simpl; lia].
  destruct (List.filter _ l) as [|y r] eqn:F; [reflexivity|exfalso].
  assert (In y (List.filter (fun y => key y =? p) l)) as Hy by (rewrite F; now left).
  apply filter_In in Hy as [Hy Ey]. apply Z.eqb_eq in Ey.
  apply Hx. rewrite E, <- Ey. now apply in_map.
Qed.

Lemma firstn_short {A} (l : list A) : (length l <= 1)%nat -> firstn 1 l = l.
Proof. destruct l as [|x [|y l]]; simpl; intros; try reflexivity; lia. Qed.

Lemma fold_insert_lookup {V} (f : string -> V) (ks : list string) (m : gmap string V) s :
  fold_left (fun calc k => <[k := f k]> calc) ks m !! s
  = if existsb (String.eqb s) ks then Some (f s) else m !! s.
Proof.
  revert m. induction ks as [|k ks IH]; intros m; simpl; [reflexivity|].
  rewrite IH. destruct (String.eqb_spec s k) as [->|Hne]; simpl.
  - rewrite lookup_insert_eq. now destruct (existsb _ ks).
  - rewrite lookup_insert_ne by congruence. reflexivity.
Qed.

Lemma sectors_NoDup : List.NoDup sectors.
Proof.
  unfold sectors. repeat constructor; simpl; intuition discriminate.
Qed.

Lemma in_sectors s : In s sectors <-> existsb (String.eqb s) sectors = true.
Proof.
  rewrite existsb_exists. split.
  - intros H. exists s. split; [exact H|apply String.eqb_refl].
  - intros (x & H & E). apply String.eqb_eq in E. now subst.
Qed.

Section GeneralStage.
Variable snap : Snapshot.

Lemma sectorCalculations_lookup srt s :
  default [] (sectorCalculations srt snap !! s)
  = if existsb (String.eqb s) sectors then sectorSorted srt snap s else [].
Proof.
  unfold sectorCalculations. rewrite fold_insert_lookup.
  now destruct (existsb _ sectors).
Qed.

Lemma sectorCalculations_sector s :
  In s sectors ->
  default [] (sectorCalculations chipSort snap !! s) = sectorSorted chipSort snap s.
Proof. intros H. apply in_sectors in H. now rewrite sectorCalculations_lookup, H. Qed.

Lemma sectorSorted_ranks_NoDup s :
  List.NoDup (map Chip.classementSecteur (sectorSorted chipSort snap s)).
Proof. rewrite sectorSorted_ranks. apply NoDup_map_of_nat, seq_NoDup. Qed.

Lemma atPlace_length s place : (length (atPlace snap s place) <= 1)%nat.
Proof. apply filter_key_unique, sectorSorted_ranks_NoDup. Qed.

Lemma placeGroup_atPlace place :
  placeGroup chipSort snap place = flat_map (fun s => atPlace snap s place) sectors.
Proof.
  unfold placeGroup.
  rewrite (fold_left_push_found
             (fun sector =>
                List.find (fun comp => Chip.classementSecteur comp =? place)
                  (default [] (sectorCalculations chipSort snap !! sector)))).
  rewrite app_nil_l. apply flat_map_ext_in. intros s Hs.
  rewrite sectorCalculations_sector by exact Hs.
  rewrite find_filter. apply firstn_short, atPlace_length.
Qed.

Lemma generalRanking_groups :
  generalRanking chipSort snap
  = flat_map (fun place => js_sort byCoefficient (placeGroup chipSort snap place)) places.
Proof.
  unfold generalRanking, chipSort.
  now rewrite (fold_left_push_all
                 (fun place => js_sort byCoefficient (placeGroup chipSort snap place))).
Qed.

Lemma sectorSorted_rank_positive s c :
  In c (sectorSorted chipSort snap s) ->
  1 <= Chip.classementSecteur c <= Z.of_nat (length (sectorCompetitors snap s)).
Proof.
  intros H. apply (in_map Chip.classementSecteur) in H.
  rewrite sectorSorted_ranks in H. apply in_map_iff in H as (n & <- & Hn).
  apply in_seq in Hn. lia.
Qed.

Lemma places_loop_test r :
  existsb (fun place => r =? place) places = (1 <=? r) && (r <=? LAST_PLACE).
Proof.
  apply eq_iff_eq_true. rewrite existsb_exists, andb_true_iff, !Z.leb_le. split.
  - intros (p & Hp & E). apply Z.eqb_eq in E. subst. now apply places_spec.
  - intros H. exists r. split; [now apply places_spec|apply Z.eqb_refl].
Qed.

Lemma generalRanking_perm :
  Permutation (generalRanking chipSort snap) (flat_map (withinPlaces snap) sectors).
Proof.
  rewrite generalRanking_groups.
  rewrite (flat_map_perm _ (fun place => flat_map (fun s => atPlace snap s place) sectors)).
  2:{ intros p _. rewrite js_sort_perm. now rewrite placeGroup_atPlace. }
  rewrite flat_map_swap_perm. apply flat_map_perm. intros s _.
  unfold atPlace, withinPlaces.
  rewrite (flat_map_filter_perm (fun place comp => Chip.classementSecteur comp =? place)).
  - erewrite filter_ext_in; [reflexivity|]. intros c Hc. cbv beta.
    rewrite places_loop_test.
    apply sectorSorted_rank_positive in Hc.
    destruct (Z.leb_spec 1 (Chip.classementSecteur c)); [reflexivity|lia].
  - apply places_NoDup.
  - intros c p1 p2 _ _ H1 H2. apply Z.eqb_eq in H1, H2. congruence.
Qed.
End GeneralStage.

(** ** Display stage *)

Lemma filter_all {A} (f : A -> bool) (l : list A) :
  (forall x, In x l -> f x = true) -> List.filter f l = l.
Proof.
  induction l as [|x l IH]; intros H; simpl; [reflexivity|].
  rewrite H by now left. f_equal. apply IH. intros; apply H; now right.
Qed.

Lemma filter_none {A} (f : A -> bool) (l : list A) :
  (forall x, In x l -> f x = false) -> List.filter f l = [].
Proof.
  induction l as [|x l IH]; intros H; simpl; [reflexivity|].
  rewrite H by now left. apply IH. intros; apply H; now right.
Qed.

Lemma filter_perm {A} (f : A -> bool) (l l' : list A) :
  Permutation l l' -> Permutation (List.filter f l) (List.filter f l').
Proof.
  induction 1 as [|x l l' _ IH|x y l|l l' l'' _ IH1 _ IH2]; simpl.
  - reflexivity.
  - destruct (f x); [now constructor|exact IH].
  - destruct (f x), (f y); try reflexivity. apply perm_swap.
  - now transitivity (List.filter f l').
Qed.

Lemma filter_map_swap {A B} (f : B -> bool) (g : A -> B) (l : list A) :
  List.filter f (map g l) = map g (List.filter (fun x => f (g x)) l).
Proof.
  induction l as [|x l IH]; simpl; [reflexivity|].
  destruct (f (g x)); simpl; now rewrite IH.
Qed.

Lemma filter_comm {A} (f g : A -> bool) (l : list A) :
  List.filter f (List.filter g l) = List.filter g (List.filter f l).
Proof.
  induction l as [|x l IH]; simpl; [reflexivity|].
  destruct (f x) eqn:Ef, (g x) eqn:Eg; simpl; rewrite ?Ef, ?Eg, IH; reflexivity.
Qed.

(** Two tests that exclude each other keep, one after the other, what
    their disjunction keeps, up to order. *)
Lemma filter_either_perm {A} (f g : A -> bool) (l : list A) :
  (forall x, f x = true -> g x = false) ->
  Permutation (List.filter f l ++ List.filter g l)
              (List.filter (fun x => g x || f x) l).
Proof.
  intros H. induction l as [|x l IH]; simpl; [reflexivity|].
  destruct (f x) eqn:Ef; simpl.
  - rewrite (H x Ef). simpl. now constructor.
  - rewrite orb_false_r. destruct (g x); [|exact IH].
    rewrite <- Permutation_middle. now constructor.
Qed.

Lemma filter_flat_map_sector (G : string -> list Chip.t) (ks : list string) s :
  (forall k c, In c (G k) -> Chip.sector c = k) -> List.NoDup ks ->
  List.filter (fun c => String.eqb (Chip.sector c) s) (flat_map G ks)
  = if existsb (String.eqb s) ks then G s else [].
Proof.
  intros HG. induction 1 as [|k ks Hk Hnd IH]; simpl; [reflexivity|].
  rewrite List.filter_app, IH. destruct (String.eqb_spec s k) as [->|Hne]; simpl.
  - rewrite filter_all.
    2:{ intros c Hc. apply String.eqb_eq. now apply HG. }
    assert (existsb (String.eqb k) ks = false) as ->; [|apply app_nil_r].
    apply not_true_is_false. intros H. apply existsb_exists in H as (x & Hx & E).
    apply String.eqb_eq in E. now subst.
  - rewrite filter_none; [reflexivity|].
    intros c Hc. apply String.eqb_neq. apply HG in Hc. congruence.
Qed.

Lemma pushBySector_lookup (l : list Chip.t) (m : gmap string (list Chip.t)) s :
  default [] (fold_left pushBySector l m !! s)
  = default [] (m !! s) ++ List.filter (fun c => String.eqb (Chip.sector c) s) l.
Proof.
  revert m. induction l as [|c l IH]; intros m; simpl; [now rewrite app_nil_r|].
  rewrite IH. clear IH. unfold pushBySector.
  destruct (String.eqb_spec (Chip.sector c) s) as [<-|Hne].
  - destruct (m !! Chip.sector c) as [arr|] eqn:E; rewrite lookup_insert_eq; simpl.
    + now rewrite <- app_assoc.
    + reflexivity.
  - destruct (m !! Chip.sector c) as [arr|] eqn:E;
      now rewrite lookup_insert_ne by exact Hne.
Qed.

Lemma pushBySector_lookup_empty (l : list Chip.t) s :
  default [] (fold_left pushBySector l ∅ !! s)
  = List.filter (fun c => String.eqb (Chip.sector c) s) l.
Proof. rewrite pushBySector_lookup, lookup_empty. reflexivity. Qed.

Lemma unplaced_id c : Chip.classementGeneral c = 0 -> unplaced c = c.
Proof. destruct c; simpl; intros ->; reflexivity. Qed.

Section Display.
Variable snap : Snapshot.

(** Where a chip of a sector ranking comes from. *)
Lemma sectorSorted_origin s c :
  In c (sectorSorted chipSort snap s) ->
  exists comp, In comp (sectorCompetitors snap s) /\ unranked c = chipOf snap s comp.
Proof.
  intros H. apply (in_map unranked) in H.
  eapply Permutation_in in H; [|apply sectorSorted_perm].
  apply in_map_iff in H as (comp & E & Hcomp). eauto.
Qed.

Lemma sectorSorted_sector s c :
  In c (sectorSorted chipSort snap s) -> Chip.sector c = s.
Proof.
  intros H. apply sectorSorted_origin in H as (comp & Hcomp & E).
  apply (chipOf_sector snap s) in Hcomp. rewrite <- E in Hcomp. destruct c; exact Hcomp.
Qed.

Lemma sectorSorted_unplaced s c :
  In c (sectorSorted chipSort snap s) -> unplaced c = c.
Proof.
  intros H. apply sectorSorted_origin in H as (comp & _ & E).
  apply unplaced_id. change (Chip.classementGeneral (unranked c) = 0).
  rewrite E. unfold chipOf.
  destruct (withCoefficient_fields (sectorTotalNbPrises snap s)
              (calculate snap s comp)) as (_ & _ & _ & _ & _ & _ & _ & ->).
  reflexivity.
Qed.

Lemma generalRanking_In c :
  In c (generalRanking chipSort snap) <->
  exists s, In s sectors /\ In c (sectorSorted chipSort snap s)
            /\ Chip.classementSecteur c <= LAST_PLACE.
Proof.
  split.
  - intros H. eapply Permutation_in in H; [|apply generalRanking_perm].
    apply in_flat_map in H as (s & Hs & H). apply filter_In in H as [H1 H2].
    exists s. rewrite Z.leb_le in H2. repeat split; assumption.
  - intros (s & Hs & H1 & H2).
    eapply Permutation_in; [symmetry; apply generalRanking_perm|].
    apply in_flat_map. exists s. split; [exact Hs|].
    apply filter_In. rewrite Z.leb_le. split; assumption.
Qed.

Lemma generalRanking_unplaced c :
  In c (generalRanking chipSort snap) -> unplaced c = c.
Proof.
  intros H. destruct (proj1 (generalRanking_In c) H) as (s & _ & H' & _).
  apply (sectorSorted_unplaced s), H'.
Qed.

Lemma nonZeroCompetitors_unplaced :
  map unplaced (nonZeroCompetitors chipSort snap)
  = List.filter (fun comp => (0 <? Chip.coefficient comp)%float)
      (generalRanking chipSort snap).
Proof.
  unfold nonZeroCompetitors, forEach_indexed.
  rewrite forEach_from_map by (intros []; reflexivity).
  rewrite <- (map_id (List.filter _ _)) at 2. apply map_ext_in.
  intros c Hc. apply filter_In in Hc as [Hc _]. apply generalRanking_unplaced, Hc.
Qed.

Lemma zeroCoeffCompetitors_unplaced :
  map unplaced (zeroCoeffCompetitors chipSort snap)
  = List.filter (fun comp => (Chip.coefficient comp =? 0)%float)
      (generalRanking chipSort snap).
Proof.
  unfold zeroCoeffCompetitors. rewrite map_map.
  rewrite <- (map_id (List.filter _ _)) at 2. apply map_ext_in.
  intros c Hc. apply filter_In in Hc as [Hc _].
  apply generalRanking_unplaced in Hc. rewrite <- Hc at 2. destruct c; reflexivity.
Qed.

(** The row of a sector: the ranked chips of that sector, by box number. *)
Lemma standings_row s :
  standings snap s
  = js_sort byBoxNumber
      (List.filter (fun c => String.eqb (Chip.sector c) s)
         (nonZeroCompetitors chipSort snap ++ zeroCoeffCompetitors chipSort snap)).
Proof.
  unfold standings, competitors, competitorsBySector, chipSort.
  rewrite lookup_fmap.
  rewrite <- pushBySector_lookup_empty.
  destruct (fold_left pushBySector _ ∅ !! s); reflexivity.
Qed.

Lemma withinPlaces_sector k c : In c (withinPlaces snap k) -> Chip.sector c = k.
Proof. intros H. apply filter_In in H as [H _]. apply sectorSorted_sector, H. Qed.

(** Without its general ranks, the row of a sector holds chips of that
    sector that were ranked within the places of the loop. *)
Lemma standings_within s c :
  In c (standings snap s) ->
  In s sectors /\ In (unplaced c) (withinPlaces snap s).
Proof.
  rewrite standings_row. intros H.
  eapply Permutation_in in H; [|apply js_sort_perm].
  apply filter_In in H as [H Hs]. apply String.eqb_eq in Hs.
  assert (In (unplaced c) (generalRanking chipSort snap)) as Hg.
  { apply (in_map unplaced) in H.
    rewrite map_app, nonZeroCompetitors_unplaced, zeroCoeffCompetitors_unplaced in H.
    apply in_app_or in H as [H|H]; apply filter_In in H; tauto. }
  destruct (proj1 (generalRanking_In _) Hg) as (k & Hk & Hin & Hle).
  assert (k = s) as ->.
  { apply sectorSorted_sector in Hin. rewrite <- Hin, <- Hs. destruct c; reflexivity. }
  split; [exact Hk|]. apply filter_In. rewrite Z.leb_le. split; assumption.
Qed.

Lemma generalRanking_sector s :
  In s sectors ->
  Permutation
    (List.filter (fun c => String.eqb (Chip.sector c) s) (generalRanking chipSort snap))
    (withinPlaces snap s).
Proof.
  intros Hs. rewrite (filter_perm _ _ _ (generalRanking_perm snap)).
  rewrite (filter_flat_map_sector (withinPlaces snap))
    by (auto using withinPlaces_sector, sectors_NoDup).
  apply in_sectors in Hs. rewrite Hs. reflexivity.
Qed.

(** The row of a sector is, without its general ranks, what the two filters
    keep of the sector ranking cut at the last place. *)
Lemma standings_perm s :
  In s sectors ->
  Permutation (map unplaced (standings snap s))
              (List.filter displayable (withinPlaces snap s)).
Proof.
  intros Hs. rewrite standings_row, js_sort_perm.
  set (sec := fun c => String.eqb (Chip.sector c) s).
  assert (forall l, map unplaced (List.filter sec l) = List.filter sec (map unplaced l)) as ->
    by (intros l; symmetry; apply (filter_map_swap sec unplaced)).
  rewrite map_app, nonZeroCompetitors_unplaced, zeroCoeffCompetitors_unplaced.
  rewrite List.filter_app.
  rewrite (filter_comm sec), (filter_comm sec).
  rewrite filter_either_perm by (intros c; apply positive_not_zero).
  apply filter_perm, generalRanking_sector, Hs.
Qed.
End Display.

Lemma sample_a1_displayed : In (sample_a1 2 3) (standings sample "A").
Proof. vm_compute. right. right. left. reflexivity. Defined.

(** ** Chips and the competitors they come from *)

Lemma sectorRanking_sector snap s :
  In s sectors -> sectorRanking snap s = sectorSorted chipSort snap s.
Proof. apply sectorCalculations_sector. Qed.

Lemma sectorRanking_In snap s chip :
  In chip (sectorRanking snap s) ->
  In s sectors /\ In chip (sectorSorted chipSort snap s).
Proof.
  unfold sectorRanking. rewrite sectorCalculations_lookup.
  destruct (existsb (String.eqb s) sectors) eqn:E; [|intros []].
  intros H. split; [apply in_sectors, E|exact H].
Qed.

(** A chip of a sector ranking or of a row, without its ranks, is the chip
    computed for a competitor of that sector, one of A-F. *)
Lemma chip_origin snap s chip :
  In chip (sectorRanking snap s) \/ In chip (standings snap s) ->
  In s sectors /\
  exists comp, In comp (sectorCompetitors snap s)
               /\ unranked (unplaced chip) = chipOf snap s comp.
Proof.
  intros [H|H].
  - apply sectorRanking_In in H as [Hs H]. split; [exact Hs|].
    rewrite (sectorSorted_unplaced snap s chip H).
    apply sectorSorted_origin, H.
  - apply standings_within in H as [Hs H]. split; [exact Hs|].
    apply filter_In in H as [H _].
    apply sectorSorted_origin, H.
Qed.

(** Every competitor of a sector has its chip in the sector ranking. *)
Lemma competitor_ranked snap s comp :
  In s sectors ->
  In comp (sectorCompetitors snap s) ->
  exists rank,
    1 <= rank <= Z.of_nat (length (sectorCompetitors snap s)) /\
    In (Chip.set_classementSecteur (chipOf snap s comp) rank) (sectorRanking snap s).
Proof.
  intros Hs H. rewrite (sectorRanking_sector snap s Hs).
  apply (in_map (chipOf snap s)) in H.
  eapply Permutation_in in H; [|symmetry; apply sectorSorted_perm].
  apply in_map_iff in H as (c & E & Hc).
  exists (Chip.classementSecteur c). split.
  - apply (sectorSorted_rank_positive snap s c Hc).
  - rewrite <- E. destruct c; exact Hc.
Qed.

(** ** C1: aggregated totals and points *)

Lemma countedEntries_In snap cid entry :
  In entry (countedEntries snap cid) <->
  In entry (firestoreHourlyEntries snap)
  /\ HourlyEntryDoc.competitorId entry = cid
  /\ (exists h, HourlyEntryDoc.hour entry = Some h /\ 1 <= h <= 7)
  /\ counted_status (HourlyEntryDoc.status entry).
Proof.
  unfold countedEntries. rewrite filter_In, !andb_true_iff.
  rewrite String.eqb_eq, includes_counted.
  destruct (HourlyEntryDoc.hour entry) as [h|]; simpl.
  - rewrite andb_true_iff, !Z.leb_le. split.
    + intros (? & (? & ?) & ?). eauto 8.
    + intros (? & ? & (h' & [= <-] & ?) & ?). auto.
  - split; [intros (_ & (_ & ?) & _); discriminate|].
    intros (_ & _ & (h' & ? & _) & _). discriminate.
Qed.

Lemma hour_filter_In (l : list HourlyEntryDoc.t) h e :
  In e (List.filter (fun entry => strict_eq_Z (HourlyEntryDoc.hour entry) h) l) ->
  In e l /\ hourOf e = h.
Proof.
  rewrite filter_In. intros [Hin He]. split; [exact Hin|].
  unfold hourOf. destruct (HourlyEntryDoc.hour e); simpl in *; [|discriminate].
  now apply Z.eqb_eq.
Qed.

Lemma hour_loop_sorted (l : list HourlyEntryDoc.t) (ks : list Z) :
  StronglySorted Z.lt ks ->
  StronglySorted (before byHour)
    (flat_map
       (fun h => List.filter (fun entry => strict_eq_Z (HourlyEntryDoc.hour entry) h) l)
       ks).
Proof.
  induction 1 as [|h ks Hs IH Hh]; simpl; [constructor|].
  apply sorted_app; [|exact IH|].
  - apply sorted_all. intros x y Hx Hy.
    apply hour_filter_In in Hx as [_ Hx], Hy as [_ Hy].
    apply byHour_before. lia.
  - intros x y Hx Hy. apply hour_filter_In in Hx as [_ Hx].
    apply in_flat_map in Hy as (h' & Hh' & Hy). apply hour_filter_In in Hy as [_ Hy].
    rewrite List.Forall_forall in Hh. specialize (Hh h' Hh').
    apply byHour_before. lia.
Qed.

Lemma hours_sorted : StronglySorted Z.lt hours.
Proof. repeat constructor. Qed.

Lemma tie_byHour x e : tie byHour x e = (hourOf e =? hourOf x).
Proof.
  apply eq_iff_eq_true. rewrite (proj2 (byHour_before x e)), Z.eqb_eq. split; congruence.
Qed.

(** Entries that all have an hour of the loop, read hour after hour, are
    these entries sorted by hour, those of one hour keeping their order. *)
Lemma hourOrder_stable_sort (l : list HourlyEntryDoc.t) :
  (forall e, In e l -> HourlyEntryDoc.hour e = Some (hourOf e) /\ In (hourOf e) hours) ->
  stable_sort_of byHour (fun _ => True) l (hourOrder l).
Proof.
  intros Hl. split.
  - unfold hourOrder.
    rewrite (flat_map_filter_perm
               (fun h entry => strict_eq_Z (HourlyEntryDoc.hour entry) h)).
    + rewrite filter_all; [reflexivity|]. intros e He.
      destruct (Hl e He) as [E Hin]. apply existsb_exists.
      exists (hourOf e). split; [exact Hin|]. rewrite E. apply Z.eqb_refl.
    + apply hours_NoDup.
    + intros e h1 h2 _ _ H1 H2.
      destruct (HourlyEntryDoc.hour e); simpl in *; [|discriminate].
      apply Z.eqb_eq in H1, H2. congruence.
  - apply hour_loop_sorted, hours_sorted.
  - intros x _.
    rewrite (filter_ext _ _ (tie_byHour x)).
    rewrite (filter_ext _ _ (tie_byHour x) l).
    unfold hourOrder. rewrite filter_flat_map.
    rewrite (flat_map_ext_in _
               (fun h => if h =? hourOf x
                         then List.filter
                                (fun entry => strict_eq_Z (HourlyEntryDoc.hour entry) h) l
                         else [])).
    2:{ intros h _. destruct (Z.eqb_spec h (hourOf x)) as [E|E].
        - apply filter_all. intros e He. apply hour_filter_In in He as [_ He].
          apply Z.eqb_eq. congruence.
        - apply filter_none. intros e He. apply hour_filter_In in He as [_ He].
          apply Z.eqb_neq. congruence. }
    rewrite flat_map_one_key by apply hours_NoDup.
    destruct (existsb (fun h => h =? hourOf x) hours) eqn:E.
    + apply filter_ext_in. intros e He. destruct (Hl e He) as [-> _]. reflexivity.
    + symmetry. apply filter_none. intros e He. destruct (Hl e He) as [_ Hin].
      apply Z.eqb_neq. intros Heq. apply not_true_iff_false in E. apply E.
      apply existsb_exists. exists (hourOf e). split; [exact Hin|now apply Z.eqb_eq].
Qed.

Lemma chip_totals snap s chip :
  In chip (sectorRanking snap s) \/ In chip (standings snap s) ->
  (exists comp, In comp (firestoreCompetitors snap)
                /\ CompetitorDoc.sector comp = Some s
                /\ Chip.id chip = CompetitorDoc.id comp) /\
  Chip.fishCount chip
  = fsum (map HourlyEntryDoc.fishCount (hourOrder (countedEntries snap (Chip.id chip)))) /\
  Chip.totalWeight chip
  = fsum (map HourlyEntryDoc.totalWeight (hourOrder (countedEntries snap (Chip.id chip)))) /\
  Chip.points chip = (Chip.fishCount chip * 50 + Chip.totalWeight chip)%float.
Proof.
  intros H. apply chip_origin in H as (_ & comp & Hcomp & E).
  pose proof (withCoefficient_fields (sectorTotalNbPrises snap s) (calculate snap s comp))
    as (Hid & _ & Hfish & Hweight & _ & Hpoints & _).
  fold (chipOf snap s comp) in Hid, Hfish, Hweight, Hpoints.
  rewrite <- E in Hid, Hfish, Hweight, Hpoints.
  assert (Chip.id chip = CompetitorDoc.id comp) as Eid by (destruct chip; exact Hid).
  assert (Chip.fishCount chip = fst (sumHours snap (CompetitorDoc.id comp))) as Efish
    by (destruct chip; exact Hfish).
  assert (Chip.totalWeight chip = snd (sumHours snap (CompetitorDoc.id comp))) as Eweight
    by (destruct chip; exact Hweight).
  assert (Chip.points chip
          = (fst (sumHours snap (CompetitorDoc.id comp)) * POINTS_PER_FISH
             + snd (sumHours snap (CompetitorDoc.id comp)))%float) as Epoints
    by (destruct chip; exact Hpoints).
  split; [|split; [|split]].
  - exists comp. apply sectorCompetitors_In in Hcomp as [H1 H2]. auto.
  - rewrite Eid, Efish, sumHours_spec. reflexivity.
  - rewrite Eid, Eweight, sumHours_spec. reflexivity.
  - rewrite Epoints, Efish, Eweight. reflexivity.
Qed.

(** C1.  Every competitor of the snapshot in a sector A-F has a chip in the
    ranking of its sector.  Every chip of a sector ranking, and every chip
    of a displayed row, belongs to a competitor of the snapshot in that
    sector; its fishCount and totalWeight are the sums of fishCount and
    totalWeight over the hourly entries of the snapshot whose competitorId
    is the chip's id, whose hour is present and within 1..7 and whose status
    is one of locked_judge, locked_admin, offline_judge and offline_admin;
    the sums are sums of doubles, taken from 0 over these entries sorted by
    hour, the entries of one hour in the order of the snapshot; and the
    chip's points are the double fishCount * 50 + totalWeight. *)
Theorem aggregated_totals snap s :
  (forall comp,
      In s sectors ->
      In comp (firestoreCompetitors snap) ->
      CompetitorDoc.sector comp = Some s ->
      exists chip, In chip (sectorRanking snap s)
                   /\ Chip.id chip = CompetitorDoc.id comp) /\
  (forall chip,
      In chip (sectorRanking snap s) \/ In chip (standings snap s) ->
      (exists comp, In comp (firestoreCompetitors snap)
                    /\ CompetitorDoc.sector comp = Some s
                    /\ Chip.id chip = CompetitorDoc.id comp) /\
      (forall entry,
          In entry (countedEntries snap (Chip.id chip)) <->
          In entry (firestoreHourlyEntries snap)
          /\ HourlyEntryDoc.competitorId entry = Chip.id chip
          /\ (exists h, HourlyEntryDoc.hour entry = Some h /\ 1 <= h <= 7)
          /\ counted_status (HourlyEntryDoc.status entry)) /\
      stable_sort_of byHour (fun _ => True)
        (countedEntries snap (Chip.id chip))
        (hourOrder (countedEntries snap (Chip.id chip))) /\
      (forall a b, before byHour a b <-> hourOf a <= hourOf b) /\
      (forall a b, tie byHour a b = true <-> hourOf a = hourOf b) /\
      Chip.fishCount chip
      = fsum (map HourlyEntryDoc.fishCount
                (hourOrder (countedEntries snap (Chip.id chip)))) /\
      Chip.totalWeight chip
      = fsum (map HourlyEntryDoc.totalWeight
                (hourOrder (countedEntries snap (Chip.id chip)))) /\
      Chip.points chip = (Chip.fishCount chip * 50 + Chip.totalWeight chip)%float).
Proof.
  split.
  - intros comp Hs Hcomp Hsector.
    assert (Hin : In comp (sectorCompetitors snap s))
      by (apply sectorCompetitors_In; split; assumption).
    destruct (competitor_ranked snap s comp Hs Hin) as (rank & _ & Hchip).
    exists (Chip.set_classementSecteur (chipOf snap s comp) rank).
    split; [exact Hchip|].
    apply (withCoefficient_fields (sectorTotalNbPrises snap s) (calculate snap s comp)).
  - intros chip H. destruct (chip_totals snap s chip H) as (Hcomp & Htotals).
    split; [exact Hcomp|]. split; [intros entry; apply countedEntries_In|].
    split; [apply hourOrder_stable_sort, countedEntries_hour|].
    split; [intros a b; apply byHour_before|].
    split; [intros a b; apply byHour_before|].
    exact Htotals.
Qed.

Lemma aggregated_totals_witness :
  In (sample_a1 2 3) (standings sample "A") /\
  Chip.fishCount (sample_a1 2 3) = 2%float /\
  Chip.totalWeight (sample_a1 2 3) = 10%float /\
  Chip.points (sample_a1 2 3) = (2 * 50 + 10)%float /\
  exists chip, In chip (sectorRanking sample "A") /\ Chip.id chip = "a1".
Proof.
  pose proof sample_a1_displayed as H.
  split; [exact H|].
  destruct (aggregated_totals sample "A") as (Hexists & Htotals).
  destruct (Htotals (sample_a1 2 3) (or_intror H))
    as (_ & _ & _ & _ & _ & Hfish & Hweight & Hpoints).
  split; [exact Hfish|]. split; [exact Hweight|]. split; [exact Hpoints|].
  apply (Hexists (competitorDoc "a1" 3 (Some "A"))); [left| left|]; reflexivity.
Defined.

(** The same three weights entered in opposite hour order give two sums
    that differ, and the sector ranks follow the sums. *)
Example hour_order_matters :
  map (fun c => (Chip.id c, Chip.totalWeight c, Chip.points c, Chip.classementSecteur c))
    (sectorRanking rounded "A")
  = [ ("x", (3.1 + 37.8 + 15.3)%float, 106.2%float, 1);
      ("y", (15.3 + 37.8 + 3.1)%float, 106.19999999999999%float, 2) ] /\
  ((15.3 + 37.8 + 3.1 <? 3.1 + 37.8 + 15.3)%float = true).
Proof. vm_compute. split; reflexivity. Qed.

(** ** C2: sector coefficient *)

Lemma sectorTotalNbPrises_spec snap s :
  sectorTotalNbPrises snap s = sectorTotalFish snap s.
Proof.
  rewrite sectorTotalNbPrises_sum. unfold sectorCalculated, sectorTotalFish.
  rewrite map_map. f_equal. apply map_ext. intros comp.
  cbn [calculate Chip.fishCount]. now rewrite sumHours_spec.
Qed.

Lemma sectorTotalFish_chips snap s :
  sectorTotalFish snap s
  = fsum (map (fun comp => Chip.fishCount (chipOf snap s comp)) (sectorCompetitors snap s)).
Proof.
  rewrite <- sectorTotalNbPrises_spec, sectorTotalNbPrises_sum.
  unfold sectorCalculated. rewrite map_map. f_equal. apply map_ext. intros comp.
  symmetry.
  apply (withCoefficient_fields (sectorTotalNbPrises snap s) (calculate snap s comp)).
Qed.

Lemma chip_coefficient snap s chip :
  In chip (sectorRanking snap s) \/ In chip (standings snap s) ->
  Chip.coefficient chip
  = (if 0 <? sectorTotalFish snap s
     then Chip.points chip * Chip.fishCount chip / sectorTotalFish snap s
     else 0)%float.
Proof.
  intros H. apply chip_origin in H as (_ & comp & _ & E).
  pose proof (withCoefficient_coefficient (sectorTotalNbPrises snap s)
                (calculate snap s comp)) as Hc.
  pose proof (withCoefficient_fields (sectorTotalNbPrises snap s) (calculate snap s comp))
    as (_ & _ & Hfish & _ & _ & Hpoints & _).
  fold (chipOf snap s comp) in Hc, Hfish, Hpoints.
  rewrite <- Hfish, <- Hpoints, <- E, sectorTotalNbPrises_spec in Hc.
  destruct chip; exact Hc.
Qed.

(** Points that are not finite, times zero, give no number. *)
Lemma not_finite_times_zero p f t :
  is_finite p = false -> (f =? 0)%float = true -> is_nan (p * f / t) = true.
Proof.
  intros Hp Hf. apply zero_spec in Hf as [sf Hf].
  rewrite is_nan_spec, FloatAxioms.div_spec, FloatAxioms.mul_spec, Hf.
  pose proof (is_finite_spec p) as Hfin.
  destruct (Prim2SF p) as [sp|sp| |sp mp ep].
  - rewrite (proj2 Hfin I) in Hp. discriminate.
  - destruct (Prim2SF t); reflexivity.
  - destruct (Prim2SF t); reflexivity.
  - rewrite (proj2 Hfin I) in Hp. discriminate.
Qed.

(** C2 as stated fails: in [overflowed] the competitor [w] has no fish and a
    total weight that overflows, so that its points are infinite and its
    coefficient, infinity * 0 / 1, is NaN and not 0. *)
Lemma zero_fish_coefficient_nan :
  exists chip,
    In chip (sectorRanking overflowed "A") /\
    Chip.id chip = "w" /\
    Chip.fishCount chip = 0%float /\
    Chip.points chip = infinity /\
    sectorTotalFish overflowed "A" = 1%float /\
    is_nan (Chip.coefficient chip) = true /\
    (Chip.coefficient chip =? 0)%float = false.
Proof.
  exists (Chip.set_classementSecteur
            (chipOf overflowed "A" (competitorDoc "w" 2 (Some "A"))) 1).
  split; [vm_compute; left; reflexivity|].
  repeat split; vm_compute; reflexivity.
Qed.

(** C2, amended.  For every chip of a sector ranking or of a displayed row,
    the coefficient is the double points * fishCount / sectorTotalFish when
    sectorTotalFish is above 0 and 0 otherwise; the total the code divides
    by is the sum, from 0 and in the order of the snapshot, of the
    aggregated fish counts of the competitors of the sector; a chip with
    fishCount 0 and finite points has coefficient 0, and with fishCount 0,
    points that are infinite or NaN and a total above 0 its coefficient is
    NaN. *)
Theorem coefficient_formula snap s chip :
  In chip (sectorRanking snap s) \/ In chip (standings snap s) ->
  sectorTotalNbPrises snap s = sectorTotalFish snap s /\
  sectorTotalFish snap s
  = fsum (map (fun comp => Chip.fishCount (chipOf snap s comp))
            (sectorCompetitors snap s)) /\
  Chip.coefficient chip
  = (if 0 <? sectorTotalFish snap s
     then Chip.points chip * Chip.fishCount chip / sectorTotalFish snap s
     else 0)%float /\
  ((Chip.fishCount chip =? 0)%float = true ->
   is_finite (Chip.points chip) = true ->
   (Chip.coefficient chip =? 0)%float = true) /\
  ((Chip.fishCount chip =? 0)%float = true ->
   is_finite (Chip.points chip) = false ->
   (0 <? sectorTotalFish snap s)%float = true ->
   is_nan (Chip.coefficient chip) = true).
Proof.
  intros H. pose proof (chip_coefficient snap s chip H) as Ecoef.
  split; [apply sectorTotalNbPrises_spec|].
  split; [apply sectorTotalFish_chips|].
  split; [exact Ecoef|].
  split.
  - intros Hzero Hfin. rewrite Ecoef.
    destruct (0 <? sectorTotalFish snap s)%float eqn:E; [|reflexivity].
    apply finite_times_zero; assumption.
  - intros Hzero Hfin Hpos. rewrite Ecoef, Hpos.
    apply not_finite_times_zero; assumption.
Qed.

Lemma coefficient_formula_witness :
  In (sample_a1 2 3) (standings sample "A") /\
  sectorTotalFish sample "A" = 7%float /\
  Chip.coefficient (sample_a1 2 3) = (110 * 2 / 7)%float.
Proof.
  pose proof sample_a1_displayed as H.
  split; [exact H|]. split; [reflexivity|].
  exact (proj1 (proj2 (proj2
    (coefficient_formula sample "A" (sample_a1 2 3) (or_intror H))))).
Defined.

(** ** C3: sector ranks *)

Lemma fsum_nonneg l : List.Forall nonneg l -> nonneg (fsum l).
Proof.
  unfold fsum. assert (H0 : nonneg 0) by reflexivity. revert H0.
  generalize 0%float. induction l as [|x l IH]; intros acc Hacc Hl; simpl; [exact Hacc|].
  apply List.Forall_cons_iff in Hl as [Hx Hl].
  apply IH; [apply add_nonneg; assumption | exact Hl].
Qed.

(** A number times a finite number is a number. *)
Lemma mul_finite_number x y s m e :
  a_number x -> Prim2SF y = S754_finite s m e -> a_number (x * y).
Proof.
  rewrite !number_spec, FloatAxioms.mul_spec. intros Hx ->.
  destruct (Prim2SF x) as [sx|sx| |sx mx ex]; try congruence;
    unfold SF64mul; cbn [SFmul]; try discriminate.
  pose proof (binary_round_aux_signed (xorb sx s) (Z.pos (mx * m)) (ex + e) loc_Exact
                ltac:(lia)) as Hsigned.
  intros E. rewrite E in Hsigned. exact Hsigned.
Qed.

Lemma hourOrder_In (l : list HourlyEntryDoc.t) e : In e (hourOrder l) -> In e l.
Proof.
  unfold hourOrder. rewrite in_flat_map. intros (h & _ & H).
  now apply filter_In in H.
Qed.

(** With fish counts and weights that are not negative, the totals and the
    points of a competitor are not negative, and so are numbers. *)
Lemma sumHours_nonneg snap cid :
  nonnegative_entries snap ->
  nonneg (fst (sumHours snap cid)) /\ nonneg (snd (sumHours snap cid)).
Proof.
  intros Hdata. rewrite sumHours_spec. cbn [fst snd].
  unfold nonnegative_entries in Hdata. rewrite List.Forall_forall in Hdata.
  split; apply fsum_nonneg, List.Forall_forall; intros x Hx;
    apply in_map_iff in Hx as (e & <- & He); apply hourOrder_In in He;
    apply filter_In in He as [He _]; apply (Hdata e He).
Qed.

Lemma calculate_points_nonneg snap s comp :
  nonnegative_entries snap -> nonneg (Chip.points (calculate snap s comp)).
Proof.
  intros Hdata. cbn [calculate Chip.points].
  destruct (sumHours_nonneg snap (CompetitorDoc.id comp) Hdata) as [Hfish Hweight].
  apply add_nonneg; [|exact Hweight].
  apply mul_nonneg; [exact Hfish | reflexivity |].
  eapply mul_finite_number; [apply nonneg_number, Hfish | reflexivity].
Qed.

Lemma chip_points_nonneg snap s chip :
  nonnegative_entries snap ->
  In chip (sectorRanking snap s) \/ In chip (standings snap s) ->
  nonneg (Chip.points chip).
Proof.
  intros Hdata H. apply chip_origin in H as (_ & comp & _ & E).
  change (Chip.points chip) with (Chip.points (unranked (unplaced chip))).
  rewrite E. unfold chipOf.
  destruct (withCoefficient_fields (sectorTotalNbPrises snap s) (calculate snap s comp))
    as (_ & _ & _ & _ & _ & -> & _).
  apply calculate_points_nonneg, Hdata.
Qed.







(** ** C7: biggest catch *)

Lemma found_inj {A} (o o' : option A) : found o = found o' -> o = o'.
Proof. destruct o, o'; simpl; congruence. Qed.

(** C7.  When the counted big catches of a chip's competitor (status one
    of the four counted statuses) are at most one entry, the chip's
    biggestCatch is the value of that entry, and 0 when there is none. *)
Theorem biggest_catch_single snap s chip (single : option BigCatchDoc.t) :
  In chip (sectorRanking snap s) \/ In chip (standings snap s) ->
  countedBigCatches snap (Chip.id chip) = found single ->
  (forall entry,
      In entry (countedBigCatches snap (Chip.id chip)) <->
      In entry (firestoreBigCatches snap)
      /\ BigCatchDoc.competitorId entry = Chip.id chip
      /\ counted_status (BigCatchDoc.status entry)) /\
  Chip.biggestCatch chip
  = match single with
    | Some entry => BigCatchDoc.biggestCatch entry
    | None => 0%float
    end.
Proof.
  intros H Hsingle. split.
  - intros entry. unfold countedBigCatches.
    rewrite filter_In, andb_true_iff, String.eqb_eq, includes_counted. tauto.
  - apply chip_origin in H as (_ & comp & _ & E).
    pose proof (withCoefficient_fields (sectorTotalNbPrises snap s) (calculate snap s comp))
      as (Hid & _ & _ & _ & Hbig & _).
    fold (chipOf snap s comp) in Hid, Hbig. rewrite <- E in Hid, Hbig.
    assert (Chip.id chip = CompetitorDoc.id comp) as Eid by (destruct chip; exact Hid).
    assert (Chip.biggestCatch chip
            = match grossePriseEntry snap (CompetitorDoc.id comp) with
              | Some entry => BigCatchDoc.biggestCatch entry
              | None => 0%float
              end) as -> by (destruct chip; exact Hbig).
    assert (grossePriseEntry snap (CompetitorDoc.id comp) = single) as ->; [|reflexivity].
    apply found_inj. rewrite grossePriseEntry_spec, <- Eid, Hsingle.
    destruct single; reflexivity.
Qed.

Lemma biggest_catch_single_witness :
  In (sample_a1 2 3) (standings sample "A") /\
  countedBigCatches sample "a1" = [BigCatchDoc.mk "a1" 2.5 "locked_judge"] /\
  Chip.biggestCatch (sample_a1 2 3) = 2.5%float.
Proof.
  pose proof sample_a1_displayed as H.
  split; [exact H|]. split; [reflexivity|].
  exact (proj2 (biggest_catch_single sample "A" (sample_a1 2 3)
                  (Some (BigCatchDoc.mk "a1" 2.5 "locked_judge"))
                  (or_intror H) eq_refl)).
Defined.

(** ** C4: general ranking by place groups *)



(** The scenario of the specification: points 110, 0 and 253, sector total
    7, coefficients 220/7, 0 and 1265/7, sector ranks 2, 3 and 1. *)
Example scenario_sector_A :
  sectorTotalNbPrises sample "A" = 7%float /\
  map (fun c => (Chip.id c, Chip.points c, Chip.coefficient c, Chip.classementSecteur c))
    (sectorRanking sample "A")
  = [ ("a3", 253%float, (1265 / 7)%float, 1);
      ("a1", 110%float, (220 / 7)%float, 2);
      ("a2", 0%float, 0%float, 3) ].
Proof. vm_compute. split; reflexivity. Qed.

Example general_ranking_sample :
  map (fun c => (Chip.id c, Chip.classementSecteur c)) (generalRanking chipSort sample)
  = [("a3", 1); ("b1", 1); ("a1", 2); ("a2", 3)].
Proof. vm_compute. reflexivity. Qed.

(** ** C5: general ranks *)

(** C5.  The chips of the general ranking with a coefficient above 0 keep
    their order and receive the general ranks 1, 2, ..., k, where k is their
    number; the chips with coefficient 0 keep their order and all receive
    the rank 120; no chip passes both tests; the displayed rows hold these
    chips with these ranks. *)
Theorem general_ranks snap :
  map unplaced (nonZeroCompetitors chipSort snap)
  = List.filter (fun comp => (0 <? Chip.coefficient comp)%float)
      (generalRanking chipSort snap) /\
  map Chip.classementGeneral (nonZeroCompetitors chipSort snap)
  = map Z.of_nat
      (seq 1 (length (List.filter (fun comp => (0 <? Chip.coefficient comp)%float)
                        (generalRanking chipSort snap)))) /\
  map unplaced (zeroCoeffCompetitors chipSort snap)
  = List.filter (fun comp => (Chip.coefficient comp =? 0)%float)
      (generalRanking chipSort snap) /\
  Forall (fun chip => Chip.classementGeneral chip = 120) (zeroCoeffCompetitors chipSort snap) /\
  (forall chip, (0 <? Chip.coefficient chip)%float = true ->
                (Chip.coefficient chip =? 0)%float = false) /\
  (forall s,
      Permutation (standings snap s)
        (List.filter (fun chip => String.eqb (Chip.sector chip) s)
           (nonZeroCompetitors chipSort snap ++ zeroCoeffCompetitors chipSort snap))).
Proof.
  split; [apply nonZeroCompetitors_unplaced|].
  split.
  { unfold nonZeroCompetitors, forEach_indexed.
    rewrite (forEach_from_assigned Chip.set_classementGeneral Chip.classementGeneral)
      by reflexivity.
    apply map_ext. intros; lia. }
  split; [apply zeroCoeffCompetitors_unplaced|].
  split.
  { unfold zeroCoeffCompetitors. apply List.Forall_forall. intros chip Hc.
    apply in_map_iff in Hc as (c & <- & _). reflexivity. }
  split; [intros chip; apply positive_not_zero|].
  intros s; rewrite standings_row; apply js_sort_perm.
Qed.

Example general_ranks_sample :
  map (fun c => (Chip.id c, Chip.classementGeneral c))
    (nonZeroCompetitors chipSort sample ++ zeroCoeffCompetitors chipSort sample)
  = [("a3", 1); ("b1", 2); ("a1", 3); ("a2", 120)].
Proof. vm_compute. reflexivity. Qed.

(** ** C6: competitors without counted entries *)

Lemma sumHours_none snap cid :
  countedEntries snap cid = [] -> sumHours snap cid = (0%float, 0%float).
Proof. intros H. rewrite sumHours_spec, H. reflexivity. Qed.

Lemma grossePriseEntry_none snap cid :
  countedBigCatches snap cid = [] -> grossePriseEntry snap cid = None.
Proof.
  intros H. apply found_inj. rewrite grossePriseEntry_spec, H. reflexivity.
Qed.

(** A chip of the general ranking with coefficient 0 is displayed in the row
    of its sector with general rank 120. *)
Lemma zero_coefficient_displayed snap chip :
  In chip (generalRanking chipSort snap) ->
  (Chip.coefficient chip =? 0)%float = true ->
  In (Chip.set_classementGeneral chip UNRANKED) (standings snap (Chip.sector chip)).
Proof.
  intros Hin Hzero. rewrite standings_row.
  eapply Permutation_in; [symmetry; apply js_sort_perm|].
  apply filter_In. split; [|destruct chip; apply String.eqb_refl].
  apply in_or_app. right. unfold zeroCoeffCompetitors.
  apply (in_map (fun comp => Chip.set_classementGeneral comp UNRANKED)).
  apply filter_In. split; [exact Hin|exact Hzero].
Qed.

(** C6.  A competitor of a sector A-F without counted hourly entry and
    without counted big catch has a chip in the sector ranking, with
    fishCount, totalWeight, biggestCatch, points and coefficient 0; in a
    sector of at most 20 competitors, and whenever its sector rank is at
    most 20, the chip is in the general ranking and, with general rank 120,
    in the displayed row of its sector. *)
Theorem no_counted_entries snap s comp :
  In s sectors ->
  In comp (firestoreCompetitors snap) ->
  CompetitorDoc.sector comp = Some s ->
  countedEntries snap (CompetitorDoc.id comp) = [] ->
  countedBigCatches snap (CompetitorDoc.id comp) = [] ->
  exists rank,
    1 <= rank <= Z.of_nat (length (sectorCompetitors snap s)) /\
    let chip := Chip.set_classementSecteur (chipOf snap s comp) rank in
    In chip (sectorRanking snap s) /\
    Chip.id chip = CompetitorDoc.id comp /\
    Chip.fishCount chip = 0%float /\
    Chip.totalWeight chip = 0%float /\
    Chip.biggestCatch chip = 0%float /\
    Chip.points chip = 0%float /\
    Chip.coefficient chip = 0%float /\
    ((length (sectorCompetitors snap s) <= 20)%nat \/ rank <= 20 ->
       In chip (generalRanking chipSort snap)
       /\ In (Chip.set_classementGeneral chip 120) (standings snap s)).
Proof.
  intros Hs Hcomp Hsector Hnone Hnobig.
  assert (Hin : In comp (sectorCompetitors snap s))
    by (apply sectorCompetitors_In; split; assumption).
  destruct (competitor_ranked snap s comp Hs Hin) as (rank & Hrank & Hchip).
  exists rank. split; [exact Hrank|]. cbv zeta.
  pose proof Hchip as Hsorted. rewrite (sectorRanking_sector snap s Hs) in Hsorted.
  set (chip := Chip.set_classementSecteur (chipOf snap s comp) rank) in *.
  pose proof (withCoefficient_fields (sectorTotalNbPrises snap s) (calculate snap s comp))
    as (Hid & Hsec & Hfish & Hweight & Hbig & Hpoints & _).
  pose proof (withCoefficient_coefficient (sectorTotalNbPrises snap s)
                (calculate snap s comp)) as Hcoef.
  fold (chipOf snap s comp) in Hid, Hsec, Hfish, Hweight, Hbig, Hpoints, Hcoef.
  unfold calculate in Hid, Hsec, Hfish, Hweight, Hbig, Hpoints, Hcoef.
  cbn [Chip.id Chip.sector Chip.fishCount Chip.totalWeight Chip.biggestCatch Chip.points]
    in Hid, Hsec, Hfish, Hweight, Hbig, Hpoints, Hcoef.
  rewrite (sumHours_none snap _ Hnone) in Hfish, Hweight, Hpoints, Hcoef.
  rewrite (grossePriseEntry_none snap _ Hnobig) in Hbig.
  cbn [fst snd] in Hfish, Hweight, Hpoints, Hcoef.
  assert (Hzero : Chip.coefficient chip = 0%float).
  { change (Chip.coefficient chip) with (Chip.coefficient (chipOf snap s comp)).
    rewrite Hcoef. destruct (0 <? sectorTotalNbPrises snap s)%float eqn:E; [|reflexivity].
    change (0 * POINTS_PER_FISH + 0)%float with 0%float.
    change (0 * 0)%float with 0%float.
    apply zero_div, E. }
  assert (Hsec' : Chip.sector chip = s).
  { change (Chip.sector chip) with (Chip.sector (chipOf snap s comp)).
    rewrite Hsec, Hsector. reflexivity. }
  split; [exact Hchip|]. split; [exact Hid|]. split; [exact Hfish|].
  split; [exact Hweight|]. split; [exact Hbig|]. split; [exact Hpoints|].
  split; [exact Hzero|].
  intros Hle.
  assert (Hle' : rank <= LAST_PLACE) by (unfold LAST_PLACE; lia).
  assert (Hg : In chip (generalRanking chipSort snap)).
  { apply generalRanking_In. exists s. split; [exact Hs|]. split; [exact Hsorted|exact Hle']. }
  split; [exact Hg|].
  assert (Hz : (Chip.coefficient chip =? 0)%float = true) by (rewrite Hzero; reflexivity).
  pose proof (zero_coefficient_displayed snap chip Hg Hz) as Hrow.
  rewrite Hsec' in Hrow. exact Hrow.
Qed.

Lemma no_counted_entries_witness :
  In (competitorDoc "a2" 1 (Some "A")) (firestoreCompetitors sample) /\
  countedEntries sample "a2" = [] /\
  exists rank chip,
    In chip (sectorRanking sample "A") /\ Chip.id chip = "a2" /\
    Chip.classementSecteur chip = rank /\ Chip.points chip = 0%float /\
    In (Chip.set_classementGeneral chip 120) (standings sample "A").
Proof.
  assert (H : In (competitorDoc "a2" 1 (Some "A")) (firestoreCompetitors sample))
    by (right; left; reflexivity).
  split; [exact H|]. split; [reflexivity|].
  destruct (no_counted_entries sample "A" (competitorDoc "a2" 1 (Some "A"))
              (or_introl eq_refl) H eq_refl eq_refl eq_refl)
    as (rank & _ & Hchip & Hid & _ & _ & _ & Hpoints & _ & Hrow).
  exists rank, (Chip.set_classementSecteur
                  (chipOf sample "A" (competitorDoc "a2" 1 (Some "A"))) rank).
  split; [exact Hchip|]. split; [exact Hid|]. split; [reflexivity|].
  split; [exact Hpoints|]. apply Hrow. left. vm_compute. lia.
Defined.

(** ** What the memo depends on *)

Lemma fold_left_ext {A B} (f g : A -> B -> A) (l : list B) (a : A) :
  (forall acc x, In x l -> f acc x = g acc x) -> fold_left f l a = fold_left g l a.
Proof.
  revert a. induction l as [|x l IH]; intros a H; simpl; [reflexivity|].
  rewrite H by now left. apply IH. intros; apply H; now right.
Qed.

Section Dependence.
Variables srt1 srt2 : chip_sort.
Variables snap1 snap2 : Snapshot.

Lemma sumHours_ext cid :
  (forall h, In h hours -> hourEntries snap1 cid h = hourEntries snap2 cid h) ->
  sumHours snap1 cid = sumHours snap2 cid.
Proof.
  intros H. rewrite !sumHours_flat. f_equal. apply flat_map_ext_in, H.
Qed.

Lemma calculate_ext s comp :
  (forall cid, sumHours snap1 cid = sumHours snap2 cid) ->
  firestoreBigCatches snap1 = firestoreBigCatches snap2 ->
  calculate snap1 s comp = calculate snap2 s comp.
Proof.
  intros Hsum Hbig. unfold calculate, grossePriseEntry. rewrite Hsum, Hbig. reflexivity.
Qed.

Lemma sectorSorted_ext s :
  sectorCompetitors snap1 s = sectorCompetitors snap2 s ->
  (forall comp, calculate snap1 s comp = calculate snap2 s comp) ->
  srt1 float _ byPoints (sectorCoefficients snap2 s)
  = srt2 float _ byPoints (sectorCoefficients snap2 s) ->
  sectorSorted srt1 snap1 s = sectorSorted srt2 snap2 s.
Proof.
  intros Hcomps Hcalc Hsort.
  assert (Hcalculated : sectorCalculated snap1 s = sectorCalculated snap2 s).
  { unfold sectorCalculated. rewrite Hcomps. apply map_ext, Hcalc. }
  unfold sectorSorted. rewrite <- Hsort.
  unfold sectorCoefficients, sectorTotalNbPrises.
  rewrite Hcalculated. reflexivity.
Qed.

Hypothesis Hsectors :
  forall s, In s sectors -> sectorSorted srt1 snap1 s = sectorSorted srt2 snap2 s.
Hypothesis HbyCoefficient :
  forall place,
    srt1 float _ byCoefficient (placeGroup srt2 snap2 place)
    = srt2 float _ byCoefficient (placeGroup srt2 snap2 place).
Hypothesis HbyBoxNumber : forall l, srt1 Z _ byBoxNumber l = srt2 Z _ byBoxNumber l.

Lemma sectorCalculations_ext :
  sectorCalculations srt1 snap1 = sectorCalculations srt2 snap2.
Proof.
  unfold sectorCalculations. apply fold_left_ext.
  intros calc s Hs. rewrite (Hsectors s Hs). reflexivity.
Qed.

Lemma placeGroup_ext place : placeGroup srt1 snap1 place = placeGroup srt2 snap2 place.
Proof. unfold placeGroup. rewrite sectorCalculations_ext. reflexivity. Qed.

Lemma generalRanking_ext : generalRanking srt1 snap1 = generalRanking srt2 snap2.
Proof.
  unfold generalRanking. apply fold_left_ext.
  intros ranking place _. rewrite placeGroup_ext, HbyCoefficient. reflexivity.
Qed.

Lemma competitorsBySector_ext :
  competitorsBySector srt1 snap1 = competitorsBySector srt2 snap2.
Proof.
  unfold competitorsBySector, nonZeroCompetitors, zeroCoeffCompetitors.
  rewrite generalRanking_ext. apply map_fmap_ext. intros s l _. apply HbyBoxNumber.
Qed.
End Dependence.

(** ** C8: malformed input *)

Lemma hour_outside (hour : option Z) h :
  hourInRange hour = false -> In h hours -> strict_eq_Z hour h = false.
Proof.
  intros Hout Hh. apply hours_spec in Hh. destruct hour as [z|]; simpl in *; [|reflexivity].
  apply Z.eqb_neq. intros ->.
  apply andb_false_iff in Hout as [H|H]; apply Z.leb_gt in H; lia.
Qed.

Lemma entry_outside_hours_ignored comps bigs pre post entry :
  hourInRange (HourlyEntryDoc.hour entry) = false ->
  competitors (mkSnapshot comps (pre ++ entry :: post) bigs)
  = competitors (mkSnapshot comps (pre ++ post) bigs).
Proof.
  intros Hout. apply competitorsBySector_ext; try reflexivity.
  intros s _. apply sectorSorted_ext; try reflexivity.
  intros comp. apply calculate_ext; [|reflexivity].
  intros cid. apply sumHours_ext. intros h Hh.
  unfold hourEntries. cbn [firestoreHourlyEntries].
  rewrite !List.filter_app. f_equal. cbn [List.filter].
  rewrite (hour_outside _ h Hout Hh), andb_false_r. reflexivity.
Qed.

Lemma competitor_outside_sectors_ignored hourly bigs pre post comp :
  (forall s, In s sectors -> CompetitorDoc.sector comp <> Some s) ->
  competitors (mkSnapshot (pre ++ comp :: post) hourly bigs)
  = competitors (mkSnapshot (pre ++ post) hourly bigs).
Proof.
  intros Hout. apply competitorsBySector_ext; try reflexivity.
  intros s Hs. apply sectorSorted_ext; [|intros c; apply calculate_ext|]; try reflexivity.
  unfold sectorCompetitors. cbn [firestoreCompetitors].
  rewrite !List.filter_app. f_equal. cbn [List.filter].
  specialize (Hout s Hs).
  destruct (CompetitorDoc.sector comp) as [x|]; simpl; [|reflexivity].
  destruct (String.eqb_spec x s); [congruence|reflexivity].
Qed.

Lemma empty_sector_row snap s :
  sectorCompetitors snap s = [] ->
  sectorRanking snap s = [] /\ standings snap s = [].
Proof.
  intros Hempty.
  assert (Hsorted : sectorSorted chipSort snap s = []).
  { apply length_zero_iff_nil. rewrite sectorSorted_length, Hempty. reflexivity. }
  split.
  { unfold sectorRanking. rewrite sectorCalculations_lookup, Hsorted.
    destruct (existsb _ sectors); reflexivity. }
  destruct (standings snap s) as [|chip row] eqn:E; [reflexivity|exfalso].
  assert (Hin : In chip (standings snap s)) by (rewrite E; left; reflexivity).
  apply standings_within in Hin as [_ Hin]. apply filter_In in Hin as [Hin _].
  rewrite Hsorted in Hin. exact Hin.
Qed.

(** C8.  An hourly entry whose hour is missing or outside 1..7 changes
    nothing in the computed rows, wherever it stands in the snapshot; a
    competitor whose sector is missing or not one of A-F changes nothing
    either; and a sector without competitors has an empty sector ranking and
    an empty row. *)
Theorem malformed_input_isolated :
  (forall comps bigs pre post entry,
      HourlyEntryDoc.hour entry = None
      \/ (exists h, HourlyEntryDoc.hour entry = Some h /\ (h < 1 \/ 7 < h)) ->
      competitors (mkSnapshot comps (pre ++ entry :: post) bigs)
      = competitors (mkSnapshot comps (pre ++ post) bigs)) /\
  (forall hourly bigs pre post comp,
      CompetitorDoc.sector comp = None
      \/ (exists x, CompetitorDoc.sector comp = Some x /\ ~ In x sectors) ->
      competitors (mkSnapshot (pre ++ comp :: post) hourly bigs)
      = competitors (mkSnapshot (pre ++ post) hourly bigs)) /\
  (forall snap s,
      sectorCompetitors snap s = [] ->
      sectorRanking snap s = [] /\ standings snap s = []).
Proof.
  split; [|split].
  - intros comps bigs pre post entry H. apply entry_outside_hours_ignored.
    destruct H as [->|(h & -> & H)]; [reflexivity|]. simpl.
    apply andb_false_iff. rewrite !Z.leb_gt. lia.
  - intros hourly bigs pre post comp H. apply competitor_outside_sectors_ignored.
    intros s Hs. destruct H as [->|(x & -> & H)]; [discriminate|].
    intros [= ->]. contradiction.
  - apply empty_sector_row.
Qed.

(** The rows of [sample] are those of [sample] without its two stray
    competitors and its two stray entries, and sector C has an empty row. *)
Lemma malformed_input_sample :
  competitors sample
  = competitors
      (mkSnapshot sample_valid_competitors
         (sample_valid_entries ++ [HourlyEntryDoc.mk "b1" (Some 3) 1 1.5 "offline_judge"])
         (firestoreBigCatches sample))
  /\ standings sample "C" = [].
Proof.
  pose proof malformed_input_isolated as (Hhour & Hsector & Hempty).
  split; [|apply (Hempty sample "C"); reflexivity].
  etransitivity.
  { exact (Hsector (firestoreHourlyEntries sample) (firestoreBigCatches sample)
             (sample_valid_competitors ++ [competitorDoc "z1" 1 (Some "Z")]) []
             (competitorDoc "n1" 1 None) (or_introl eq_refl)). }
  etransitivity.
  { refine (Hsector (firestoreHourlyEntries sample) (firestoreBigCatches sample)
              sample_valid_competitors [] (competitorDoc "z1" 1 (Some "Z")) _).
    right. exists "Z". split; [reflexivity|].
    unfold sectors. simpl. intuition discriminate. }
  etransitivity.
  { exact (Hhour sample_valid_competitors (firestoreBigCatches sample)
             (sample_valid_entries ++ [HourlyEntryDoc.mk "a2" (Some 9) 2 2 "locked_judge"])
             [HourlyEntryDoc.mk "b1" (Some 3) 1 1.5 "offline_judge"]
             (HourlyEntryDoc.mk "a2" None 2 2 "locked_judge") (or_introl eq_refl)). }
  refine (Hhour sample_valid_competitors (firestoreBigCatches sample)
            sample_valid_entries
            [HourlyEntryDoc.mk "b1" (Some 3) 1 1.5 "offline_judge"]
            (HourlyEntryDoc.mk "a2" (Some 9) 2 2 "locked_judge") _).
  right. exists 9. split; [reflexivity|lia].
Defined.

(** ** The engine's sort *)

Section SortLeftFacts.
Context {A N : Type} `{Compared N} (cmp : A -> A -> N).

Lemma insert_last_perm x l : Permutation (insert_last cmp x l) (l ++ [x]).
Proof.
  induction l as [|y l IH]; simpl; [reflexivity|].
  destruct (above_zero (cmp y x)); [|now constructor].
  change (x :: y :: l) with ([x] ++ (y :: l)).
  change (y :: l ++ [x]) with ((y :: l) ++ [x]). apply Permutation_app_comm.
Qed.

Variable P : A -> Prop.
Hypothesis Hcmp : consistent cmp P.

Lemma insert_last_sorted x l :
  P x -> List.Forall P l ->
  StronglySorted (before cmp) l -> StronglySorted (before cmp) (insert_last cmp x l).
Proof.
  intros Px Pl Hs. induction Hs as [|y l Hl IH Hy]; simpl.
  - repeat constructor.
  - apply List.Forall_cons_iff in Pl as [Py Pl].
    destruct (above_zero (cmp y x)) eqn:E.
    + assert (Hxy : before cmp x y).
      { apply (before_total cmp P Hcmp); [exact Py | exact Px |].
        unfold before. congruence. }
      constructor; [now constructor|].
      constructor; [exact Hxy|].
      rewrite List.Forall_forall in *. intros z Hz.
      apply (before_trans cmp P Hcmp) with y; auto.
    + constructor; [apply IH, Pl|].
      eapply Permutation_Forall; [symmetry; apply insert_last_perm|].
      apply Forall_app. split; [exact Hy|]. constructor; [exact E|constructor].
Qed.

Lemma insert_last_stable z x l :
  P z -> P x -> List.Forall P l ->
  StronglySorted (before cmp) l ->
  List.filter (tie cmp z) (insert_last cmp x l)
  = List.filter (tie cmp z) l ++ List.filter (tie cmp z) [x].
Proof.
  intros Pz Px Pl Hs. induction Hs as [|y l Hl IH Hy]; [reflexivity|].
  pose proof Pl as Pyl.
  apply List.Forall_cons_iff in Pl as [Py Pl]. specialize (IH Pl).
  cbn [insert_last]. destruct (above_zero (cmp y x)) eqn:E.
  - cbn [List.filter] in *. destruct (tie cmp z x) eqn:Ex; [|now rewrite app_nil_r].
    assert (Hnone : List.filter (tie cmp z) (y :: l) = []).
    { apply filter_none. intros w Hw. apply not_true_is_false. intros Ew.
      assert (Pw : P w) by (rewrite List.Forall_forall in Pyl; apply Pyl, Hw).
      apply (tie_true cmp P Hcmp) in Ex, Ew; try assumption.
      destruct Ex as [Hzx _], Ew as [_ Hwz].
      assert (Hyw : before cmp y w).
      { destruct Hw as [<-|Hw].
        - apply (before_refl cmp P Hcmp), Py.
        - rewrite List.Forall_forall in Hy. now apply Hy. }
      assert (Hyx : before cmp y x).
      { apply (before_trans cmp P Hcmp) with w; try assumption.
        now apply (before_trans cmp P Hcmp) with z. }
      unfold before in Hyx. congruence. }
    cbn [List.filter] in Hnone. rewrite Hnone. reflexivity.
  - cbn [List.filter] in *. rewrite IH. now destruct (tie cmp z y).
Qed.

Lemma sort_left_from acc l :
  List.Forall P acc -> List.Forall P l ->
  StronglySorted (before cmp) acc ->
  stable_sort_of cmp P (acc ++ l) (fold_left (fun acc x => insert_last cmp x acc) l acc).
Proof.
  revert acc. induction l as [|x l IH]; intros acc Pacc Pl Hacc; simpl.
  - rewrite app_nil_r. now split.
  - apply List.Forall_cons_iff in Pl as [Px Pl].
    assert (Pacc' : List.Forall P (insert_last cmp x acc)).
    { eapply Permutation_Forall; [symmetry; apply insert_last_perm|].
      apply Forall_app. split; [exact Pacc|]. now constructor. }
    destruct (IH (insert_last cmp x acc) Pacc' Pl (insert_last_sorted x acc Px Pacc Hacc))
      as [Hp Hs Hf].
    split; [|exact Hs|].
    + rewrite Hp, insert_last_perm, <- app_assoc. reflexivity.
    + intros z Pz. rewrite (Hf z Pz), !List.filter_app, insert_last_stable by assumption.
      cbn [List.filter]. destruct (tie cmp z x); rewrite <- app_assoc; reflexivity.
Qed.

Lemma sort_left_stable_sort l :
  List.Forall P l -> stable_sort_of cmp P l (sort_left cmp l).
Proof. intros Pl. apply (sort_left_from [] l); [constructor | exact Pl | constructor]. Qed.
End SortLeftFacts.

Lemma js_sort_conforming : conforming chipSort.
Proof. intros N cmpN cmp P Hcmp l Pl. now apply js_sort_stable_sort. Qed.

Lemma sort_left_conforming : conforming chipSortLeft.
Proof. intros N cmpN cmp P Hcmp l Pl. now apply sort_left_stable_sort. Qed.

Lemma conforming_unique srt1 srt2 N (cmpN : Compared N) (cmp : Chip.t -> Chip.t -> N) P l :
  conforming srt1 -> conforming srt2 -> consistent cmp P -> List.Forall P l ->
  srt1 N cmpN cmp l = srt2 N cmpN cmp l.
Proof.
  intros H1 H2 Hcmp Pl.
  apply (stable_sort_unique cmp P Hcmp l); [exact Pl | apply H1 | apply H2]; assumption.
Qed.

(** The chips of a sector, once their coefficients are assigned, are the
    chips of the sector ranking without their ranks. *)
Lemma sectorCoefficients_In snap s c :
  In c (sectorCoefficients snap s) ->
  exists chip, In chip (sectorSorted chipSort snap s) /\ unranked chip = c.
Proof.
  intros Hc. rewrite sectorCoefficients_chipOf in Hc.
  eapply Permutation_in in Hc; [|symmetry; apply sectorSorted_perm].
  apply in_map_iff in Hc as (chip & E & Hchip). eauto.
Qed.

Lemma placeGroup_In snap place c :
  In c (placeGroup chipSort snap place) ->
  exists s, In s sectors /\ In c (sectorSorted chipSort snap s).
Proof.
  rewrite placeGroup_atPlace, in_flat_map. intros (s & Hs & Hc).
  apply filter_In in Hc as [Hc _]. eauto.
Qed.

(** X19.  Whatever stable sort the engine runs, the memo has the value that
    the reference sort gives it, and so have the general ranking and the
    sector rankings, when the points, the coefficients and the biggest
    catches of the sector rankings are numbers. *)
Theorem engine_independent srt snap :
  conforming srt ->
  (forall s chip, In chip (sectorRanking snap s) ->
                  a_number (Chip.points chip) /\ scored chip) ->
  competitorsBySector srt snap = competitors snap /\
  generalRanking srt snap = generalRanking chipSort snap /\
  sectorCalculations srt snap = sectorCalculations chipSort snap.
Proof.
  intros Hsrt Hnum.
  assert (Hsectors : forall s, In s sectors ->
                               sectorSorted srt snap s = sectorSorted chipSort snap s).
  { intros s Hs. apply sectorSorted_ext; try reflexivity.
    apply (conforming_unique srt chipSort float _ byPoints
             (fun chip => a_number (Chip.points chip)));
      auto using js_sort_conforming, byPoints_consistent.
    apply List.Forall_forall. intros c Hc.
    apply sectorCoefficients_In in Hc as (chip & Hchip & <-).
    apply (Hnum s chip). rewrite (sectorRanking_sector snap s Hs). exact Hchip. }
  assert (Hgroups : forall place,
             srt float _ byCoefficient (placeGroup chipSort snap place)
             = chipSort float _ byCoefficient (placeGroup chipSort snap place)).
  { intros place.
    apply (conforming_unique srt chipSort float _ byCoefficient scored);
      auto using js_sort_conforming, byCoefficient_consistent.
    apply List.Forall_forall. intros c Hc.
    apply placeGroup_In in Hc as (s & Hs & Hc).
    apply (Hnum s c). rewrite (sectorRanking_sector snap s Hs). exact Hc. }
  assert (Hboxes : forall l, srt Z _ byBoxNumber l = chipSort Z _ byBoxNumber l).
  { intros l.
    apply (conforming_unique srt chipSort Z _ byBoxNumber (fun _ => True));
      auto using js_sort_conforming, byBoxNumber_consistent.
    apply List.Forall_forall. intros; exact I. }
  split; [|split].
  - apply competitorsBySector_ext; assumption.
  - apply generalRanking_ext; assumption.
  - apply sectorCalculations_ext; assumption.
Qed.

Lemma sample_numbers s chip :
  In chip (sectorRanking sample s) -> a_number (Chip.points chip) /\ scored chip.
Proof.
  intros Hchip. destruct (sectorRanking_In sample s chip Hchip) as [Hs Hin].
  unfold sectors in Hs. simpl in Hs.
  destruct Hs as [<-|[<-|[<-|[<-|[<-|[<-|[]]]]]]]; vm_compute in Hin;
    repeat (destruct Hin as [<-|Hin]; [repeat split|]); destruct Hin.
Qed.

Lemma engine_independent_witness :
  competitorsBySector chipSortLeft sample = competitors sample /\
  generalRanking chipSortLeft sample = generalRanking chipSort sample.
Proof.
  destruct (engine_independent chipSortLeft sample sort_left_conforming sample_numbers)
    as (Hrows & Hgeneral & _).
  split; [exact Hrows|exact Hgeneral].
Defined.

(** ** C10: beyond the last place *)

Lemma nan_div x t : is_nan x = true -> is_nan (x / t) = true.
Proof.
  rewrite !is_nan_spec, FloatAxioms.div_spec.
  destruct (Prim2SF x); try discriminate. reflexivity.
Qed.

(** With fish counts and weights that are not negative, a coefficient that
    is a number is not negative. *)
Lemma coefficient_nonneg snap s chip :
  nonnegative_entries snap ->
  In chip (sectorRanking snap s) \/ In chip (standings snap s) ->
  a_number (Chip.coefficient chip) ->
  nonneg (Chip.coefficient chip).
Proof.
  intros Hdata Hchip.
  pose proof (chip_points_nonneg snap s chip Hdata Hchip) as Hp.
  assert (Hf : nonneg (Chip.fishCount chip)).
  { destruct (chip_origin snap s chip Hchip) as (_ & comp & _ & E).
    change (Chip.fishCount chip) with (Chip.fishCount (unranked (unplaced chip))).
    rewrite E. unfold chipOf.
    destruct (withCoefficient_fields (sectorTotalNbPrises snap s) (calculate snap s comp))
      as (_ & _ & -> & _).
    apply (sumHours_nonneg snap (CompetitorDoc.id comp) Hdata). }
  rewrite (chip_coefficient snap s chip Hchip).
  destruct (0 <? sectorTotalFish snap s)%float eqn:Ht; [|reflexivity].
  intros Hnum. apply div_nonneg; [|exact Ht|exact Hnum].
  apply mul_nonneg; [exact Hp|exact Hf|].
  destruct (is_nan_cases (Chip.points chip * Chip.fishCount chip)) as [H|H]; [exact H|].
  apply (nan_div _ (sectorTotalFish snap s)) in H. unfold a_number in Hnum. congruence.
Qed.

Lemma key_unique {A} (key : A -> Z) (l : list A) a b :
  List.NoDup (map key l) -> In a l -> In b l -> key a = key b -> a = b.
Proof.
  induction l as [|x l IH]; simpl; [tauto|].
  intros H. apply List.NoDup_cons_iff in H as [Hx H].
  intros [->|Ha] [->|Hb] E; auto.
  - exfalso. apply Hx. rewrite E. now apply in_map.
  - exfalso. apply Hx. rewrite <- E. now apply in_map.
Qed.

Lemma atPlace_own snap s chip :
  In chip (sectorSorted chipSort snap s) ->
  atPlace snap s (Chip.classementSecteur chip) = [chip].
Proof.
  intros Hchip.
  assert (Hin : In chip (atPlace snap s (Chip.classementSecteur chip))).
  { apply filter_In. split; [exact Hchip|apply Z.eqb_refl]. }
  pose proof (atPlace_length snap s (Chip.classementSecteur chip)) as Hlen.
  destruct (atPlace snap s (Chip.classementSecteur chip)) as [|x [|y r]];
    simpl in Hin, Hlen; [tauto| |lia].
  destruct Hin as [->|[]]. reflexivity.
Qed.

Lemma standings_outside snap s : ~ In s sectors -> standings snap s = [].
Proof.
  intros Hs. destruct (standings snap s) as [|shown row] eqn:E; [reflexivity|exfalso].
  assert (Hin : In shown (standings snap s)) by (rewrite E; now left).
  apply standings_within in Hin as [Hin _]. contradiction.
Qed.

(** C10 as stated fails.  In [negative_count] the competitor [n], with -1
    fish and 100 of weight, has 50 points, sector rank 2 and the
    coefficient -25; it is collected into the group of place 2 and is in the
    general ranking, passes neither the test for a coefficient above 0 nor
    the test for the coefficient 0, and is shown in no row.  In
    [overflowed], where no fish count and no weight is negative, the
    competitor [w] has sector rank 1 and a coefficient that is NaN, and is
    shown in no row either. *)
Lemma ranked_chip_omitted :
  (exists chip,
      In chip (sectorRanking negative_count "A") /\
      Chip.id chip = "n" /\
      Chip.classementSecteur chip = 2 /\
      Chip.coefficient chip = (-25)%float /\
      In chip (generalRanking chipSort negative_count) /\
      (forall s, List.filter (fun shown => String.eqb (Chip.id shown) "n")
                   (standings negative_count s) = [])) /\
  (exists chip,
      nonnegative_entries overflowed /\
      In chip (sectorRanking overflowed "A") /\
      Chip.id chip = "w" /\
      Chip.classementSecteur chip = 1 /\
      is_nan (Chip.coefficient chip) = true /\
      In chip (generalRanking chipSort overflowed) /\
      (forall s, List.filter (fun shown => String.eqb (Chip.id shown) "w")
                   (standings overflowed s) = [])).
Proof.
  split.
  - exists (Chip.set_classementSecteur
              (chipOf negative_count "A" (competitorDoc "n" 2 (Some "A"))) 2).
    split; [vm_compute; right; left; reflexivity|].
    split; [reflexivity|]. split; [reflexivity|]. split; [vm_compute; reflexivity|].
    split; [vm_compute; right; left; reflexivity|].
    intros s. destruct (in_dec string_dec s sectors) as [Hs|Hs].
    + unfold sectors in Hs. simpl in Hs.
      destruct Hs as [<-|[<-|[<-|[<-|[<-|[<-|[]]]]]]]; vm_compute; reflexivity.
    + now rewrite standings_outside.
  - exists (Chip.set_classementSecteur
              (chipOf overflowed "A" (competitorDoc "w" 2 (Some "A"))) 1).
    split; [repeat (constructor; [split; reflexivity|]); constructor|].
    split; [vm_compute; left; reflexivity|].
    split; [reflexivity|]. split; [reflexivity|]. split; [vm_compute; reflexivity|].
    split; [vm_compute; left; reflexivity|].
    intros s. destruct (in_dec string_dec s sectors) as [Hs|Hs].
    + unfold sectors in Hs. simpl in Hs.
      destruct Hs as [<-|[<-|[<-|[<-|[<-|[<-|[]]]]]]]; vm_compute; reflexivity.
    + now rewrite standings_outside.
Qed.

(** C10, amended.  In a sector A-F, a chip of the sector ranking is in the
    general ranking exactly when its sector rank is at most 20; a chip whose
    sector rank is above 20 is shown nowhere in the row of its sector; a
    chip shown with its sector rank is that chip with a general rank; the
    row is, up to order and general ranks, the chips of the sector ranking
    whose sector rank is at most 20 and whose coefficient is 0 or above 0,
    each chip of the sector ranking being shown once when its sector rank is
    at most 20 and its coefficient is 0 or above 0, and not at all
    otherwise; and with fish counts and weights not negative, a coefficient
    that is a number is 0 or above 0. *)
Theorem beyond_last_place snap s chip :
  In s sectors ->
  In chip (sectorRanking snap s) ->
  (In chip (generalRanking chipSort snap) <-> Chip.classementSecteur chip <= 20) /\
  (20 < Chip.classementSecteur chip ->
   List.filter (fun shown => Chip.classementSecteur shown =? Chip.classementSecteur chip)
     (standings snap s) = []) /\
  (forall shown,
      In shown (standings snap s) ->
      Chip.classementSecteur shown = Chip.classementSecteur chip ->
      unplaced shown = chip) /\
  Permutation (map unplaced (standings snap s))
    (List.filter (fun comp => (Chip.classementSecteur comp <=? 20) && displayable comp)
       (sectorRanking snap s)) /\
  length (List.filter
            (fun shown => Chip.classementSecteur shown =? Chip.classementSecteur chip)
            (standings snap s))
  = (if (Chip.classementSecteur chip <=? 20) && displayable chip then 1%nat else 0%nat) /\
  (displayable chip = true <->
   (Chip.coefficient chip =? 0)%float = true \/ (0 <? Chip.coefficient chip)%float = true) /\
  (nonnegative_entries snap -> a_number (Chip.coefficient chip) -> displayable chip = true).
Proof.
  intros Hs Hchip.
  assert (Hdata : nonnegative_entries snap -> a_number (Chip.coefficient chip) ->
                  displayable chip = true).
  { intros Hdata Hnum. apply nonneg_tests.
    apply (coefficient_nonneg snap s chip Hdata (or_introl Hchip) Hnum). }
  rewrite (sectorRanking_sector snap s Hs) in *.
  set (same := fun shown => Chip.classementSecteur shown =? Chip.classementSecteur chip).
  assert (Hperm : Permutation (map unplaced (standings snap s))
                    (List.filter
                       (fun comp => (Chip.classementSecteur comp <=? 20) && displayable comp)
                       (sectorSorted chipSort snap s))).
  { rewrite (standings_perm snap s Hs). unfold withinPlaces. rewrite filter_filter.
    reflexivity. }
  split; [|split; [|split; [|split; [|split; [|split]]]]].
  - split.
    + intros Hg. destruct (proj1 (generalRanking_In snap chip) Hg) as (k & _ & Hk & Hle).
      exact Hle.
    + intros Hle. apply generalRanking_In. exists s.
      split; [exact Hs|]. split; [exact Hchip|exact Hle].
  - intros Hgt. apply filter_none. intros shown Hshown.
    apply standings_within in Hshown as [_ Hshown]. apply filter_In in Hshown as [_ Hle].
    apply Z.leb_le in Hle. change (Chip.classementSecteur shown <= 20) in Hle.
    unfold same. apply Z.eqb_neq. lia.
  - intros shown Hshown Hrank.
    apply standings_within in Hshown as [_ Hshown]. apply filter_In in Hshown as [Hshown _].
    apply (key_unique Chip.classementSecteur (sectorSorted chipSort snap s)).
    + apply sectorSorted_ranks_NoDup.
    + exact Hshown.
    + exact Hchip.
    + rewrite <- Hrank. destruct shown; reflexivity.
  - exact Hperm.
  - transitivity (length (List.filter same (map unplaced (standings snap s)))).
    { rewrite (filter_map_swap same unplaced), length_map. reflexivity. }
    rewrite (Permutation_length (filter_perm same _ _ Hperm)).
    rewrite filter_comm.
    change (List.filter same (sectorSorted chipSort snap s))
      with (atPlace snap s (Chip.classementSecteur chip)).
    rewrite (atPlace_own snap s chip Hchip). cbn [List.filter].
    destruct ((Chip.classementSecteur chip <=? 20) && displayable chip); reflexivity.
  - unfold displayable. apply orb_true_iff.
  - exact Hdata.
Qed.

Lemma beyond_last_place_witness :
  In "A" sectors /\
  In (sample_a1 2 0) (sectorRanking sample "A") /\
  In (sample_a1 2 0) (generalRanking chipSort sample) /\
  length (List.filter (fun shown => Chip.classementSecteur shown =? 2) (standings sample "A"))
  = 1%nat.
Proof.
  assert (Hs : In "A" sectors) by (left; reflexivity).
  assert (Hchip : In (sample_a1 2 0) (sectorRanking sample "A"))
    by (vm_compute; right; left; reflexivity).
  destruct (beyond_last_place sample "A" (sample_a1 2 0) Hs Hchip)
    as (Hgeneral & _ & _ & _ & Hrow & _).
  split; [exact Hs|]. split; [exact Hchip|].
  split; [apply Hgeneral; simpl; lia|exact Hrow].
Defined.

(** In [crowded] the chip ranked 21st is shown in no row. *)
Example beyond_last_place_crowded :
  map Chip.id (List.filter (fun shown => 20 <? Chip.classementSecteur shown)
                 (sectorRanking crowded "A")) = ["u"]
  /\ length (standings crowded "A") = 20%nat
  /\ List.filter (fun shown => String.eqb (Chip.id shown) "u") (standings crowded "A") = [].
Proof. vm_compute. repeat split. Qed.

(** In [overflowed] the chip of [w], ranked first in its sector with
    infinite points, has a coefficient that is NaN and is shown in no row. *)
Example beyond_last_place_overflowed :
  map (fun c => (Chip.id c, Chip.classementSecteur c, is_nan (Chip.coefficient c),
                 displayable c))
    (sectorRanking overflowed "A")
  = [("w", 1, true, false); ("v", 2, false, true)]
  /\ map (fun c => (Chip.id c, Chip.classementGeneral c)) (standings overflowed "A")
     = [("v", 1)].
Proof. vm_compute. split; reflexivity. Qed.

(** * Further properties of the memo and of its display *)

(** ** Rows *)

Lemma filter_exclusive_length {A} (f g : A -> bool) (l : list A) :
  (forall x, f x = true -> g x = false) ->
  (length (List.filter f l) + length (List.filter g l) <= length l)%nat.
Proof.
  intros H. induction l as [|x l IH]; simpl; [lia|].
  destruct (f x) eqn:E; [rewrite (H x E)|destruct (g x)]; simpl; lia.
Qed.

Lemma withinPlaces_length snap s : (length (withinPlaces snap s) <= 20)%nat.
Proof.
  rewrite <- (length_map Chip.classementSecteur).
  change 20%nat with (length places).
  apply NoDup_incl_length.
  - unfold withinPlaces.
    assert (H := sectorSorted_ranks_NoDup snap s).
    induction (sectorSorted chipSort snap s) as [|c l IH]; simpl; [constructor|].
    simpl in H. apply List.NoDup_cons_iff in H as [Hc H].
    destruct (Chip.classementSecteur c <=? LAST_PLACE); [|now apply IH].
    simpl. constructor; [|now apply IH].
    intros Hin. apply Hc. apply in_map_iff in Hin as (x & E & Hx).
    apply filter_In in Hx as [Hx _]. rewrite <- E. now apply in_map.
  - intros r Hr. apply in_map_iff in Hr as (c & <- & Hc).
    apply filter_In in Hc as [Hc Hle]. apply Z.leb_le in Hle.
    apply places_spec. split; [|exact Hle].
    apply (sectorSorted_rank_positive snap s c Hc).
Qed.

Lemma standings_length snap s : (length (standings snap s) <= 20)%nat.
Proof.
  destruct (in_dec string_dec s sectors) as [Hs|Hs].
  2:{ destruct (standings snap s) as [|c l] eqn:E; [simpl; lia|exfalso].
      apply Hs. apply (standings_within snap s c). rewrite E. now left. }
  rewrite <- (length_map unplaced), standings_row.
  rewrite (Permutation_length (Permutation_map unplaced (js_sort_perm _ _))).
  set (sec := fun c => String.eqb (Chip.sector c) s).
  assert (forall l, map unplaced (List.filter sec l) = List.filter sec (map unplaced l)) as ->
    by (intros l; symmetry; apply (filter_map_swap sec unplaced)).
  rewrite map_app, nonZeroCompetitors_unplaced, zeroCoeffCompetitors_unplaced.
  rewrite List.filter_app, (filter_comm sec), (filter_comm sec), length_app.
  etransitivity; [apply filter_exclusive_length; intros x; apply positive_not_zero|].
  unfold sec. rewrite (Permutation_length (generalRanking_sector snap s Hs)).
  apply withinPlaces_length.
Qed.

Lemma firstn_min {A} (n : nat) (l : list A) : firstn (Nat.min n (length l)) l = firstn n l.
Proof.
  destruct (Nat.le_ge_cases n (length l)) as [H|H].
  - now rewrite Nat.min_l.
  - rewrite Nat.min_r by exact H. now rewrite !firstn_all2 by lia.
Qed.

(** Within the array, [slice] takes the elements from [start] up to
    [finish]. *)
Lemma slice_within {A} (start finish : nat) (arr : list A) :
  (start <= finish)%nat ->
  slice (Z.of_nat start) (Z.of_nat finish) arr = firstn (finish - start) (skipn start arr).
Proof.
  intros Hle. unfold slice.
  destruct (Z.ltb_spec (Z.of_nat start) 0) as [?|_]; [lia|].
  destruct (Z.ltb_spec (Z.of_nat finish) 0) as [?|_]; [lia|].
  destruct (Nat.le_ge_cases start (length arr)) as [Hs|Hs].
  - rewrite (Z.min_l (Z.of_nat start)) by lia. rewrite Nat2Z.id.
    rewrite <- (firstn_min (finish - start)), length_skipn. f_equal. lia.
  - rewrite (Z.min_r (Z.of_nat start)) by lia. rewrite Nat2Z.id.
    rewrite !skipn_all2 by lia. now rewrite !firstn_nil.
Qed.

(** X1.  The two rows of the grid of a sector show the whole row of the
    memo: a row of the memo has at most 20 chips, the first grid row shows
    its first ten and the second the rest, so no chip of the memo is cut off
    by the two slices. *)
Theorem grid_rows_cover snap s :
  (length (standings snap s) <= 20)%nat /\
  firstRow snap s ++ secondRow snap s = standings snap s /\
  firstRow snap s = firstn 10 (standings snap s) /\
  secondRow snap s = skipn 10 (standings snap s).
Proof.
  pose proof (standings_length snap s) as Hlen.
  assert (H1 : firstRow snap s = firstn 10 (standings snap s)).
  { unfold firstRow, standings. destruct (competitors snap !! s) as [row|]; [|reflexivity].
    change (slice 0 10 row = firstn 10 row).
    exact (slice_within 0 10 row ltac:(lia)). }
  assert (H2 : secondRow snap s = skipn 10 (standings snap s)).
  { unfold secondRow, standings in *. destruct (competitors snap !! s) as [row|]; [|reflexivity].
    change (length row <= 20)%nat in Hlen.
    change (slice 10 20 row = skipn 10 row).
    etransitivity; [exact (slice_within 10 20 row ltac:(lia))|].
    apply firstn_all2. rewrite length_skipn. lia. }
  split; [exact Hlen|]. split; [|split; assumption].
  rewrite H1, H2. apply firstn_skipn.
Qed.

(** X2.  Every displayed row is in ascending order of box number, chips with
    the same box number keeping the order of the general ranks (ranked chips
    before unranked ones). *)
Theorem row_box_order snap s :
  StronglySorted (fun a b => Chip.boxNumber a <= Chip.boxNumber b) (standings snap s) /\
  stable_sort_of byBoxNumber (fun _ => True)
    (List.filter (fun chip => String.eqb (Chip.sector chip) s)
       (nonZeroCompetitors chipSort snap ++ zeroCoeffCompetitors chipSort snap))
    (standings snap s) /\
  (forall a b, tie byBoxNumber a b = true <-> Chip.boxNumber a = Chip.boxNumber b).
Proof.
  assert (Hbox : forall a b, before byBoxNumber a b <-> Chip.boxNumber a <= Chip.boxNumber b)
    by (intros a b; apply byBoxNumber_before).
  pose proof (js_sort_stable_sort byBoxNumber (fun _ => True) byBoxNumber_consistent
                (List.filter (fun chip => String.eqb (Chip.sector chip) s)
                   (nonZeroCompetitors chipSort snap ++ zeroCoeffCompetitors chipSort snap))
                ltac:(apply List.Forall_forall; intros; exact I))
    as Hsort.
  rewrite <- standings_row in Hsort.
  split; [|split; [exact Hsort|]].
  - destruct Hsort as [_ Hsorted _].
    induction Hsorted as [|a l _ IH Ha]; constructor; [exact IH|].
    eapply List.Forall_impl; [|exact Ha]. intros b. apply Hbox.
  - intros a b. apply byBoxNumber_before.
Qed.

Lemma pushBySector_lookup_exact (l : list Chip.t) (m : gmap string (list Chip.t)) s :
  fold_left pushBySector l m !! s
  = match List.filter (fun c => String.eqb (Chip.sector c) s) l with
    | [] => m !! s
    | pushed => Some (default [] (m !! s) ++ pushed)
    end.
Proof.
  revert m. induction l as [|c l IH]; intros m; [reflexivity|].
  cbn [fold_left List.filter]. rewrite IH. clear IH. unfold pushBySector.
  destruct (String.eqb_spec (Chip.sector c) s) as [<-|Hne].
  - destruct (m !! Chip.sector c) as [arr|] eqn:E; rewrite lookup_insert_eq;
      cbn [default from_option id]; rewrite ?E; cbn [default from_option id];
      destruct (List.filter _ l); rewrite <- ?app_assoc; reflexivity.
  - destruct (m !! Chip.sector c) as [arr|] eqn:E;
      rewrite lookup_insert_ne by exact Hne; reflexivity.
Qed.

(** X3.  The memo never holds an empty array: a sector is a key of the memo
    exactly when its row has a chip, and then the row is the value; every
    key is one of A-F. *)
Theorem memo_keys snap s :
  competitors snap !! s <> Some [] /\
  (competitors snap !! s = None <-> standings snap s = []) /\
  (is_Some (competitors snap !! s) -> In s sectors).
Proof.
  assert (Hnonempty : competitors snap !! s <> Some []).
  { unfold competitors, competitorsBySector, chipSort.
    rewrite lookup_fmap, pushBySector_lookup_exact.
    rewrite lookup_empty.
    destruct (List.filter _ _) as [|c pushed] eqn:E; [discriminate|].
    change (Some (js_sort byBoxNumber (c :: pushed)) <> Some []).
    intros H. apply (inj Some) in H. apply (f_equal (@length _)) in H.
    rewrite js_sort_length in H. discriminate. }
  split; [exact Hnonempty|]. split; [split|].
  - unfold standings. now intros ->.
  - unfold standings. destruct (competitors snap !! s) as [[|c row]|]; try discriminate;
      [contradiction|reflexivity].
  - intros [row Hrow]. destruct row as [|c row]; [contradiction|].
    apply (standings_within snap s c). unfold standings. rewrite Hrow. now left.
Qed.

(** ** Big catches *)

(** X4.  When a competitor has several counted big catches, the chip takes
    the value of the first one in the order of the snapshot, whatever the
    values of the later ones. *)
Theorem biggest_catch_first snap s chip first rest :
  In chip (sectorRanking snap s) \/ In chip (standings snap s) ->
  countedBigCatches snap (Chip.id chip) = first :: rest ->
  Chip.biggestCatch chip = BigCatchDoc.biggestCatch first.
Proof.
  intros H Hcounted. apply chip_origin in H as (_ & comp & _ & E).
  pose proof (withCoefficient_fields (sectorTotalNbPrises snap s) (calculate snap s comp))
    as (Hid & _ & _ & _ & Hbig & _).
  fold (chipOf snap s comp) in Hid, Hbig. rewrite <- E in Hid, Hbig.
  assert (Chip.id chip = CompetitorDoc.id comp) as Eid by (destruct chip; exact Hid).
  assert (Chip.biggestCatch chip
          = match grossePriseEntry snap (CompetitorDoc.id comp) with
            | Some entry => BigCatchDoc.biggestCatch entry
            | None => 0%float
            end) as -> by (destruct chip; exact Hbig).
  assert (grossePriseEntry snap (CompetitorDoc.id comp) = Some first) as ->; [|reflexivity].
  apply found_inj. rewrite grossePriseEntry_spec, <- Eid, Hcounted. reflexivity.
Qed.

Lemma biggest_catch_first_witness :
  countedBigCatches two_catches "a1"
  = [BigCatchDoc.mk "a1" 2 "locked_judge"; BigCatchDoc.mk "a1" 7 "locked_admin"] /\
  map Chip.biggestCatch (standings two_catches "A") = [2%float].
Proof.
  split; [reflexivity|].
  assert (H : exists chip, standings two_catches "A" = [chip]) by (eexists; reflexivity).
  destruct H as [chip H]. rewrite H. cbn [map]. f_equal.
  apply (biggest_catch_first two_catches "A" chip
           (BigCatchDoc.mk "a1" 2 "locked_judge") [BigCatchDoc.mk "a1" 7 "locked_admin"]).
  - right. rewrite H. now left.
  - assert (Chip.id chip = "a1") as ->; [|reflexivity].
    assert (E : map Chip.id (standings two_catches "A") = ["a1"]) by reflexivity.
    rewrite H in E. now injection E.
Defined.

(** ** Sectors of at most twenty competitors *)

(** X5.  In a sector A-F of at most 20 competitors, with fish counts and
    weights not negative and coefficients that are numbers, the displayed
    row holds every competitor of the sector once: it is the sector ranking
    up to order and general ranks, and it has as many chips as the sector
    has competitors. *)
Theorem small_sector_displayed snap s :
  In s sectors ->
  nonnegative_entries snap ->
  Forall (fun chip => a_number (Chip.coefficient chip)) (sectorRanking snap s) ->
  (length (sectorCompetitors snap s) <= 20)%nat ->
  Permutation (map unplaced (standings snap s)) (sectorRanking snap s) /\
  length (standings snap s) = length (sectorCompetitors snap s).
Proof.
  intros Hs Hdata Hnum Hsmall.
  assert (Hperm : Permutation (map unplaced (standings snap s)) (sectorRanking snap s)).
  { rewrite (standings_perm snap s Hs). rewrite List.Forall_forall in Hnum.
    unfold withinPlaces. rewrite (filter_all (fun comp => _ <=? _)).
    - rewrite filter_all; [now rewrite (sectorRanking_sector snap s Hs)|].
      intros c Hc. rewrite <- (sectorRanking_sector snap s Hs) in Hc.
      apply nonneg_tests, (coefficient_nonneg snap s c Hdata (or_introl Hc)), Hnum, Hc.
    - intros c Hc. apply Z.leb_le.
      apply (sectorSorted_rank_positive snap s) in Hc. unfold LAST_PLACE. lia. }
  split; [exact Hperm|].
  rewrite <- (length_map unplaced), (Permutation_length Hperm).
  rewrite (sectorRanking_sector snap s Hs). apply sectorSorted_length.
Qed.

Lemma sample_nonnegative : nonnegative_entries sample.
Proof.
  unfold nonnegative_entries, sample. cbn [firestoreHourlyEntries].
  repeat (constructor; [split; reflexivity|]). constructor.
Qed.

Lemma small_sector_displayed_witness :
  length (sectorCompetitors sample "A") = 3%nat /\
  length (standings sample "A") = 3%nat.
Proof.
  split; [reflexivity|].
  exact (proj2 (small_sector_displayed sample "A" (or_introl eq_refl) sample_nonnegative
                  ltac:(repeat constructor) ltac:(vm_compute; lia))).
Defined.

(** ** General ranks *)

Lemma generalRanking_length snap : (length (generalRanking chipSort snap) <= 120)%nat.
Proof.
  rewrite (Permutation_length (generalRanking_perm snap)).
  unfold sectors. cbn [flat_map]. rewrite !length_app.
  pose proof (withinPlaces_length snap "A"). pose proof (withinPlaces_length snap "B").
  pose proof (withinPlaces_length snap "C"). pose proof (withinPlaces_length snap "D").
  pose proof (withinPlaces_length snap "E"). pose proof (withinPlaces_length snap "F").
  simpl. lia.
Qed.

Lemma nonZeroCompetitors_ranks snap :
  map Chip.classementGeneral (nonZeroCompetitors chipSort snap)
  = map Z.of_nat
      (seq 1 (length (List.filter (fun comp => (0 <? Chip.coefficient comp)%float)
                        (generalRanking chipSort snap)))).
Proof.
  unfold nonZeroCompetitors, forEach_indexed.
  rewrite (forEach_from_assigned Chip.set_classementGeneral Chip.classementGeneral)
    by reflexivity.
  apply map_ext. intros; lia.
Qed.

(** X6.  The rank 120 of the unranked never clashes with the rank of a
    ranked chip: the general ranking has at most 120 chips, the ranked chips
    have general ranks from 1 to 120, and as soon as one chip is unranked
    every ranked chip has a general rank below 120. *)
Theorem sentinel_unambiguous snap :
  (length (generalRanking chipSort snap) <= 120)%nat /\
  Forall (fun chip => 1 <= Chip.classementGeneral chip <= 120)
    (nonZeroCompetitors chipSort snap) /\
  (zeroCoeffCompetitors chipSort snap = []
   \/ Forall (fun chip => Chip.classementGeneral chip < 120)
        (nonZeroCompetitors chipSort snap)).
Proof.
  pose proof (generalRanking_length snap) as Hlen.
  pose proof (filter_exclusive_length
                (fun comp => (0 <? Chip.coefficient comp)%float)
                (fun comp => (Chip.coefficient comp =? 0)%float)
                (generalRanking chipSort snap)
                (fun x => positive_not_zero (Chip.coefficient x))) as Hsplit.
  assert (Hranks : forall bound,
             (length (List.filter (fun comp => (0 <? Chip.coefficient comp)%float)
                        (generalRanking chipSort snap)) <= bound)%nat ->
             Forall (fun chip => 1 <= Chip.classementGeneral chip <= Z.of_nat bound)
               (nonZeroCompetitors chipSort snap)).
  { intros bound Hb. apply List.Forall_forall. intros chip Hchip.
    apply (in_map Chip.classementGeneral) in Hchip.
    rewrite nonZeroCompetitors_ranks in Hchip.
    apply in_map_iff in Hchip as (n & <- & Hn). apply in_seq in Hn. lia. }
  split; [exact Hlen|]. split; [apply (Hranks 120%nat); lia|].
  destruct (zeroCoeffCompetitors chipSort snap) as [|z zs] eqn:E; [now left|right].
  assert (length (List.filter (fun comp => (Chip.coefficient comp =? 0)%float)
                    (generalRanking chipSort snap)) <> 0)%nat as Hz.
  { rewrite <- (length_map (fun comp => Chip.set_classementGeneral comp UNRANKED)).
    fold (zeroCoeffCompetitors chipSort snap). rewrite E. discriminate. }
  eapply List.Forall_impl; [|apply (Hranks 119%nat); lia].
  intros chip. simpl. lia.
Qed.

Lemma SSorted_impl_in {A} (R R' : A -> A -> Prop) (l : list A) :
  (forall a b, In a l -> In b l -> R a b -> R' a b) ->
  StronglySorted R l -> StronglySorted R' l.
Proof.
  intros H Hs. induction Hs as [|x l Hl IH Hx]; constructor.
  - apply IH. intros a b Ha Hb. apply H; now right.
  - rewrite List.Forall_forall in *. intros b Hb. apply H; [now left|now right|].
    now apply Hx.
Qed.

Lemma SSorted_filter {A} (R : A -> A -> Prop) (f : A -> bool) (l : list A) :
  StronglySorted R l -> StronglySorted R (List.filter f l).
Proof.
  induction 1 as [|x l Hl IH Hx]; simpl; [constructor|].
  destruct (f x); [|exact IH]. constructor; [exact IH|].
  rewrite List.Forall_forall in *. intros b Hb. apply filter_In in Hb as [Hb _]. now apply Hx.
Qed.

Lemma SSorted_lookup {A} (R : A -> A -> Prop) (l : list A) (i j : nat) x y :
  StronglySorted R l -> (i < j)%nat -> l !! i = Some x -> l !! j = Some y -> R x y.
Proof.
  intros Hs. revert i j. induction Hs as [|a l Hl IH Ha]; intros i j Hij Hi Hj.
  - discriminate.
  - destruct j as [|j]; [lia|]. destruct i as [|i]; simpl in Hi, Hj.
    + injection Hi as <-. rewrite List.Forall_forall in Ha. apply Ha.
      apply list_elem_of_In, list_elem_of_lookup. eauto.
    + apply (IH i j); [lia|assumption|assumption].
Qed.

Lemma SSorted_flat_map {A} (R : A -> A -> Prop) (G : Z -> list A) (ps : list Z) :
  StronglySorted Z.lt ps ->
  (forall p, In p ps -> StronglySorted R (G p)) ->
  (forall p q a b, In p ps -> In q ps -> p < q -> In a (G p) -> In b (G q) -> R a b) ->
  StronglySorted R (flat_map G ps).
Proof.
  induction 1 as [|p ps Hps IH Hp]; intros Hin Hcross; simpl; [constructor|].
  apply sorted_app.
  - apply Hin. now left.
  - apply IH.
    + intros q Hq. apply Hin. now right.
    + intros q r a b Hq Hr. apply Hcross; now right.
  - intros a b Ha Hb. apply in_flat_map in Hb as (q & Hq & Hb).
    rewrite List.Forall_forall in Hp.
    apply (Hcross p q); [now left|now right|now apply Hp|exact Ha|exact Hb].
Qed.

Lemma seq_Z_sorted (a n : nat) : StronglySorted Z.lt (map Z.of_nat (seq a n)).
Proof.
  revert a. induction n as [|n IH]; intros a; simpl; constructor; [apply IH|].
  apply List.Forall_forall. intros x Hx. apply in_map_iff in Hx as (k & <- & Hk).
  apply in_seq in Hk. lia.
Qed.

Lemma placeGroup_rank snap place chip :
  In chip (js_sort byCoefficient (placeGroup chipSort snap place)) ->
  Chip.classementSecteur chip = place.
Proof.
  intros H. eapply Permutation_in in H; [|apply js_sort_perm].
  rewrite (placeGroup_atPlace snap) in H. apply in_flat_map in H as (s & _ & H).
  apply filter_In in H as [_ H]. now apply Z.eqb_eq in H.
Qed.

Lemma generalRanking_group_In snap place c :
  In place places ->
  In c (placeGroup chipSort snap place) -> In c (generalRanking chipSort snap).
Proof.
  intros Hp Hc. rewrite generalRanking_groups. apply in_flat_map.
  exists place. split; [exact Hp|].
  eapply Permutation_in; [symmetry; apply js_sort_perm|exact Hc].
Qed.

(** With coefficients and biggest catches that are numbers, the general
    ranking follows [notBehind]. *)
Lemma generalRanking_sorted snap :
  Forall scored (generalRanking chipSort snap) ->
  StronglySorted notBehind (generalRanking chipSort snap).
Proof.
  intros Hnum. rewrite List.Forall_forall in Hnum.
  rewrite (generalRanking_groups snap). apply SSorted_flat_map.
  - apply seq_Z_sorted.
  - intros p Hp.
    apply (SSorted_impl_in (before byCoefficient)).
    2:{ apply (js_sort_sorted byCoefficient scored byCoefficient_consistent).
        apply List.Forall_forall. intros c Hc.
        apply Hnum, (generalRanking_group_In snap p c Hp Hc). }
    intros a b Ha Hb Hab. right. split; [|exact Hab].
    rewrite (placeGroup_rank snap p a Ha), (placeGroup_rank snap p b Hb). reflexivity.
  - intros p q a b _ _ Hpq Ha Hb. left.
    rewrite (placeGroup_rank snap p a Ha), (placeGroup_rank snap q b Hb). exact Hpq.
Qed.

(** The general rank of the ranked chip at index [n] is [n + 1]. *)
Lemma nonZeroCompetitors_lookup snap (n : nat) chip :
  nonZeroCompetitors chipSort snap !! n = Some chip ->
  Chip.classementGeneral chip = Z.of_nat n + 1 /\
  List.filter (fun comp => (0 <? Chip.coefficient comp)%float) (generalRanking chipSort snap)
    !! n = Some (unplaced chip).
Proof.
  unfold nonZeroCompetitors, forEach_indexed. rewrite forEach_from_lookup.
  destruct (List.filter _ (generalRanking chipSort snap) !! n) as [c0|] eqn:E;
    simpl; [|discriminate].
  intros [= <-]. split; [simpl; lia|].
  f_equal. transitivity (unplaced c0); [symmetry|destruct c0; reflexivity].
  apply (generalRanking_unplaced snap).
  assert (Hin : In c0 (List.filter (fun comp => (0 <? Chip.coefficient comp)%float)
                         (generalRanking chipSort snap)))
    by (apply list_elem_of_In, list_elem_of_lookup; eauto).
  apply filter_In in Hin. tauto.
Qed.

Lemma ltb_irrefl x : (x <? x)%float = false.
Proof.
  destruct (x <? x)%float eqn:E; [|reflexivity].
  destruct (ltb_numbers x x E) as [Hx _]. rewrite (ltb_key x x Hx Hx) in E.
  apply Z.ltb_lt in E. lia.
Qed.

(** X7.  When the coefficients and the biggest catches of the general
    ranking are numbers, the general rank of the ranked chips follows the
    sector rank first, then the coefficient, then the biggest catch: a chip
    with a better sector rank has a better general rank whatever the
    coefficients, and at equal sector rank the larger coefficient, then the
    larger biggest catch, has the better general rank. *)
Theorem general_rank_order snap a b :
  Forall scored (generalRanking chipSort snap) ->
  In a (nonZeroCompetitors chipSort snap) ->
  In b (nonZeroCompetitors chipSort snap) ->
  strictlyAhead a b ->
  Chip.classementGeneral a < Chip.classementGeneral b.
Proof.
  intros Hnum Ha Hb Hab.
  apply list_elem_of_In, list_elem_of_lookup in Ha as [i Hi].
  apply list_elem_of_In, list_elem_of_lookup in Hb as [j Hj].
  destruct (nonZeroCompetitors_lookup snap i a Hi) as [-> Hi'].
  destruct (nonZeroCompetitors_lookup snap j b Hj) as [-> Hj'].
  destruct (Nat.lt_trichotomy i j) as [Hlt|[->|Hgt]]; [lia|exfalso|exfalso].
  - rewrite Hi in Hj. injection Hj as ->.
    destruct Hab as [H|[_ [H|[_ H]]]]; [lia| |]; rewrite ltb_irrefl in H; discriminate.
  - assert (Hba : notBehind (unplaced b) (unplaced a)).
    { eapply (SSorted_lookup notBehind);
        [apply SSorted_filter, generalRanking_sorted, Hnum|exact Hgt|exact Hj'|exact Hi']. }
    assert (Hscored : forall c n,
               List.filter (fun comp => (0 <? Chip.coefficient comp)%float)
                 (generalRanking chipSort snap) !! n = Some (unplaced c) ->
               scored c).
    { intros c n Hn.
      assert (Hin : In (unplaced c)
                      (List.filter (fun comp => (0 <? Chip.coefficient comp)%float)
                         (generalRanking chipSort snap)))
        by (apply list_elem_of_In, list_elem_of_lookup; eauto).
      apply filter_In in Hin as [Hin _]. rewrite List.Forall_forall in Hnum.
      apply (Hnum _ Hin). }
    destruct (Hscored a i Hi') as [Hca Hga]. destruct (Hscored b j Hj') as [Hcb Hgb].
    destruct Hba as [Hba|[Hrank Hba]].
    + change (Chip.classementSecteur b < Chip.classementSecteur a) in Hba.
      destruct Hab as [H|[H _]]; lia.
    + change (Chip.classementSecteur b = Chip.classementSecteur a) in Hrank.
      apply (byCoefficient_before (unplaced b) (unplaced a)) in Hba;
        [|split; assumption|split; assumption].
      change ((Chip.coefficient a <? Chip.coefficient b)%float = true
              \/ ((Chip.coefficient a =? Chip.coefficient b)%float = true
                  /\ (Chip.biggestCatch a <=? Chip.biggestCatch b)%float = true)) in Hba.
      unfold strictlyAhead in Hab.
      rewrite (ltb_key _ _ Hcb Hca), (eqb_key _ _ Hcb Hca), (ltb_key _ _ Hgb Hga) in Hab.
      rewrite (ltb_key _ _ Hca Hcb), (eqb_key _ _ Hca Hcb), (leb_key _ _ Hga Hgb) in Hba.
      rewrite !Z.ltb_lt, !Z.eqb_eq in Hab. rewrite Z.ltb_lt, Z.eqb_eq, Z.leb_le in Hba.
      lia.
Qed.

Lemma general_rank_order_witness :
  exists a b,
    nonZeroCompetitors chipSort tiers = [a; b] /\
    Chip.classementSecteur a = 1 /\ Chip.classementSecteur b = 2 /\
    (Chip.coefficient a <? Chip.coefficient b)%float = true /\
    Chip.classementGeneral a < Chip.classementGeneral b.
Proof.
  eexists. eexists. split; [vm_compute; reflexivity|].
  split; [reflexivity|]. split; [reflexivity|]. split; [reflexivity|].
  apply (general_rank_order tiers).
  - repeat constructor.
  - vm_compute. left. reflexivity.
  - vm_compute. right. left. reflexivity.
  - left. simpl. lia.
Defined.

(** ** Sector ranks and coefficients *)

(** X8.  In a sector ranking whose points are numbers, a chip with more
    points has the better sector rank. *)
Theorem more_points_better_rank snap s a b :
  Forall (fun chip => a_number (Chip.points chip)) (sectorRanking snap s) ->
  In a (sectorRanking snap s) ->
  In b (sectorRanking snap s) ->
  (Chip.points b <? Chip.points a)%float = true ->
  Chip.classementSecteur a < Chip.classementSecteur b.
Proof.
  intros Hnum Ha Hb Hab.
  apply sectorRanking_In in Ha as [Hs Ha]. apply sectorRanking_In in Hb as [_ Hb].
  rewrite (sectorRanking_sector snap s Hs), List.Forall_forall in Hnum.
  pose proof (Hnum a Ha) as Hna. pose proof (Hnum b Hb) as Hnb.
  apply list_elem_of_In, list_elem_of_lookup in Ha as [i Hi].
  apply list_elem_of_In, list_elem_of_lookup in Hb as [j Hj].
  destruct (sectorSorted_lookup snap s i a Hi) as [-> Hi'].
  destruct (sectorSorted_lookup snap s j b Hj) as [-> Hj'].
  destruct (Nat.lt_trichotomy i j) as [Hlt|[->|Hgt]]; [lia|exfalso|exfalso].
  - rewrite Hi in Hj. injection Hj as ->. rewrite ltb_irrefl in Hab. discriminate.
  - assert (Hba : before byPoints (unranked b) (unranked a)).
    { eapply (SSorted_lookup (before byPoints)); [|exact Hgt|exact Hj'|exact Hi'].
      apply (js_sort_sorted byPoints (fun chip => a_number (Chip.points chip))
               byPoints_consistent).
      apply List.Forall_forall. intros c Hc.
      apply sectorCoefficients_In in Hc as (chip & Hchip & <-). apply (Hnum chip Hchip). }
    apply (byPoints_before (unranked b) (unranked a)) in Hba; [|exact Hnb|exact Hna].
    change ((Chip.points a <=? Chip.points b)%float = true) in Hba.
    rewrite (leb_key _ _ Hna Hnb), Z.leb_le in Hba.
    rewrite (ltb_key _ _ Hnb Hna), Z.ltb_lt in Hab. lia.
Qed.

Lemma more_points_better_rank_witness :
  exists a b,
    sectorRanking tiers "A" = [a; b] /\
    (Chip.points b <? Chip.points a)%float = true /\
    Chip.classementSecteur a < Chip.classementSecteur b.
Proof.
  eexists. eexists. split; [vm_compute; reflexivity|].
  split; [reflexivity|].
  apply (more_points_better_rank tiers "A").
  - repeat constructor.
  - vm_compute. left. reflexivity.
  - vm_compute. right. left. reflexivity.
  - reflexivity.
Defined.

(** X9.  With fish counts and weights not negative, the fish count, the
    total weight and the points of a chip are not negative, and its
    coefficient is not negative or is NaN; a coefficient that is not
    negative passes one of the two tests of the general ranks. *)
Theorem coefficient_not_negative snap s chip :
  nonnegative_entries snap ->
  In chip (sectorRanking snap s) \/ In chip (standings snap s) ->
  nonneg (Chip.fishCount chip) /\
  nonneg (Chip.totalWeight chip) /\
  nonneg (Chip.points chip) /\
  (nonneg (Chip.coefficient chip) \/ is_nan (Chip.coefficient chip) = true) /\
  (nonneg (Chip.coefficient chip) -> displayable chip = true).
Proof.
  intros Hdata Hchip.
  destruct (chip_origin snap s chip Hchip) as (_ & comp & _ & E).
  pose proof (withCoefficient_fields (sectorTotalNbPrises snap s) (calculate snap s comp))
    as (_ & _ & Hfish & Hweight & _).
  fold (chipOf snap s comp) in Hfish, Hweight. rewrite <- E in Hfish, Hweight.
  change (Chip.fishCount chip = fst (sumHours snap (CompetitorDoc.id comp))) in Hfish.
  change (Chip.totalWeight chip = snd (sumHours snap (CompetitorDoc.id comp))) in Hweight.
  destruct (sumHours_nonneg snap (CompetitorDoc.id comp) Hdata) as [Hf Hw].
  rewrite <- Hfish in Hf. rewrite <- Hweight in Hw.
  split; [exact Hf|]. split; [exact Hw|].
  split; [apply (chip_points_nonneg snap s chip Hdata Hchip)|].
  split; [|apply nonneg_tests].
  destruct (is_nan_cases (Chip.coefficient chip)) as [Hnum|Hnan]; [left|now right].
  apply (coefficient_nonneg snap s chip Hdata Hchip Hnum).
Qed.

(** The coefficient is rounded twice and may exceed the points, even for a
    competitor that caught all the fish of its sector: points * 9 / 9 is
    not always points. *)
Example coefficient_above_points :
  map (fun c => (Chip.points c, Chip.coefficient c)) (sectorRanking alone "A")
  = [(455.2%float, 455.20000000000005%float)]
  /\ (455.2 <? 455.20000000000005)%float = true.
Proof. vm_compute. split; reflexivity. Qed.

Lemma coefficient_not_negative_witness :
  nonneg (Chip.coefficient (sample_a1 2 3)) /\ displayable (sample_a1 2 3) = true.
Proof.
  destruct (coefficient_not_negative sample "A" (sample_a1 2 3) sample_nonnegative
              (or_intror sample_a1_displayed)) as (_ & _ & _ & _ & Hshown).
  split; [reflexivity|]. apply Hshown. reflexivity.
Defined.

(** ** Records the memo does not read *)

Lemma calculate_ext_id snap1 snap2 s comp :
  sumHours snap1 (CompetitorDoc.id comp) = sumHours snap2 (CompetitorDoc.id comp) ->
  grossePriseEntry snap1 (CompetitorDoc.id comp)
  = grossePriseEntry snap2 (CompetitorDoc.id comp) ->
  calculate snap1 s comp = calculate snap2 s comp.
Proof. intros Hsum Hbig. unfold calculate. rewrite Hsum, Hbig. reflexivity. Qed.

Lemma sectorSorted_ext_in srt snap1 snap2 s :
  sectorCompetitors snap1 s = sectorCompetitors snap2 s ->
  (forall comp, In comp (sectorCompetitors snap2 s) ->
                calculate snap1 s comp = calculate snap2 s comp) ->
  sectorSorted srt snap1 s = sectorSorted srt snap2 s.
Proof.
  intros Hcomps Hcalc.
  assert (Hcalculated : sectorCalculated snap1 s = sectorCalculated snap2 s).
  { unfold sectorCalculated. rewrite Hcomps. apply map_ext_in, Hcalc. }
  unfold sectorSorted, sectorCoefficients, sectorTotalNbPrises.
  rewrite Hcalculated. reflexivity.
Qed.

(** The memo depends on the hourly entries and big catches only through
    what the filters keep for the competitors of the sectors A-F. *)
Lemma competitors_ext_records comps hourly1 hourly2 bigs1 bigs2 :
  (forall comp h,
      In comp comps ->
      hourEntries (mkSnapshot comps hourly1 bigs1) (CompetitorDoc.id comp) h
      = hourEntries (mkSnapshot comps hourly2 bigs2) (CompetitorDoc.id comp) h) ->
  (forall comp,
      In comp comps ->
      grossePriseEntry (mkSnapshot comps hourly1 bigs1) (CompetitorDoc.id comp)
      = grossePriseEntry (mkSnapshot comps hourly2 bigs2) (CompetitorDoc.id comp)) ->
  competitors (mkSnapshot comps hourly1 bigs1) = competitors (mkSnapshot comps hourly2 bigs2).
Proof.
  intros Hhours Hbig. apply competitorsBySector_ext; try reflexivity.
  intros s _. apply sectorSorted_ext_in; [reflexivity|].
  intros comp Hcomp. apply sectorCompetitors_In in Hcomp as [Hcomp _].
  cbn [firestoreCompetitors] in Hcomp.
  apply calculate_ext_id; [|now apply Hbig].
  apply sumHours_ext. intros h _. now apply Hhours.
Qed.

(** X10.  An hourly entry or a big catch whose status is not one of the
    four counted statuses changes nothing in the computed rows, wherever it
    stands in the snapshot and whatever its values. *)
Theorem uncounted_records_ignored :
  (forall comps bigs pre post entry,
      ~ counted_status (HourlyEntryDoc.status entry) ->
      competitors (mkSnapshot comps (pre ++ entry :: post) bigs)
      = competitors (mkSnapshot comps (pre ++ post) bigs)) /\
  (forall comps hourly pre post entry,
      ~ counted_status (BigCatchDoc.status entry) ->
      competitors (mkSnapshot comps hourly (pre ++ entry :: post))
      = competitors (mkSnapshot comps hourly (pre ++ post))).
Proof.
  split.
  - intros comps bigs pre post entry Hstatus.
    apply competitors_ext_records; [|reflexivity].
    intros comp h _. unfold hourEntries. cbn [firestoreHourlyEntries].
    rewrite !List.filter_app. f_equal. cbn [List.filter].
    destruct (includes countedStatuses (HourlyEntryDoc.status entry)) eqn:E.
    + apply includes_counted in E. contradiction.
    + now rewrite andb_false_r.
  - intros comps hourly pre post entry Hstatus.
    apply competitors_ext_records; [reflexivity|].
    intros comp _. unfold grossePriseEntry. cbn [firestoreBigCatches].
    apply found_inj. rewrite !find_filter, !List.filter_app. do 2 f_equal.
    cbn [List.filter].
    destruct (includes countedStatuses (BigCatchDoc.status entry)) eqn:E.
    + apply includes_counted in E. contradiction.
    + now rewrite andb_false_r.
Qed.

Lemma uncounted_records_ignored_witness :
  competitors two_catches
  = competitors
      (mkSnapshot (firestoreCompetitors two_catches) (firestoreHourlyEntries two_catches)
         [BigCatchDoc.mk "a1" 2 "locked_judge"; BigCatchDoc.mk "a1" 7 "locked_admin"]).
Proof.
  refine (proj2 uncounted_records_ignored
            (firestoreCompetitors two_catches) (firestoreHourlyEntries two_catches) []
            [BigCatchDoc.mk "a1" 2 "locked_judge"; BigCatchDoc.mk "a1" 7 "locked_admin"]
            (BigCatchDoc.mk "a1" 9 "draft") _).
  unfold counted_status. simpl. intuition discriminate.
Defined.

(** X11.  An hourly entry or a big catch whose competitorId is the id of no
    competitor of the snapshot changes nothing in the computed rows. *)
Theorem orphan_records_ignored :
  (forall comps bigs pre post entry,
      ~ In (HourlyEntryDoc.competitorId entry) (map CompetitorDoc.id comps) ->
      competitors (mkSnapshot comps (pre ++ entry :: post) bigs)
      = competitors (mkSnapshot comps (pre ++ post) bigs)) /\
  (forall comps hourly pre post entry,
      ~ In (BigCatchDoc.competitorId entry) (map CompetitorDoc.id comps) ->
      competitors (mkSnapshot comps hourly (pre ++ entry :: post))
      = competitors (mkSnapshot comps hourly (pre ++ post))).
Proof.
  split.
  - intros comps bigs pre post entry Horphan.
    apply competitors_ext_records; [|reflexivity].
    intros comp h Hcomp. unfold hourEntries. cbn [firestoreHourlyEntries].
    rewrite !List.filter_app. f_equal. cbn [List.filter].
    destruct (String.eqb_spec (HourlyEntryDoc.competitorId entry) (CompetitorDoc.id comp))
      as [E|_]; [|reflexivity].
    exfalso. apply Horphan. rewrite E. now apply in_map.
  - intros comps hourly pre post entry Horphan.
    apply competitors_ext_records; [reflexivity|].
    intros comp Hcomp. unfold grossePriseEntry. cbn [firestoreBigCatches].
    apply found_inj. rewrite !find_filter, !List.filter_app. do 2 f_equal.
    cbn [List.filter].
    destruct (String.eqb_spec (BigCatchDoc.competitorId entry) (CompetitorDoc.id comp))
      as [E|_]; [|reflexivity].
    exfalso. apply Horphan. rewrite E. now apply in_map.
Qed.

Lemma orphan_records_ignored_witness :
  competitors
    (mkSnapshot (firestoreCompetitors tiers)
       (HourlyEntryDoc.mk "ghost" (Some 1) 99 99 "locked_judge"
          :: firestoreHourlyEntries tiers) [])
  = competitors tiers.
Proof.
  refine (proj1 orphan_records_ignored (firestoreCompetitors tiers) [] []
            (firestoreHourlyEntries tiers)
            (HourlyEntryDoc.mk "ghost" (Some 1) 99 99 "locked_judge") _).
  simpl. intuition discriminate.
Defined.



(** * The countdown overlay *)

Lemma seconds_window (start now : Z) :
  let seconds := (start - now) / 1000 in
  (0 < seconds <= 60 <-> 1000 <= start - now < 61000) /\
  (seconds <= 0 <-> start - now < 1000).
Proof.
  cbv zeta. pose proof (Z.div_mod (start - now) 1000 ltac:(lia)) as Hdm.
  pose proof (Z.mod_pos_bound (start - now) 1000 ltac:(lia)) as Hmod.
  split; split; intros H; lia.
Qed.

Lemma checkCountdown_cases start now st :
  let seconds := (start - now) / 1000 in
  checkCountdown (Some start) now st
  = if Countdown.showCountdown st
    then if 0 <? seconds
         then (Countdown.mk true seconds, false)
         else (Countdown.mk true 0, true)
    else if (seconds <=? 60) && (0 <? seconds)
         then (Countdown.mk true seconds, false)
         else (st, false).
Proof.
  cbv zeta. unfold checkCountdown, secondsUntilStart.
  destruct st as [[|] secs]; cbn [Countdown.showCountdown negb andb].
  - rewrite andb_false_r.
    destruct (Z.ltb_spec 0 ((start - now) / 1000)) as [H|H];
      destruct (Z.leb_spec ((start - now) / 1000) 0) as [H'|H']; try lia; reflexivity.
  - rewrite andb_true_r. now destruct ((_ <=? 60) && (0 <? _)).
Qed.

(** What [checkCountdown] does to a hidden overlay. *)
Lemma checkCountdown_hidden start now st :
  Countdown.showCountdown st = false ->
  (1000 <= start - now < 61000 /\
   checkCountdown (Some start) now st = (Countdown.mk true ((start - now) / 1000), false) /\
   1 <= (start - now) / 1000 <= 60)
  \/ (~ (1000 <= start - now < 61000) /\ checkCountdown (Some start) now st = (st, false)).
Proof.
  intros Hshow. destruct (seconds_window start now) as [Hwin _]. cbv zeta in Hwin.
  pose proof (checkCountdown_cases start now st) as Hcases. cbv zeta in Hcases.
  rewrite Hshow in Hcases. rewrite Hcases.
  destruct (Z.leb_spec ((start - now) / 1000) 60) as [H1|H1];
    destruct (Z.ltb_spec 0 ((start - now) / 1000)) as [H2|H2]; cbn [andb].
  - left. split; [apply Hwin; lia|]. split; [reflexivity|lia].
  - right. split; [rewrite <- Hwin; lia|reflexivity].
  - right. split; [rewrite <- Hwin; lia|reflexivity].
  - lia.
Qed.

(** X12.  A hidden overlay is turned on by [checkCountdown] exactly when
    at least one second and less than 61 seconds remain before the start;
    its number is then the whole seconds left, from 1 to 60, and the render
    that is to show this number throws a ReferenceError.  Outside this
    window, or when the start time is not a date, a hidden overlay stays as
    it is. *)
Theorem countdown_window start now st :
  Countdown.showCountdown st = false ->
  (Countdown.showCountdown (fst (checkCountdown (Some start) now st)) = true
   <-> 1000 <= start - now < 61000) /\
  (1000 <= start - now < 61000 ->
   fst (checkCountdown (Some start) now st) = Countdown.mk true ((start - now) / 1000)
   /\ 1 <= (start - now) / 1000 <= 60
   /\ countdownView (fst (checkCountdown (Some start) now st)) = OverlayThrows) /\
  (~ (1000 <= start - now < 61000) -> fst (checkCountdown (Some start) now st) = st) /\
  checkCountdown None now st = (st, false).
Proof.
  intros Hshow.
  destruct (checkCountdown_hidden start now st Hshow) as [(Hin & -> & Hsec)|(Hout & ->)];
    cbn [fst Countdown.showCountdown].
  - split; [tauto|]. split; [|split; [tauto|reflexivity]].
    intros _. split; [reflexivity|]. split; [exact Hsec|].
    unfold countdownView. cbn [Countdown.showCountdown Countdown.countdownSeconds].
    destruct (Z.ltb_spec 0 ((start - now) / 1000)); [reflexivity|lia].
  - rewrite Hshow. split; [split; [discriminate|tauto]|].
    split; [tauto|]. split; reflexivity.
Qed.

Lemma countdown_window_witness :
  countdownView (fst (checkCountdown (Some 100000) 39001 countdownInitial))
  = OverlayThrows
  /\ fst (checkCountdown (Some 100000) 38999 countdownInitial) = countdownInitial.
Proof.
  destruct (countdown_window 100000 39001 countdownInitial eq_refl) as (_ & Hin & _).
  destruct (countdown_window 100000 38999 countdownInitial eq_refl) as (_ & _ & Hout & _).
  split; [apply Hin; lia|apply Hout; lia].
Defined.

Lemma countdownRun_first_shown start events : forall st armed,
  Countdown.showCountdown st = false ->
  Countdown.showCountdown (fst (countdownRun (Some start) events st armed)) = true ->
  exists pre now post,
    events = pre ++ Tick now :: post /\
    (forall k, Countdown.showCountdown
                 (fst (countdownRun (Some start) (firstn k pre) st armed)) = false) /\
    1000 <= start - now < 61000 /\
    fst (countdownRun (Some start) (pre ++ [Tick now]) st armed)
    = Countdown.mk true ((start - now) / 1000) /\
    1 <= (start - now) / 1000 <= 60.
Proof.
  induction events as [|[now|] rest IH]; intros st armed Hshow Hend.
  - cbn [countdownRun fst] in Hend. congruence.
  - cbn [countdownRun] in Hend.
    destruct (checkCountdown_hidden start now st Hshow) as [(Hin & E & Hsec)|(Hout & E)];
      rewrite E in Hend.
    + exists [], now, rest. split; [reflexivity|].
      split; [intros k; rewrite firstn_nil; exact Hshow|].
      split; [exact Hin|]. cbn [app countdownRun]. rewrite E. split; [reflexivity|exact Hsec].
    + destruct (IH st armed Hshow Hend) as (pre & t & post & -> & Hpre & Hin & Hst & Hsec).
      exists (Tick now :: pre), t, post. split; [reflexivity|].
      split; [|split; [exact Hin|split; [|exact Hsec]]].
      * intros [|k]; [exact Hshow|]. cbn [firstn countdownRun]. rewrite E. apply Hpre.
      * cbn [app countdownRun]. rewrite E. exact Hst.
  - cbn [countdownRun] in Hend. destruct armed as [|armed].
    + destruct (IH st 0%nat Hshow Hend) as (pre & t & post & -> & Hpre & Hin & Hst & Hsec).
      exists (TimeoutFired :: pre), t, post. split; [reflexivity|].
      split; [|split; [exact Hin|split; [|exact Hsec]]].
      * intros [|k]; [exact Hshow|]. cbn [firstn countdownRun]. apply Hpre.
      * cbn [app countdownRun]. exact Hst.
    + destruct (IH (hideCountdown st) armed eq_refl Hend)
        as (pre & t & post & -> & Hpre & Hin & Hst & Hsec).
      exists (TimeoutFired :: pre), t, post. split; [reflexivity|].
      split; [|split; [exact Hin|split; [|exact Hsec]]].
      * intros [|k]; [exact Hshow|]. cbn [firstn countdownRun]. apply Hpre.
      * cbn [app countdownRun]. exact Hst.
Qed.

Lemma countdownRun_late start events : forall st armed since,
  clockMonotone since events ->
  start - since < 1000 ->
  Countdown.showCountdown st = false ->
  Countdown.showCountdown (fst (countdownRun (Some start) events st armed)) = false.
Proof.
  induction events as [|[now|] rest IH]; intros st armed since Hclock Hlate Hshow.
  - exact Hshow.
  - destruct Hclock as [Hle Hclock]. cbn [countdownRun].
    pose proof (checkCountdown_cases start now st) as Hcases. cbv zeta in Hcases.
    destruct (checkCountdown (Some start) now st) as [st' arms].
    apply (IH st' (if arms then S armed else armed) now Hclock); [lia|].
    rewrite Hshow in Hcases.
    assert ((start - now) / 1000 <= 0) by (apply seconds_window; lia).
    destruct (Z.ltb_spec 0 ((start - now) / 1000)); [lia|].
    rewrite andb_false_r in Hcases. injection Hcases as -> _. exact Hshow.
  - cbn [countdownRun]. destruct armed as [|armed].
    + now apply (IH st 0%nat since).
    + now apply (IH (hideCountdown st) armed since).
Qed.

(** X13.  Whatever ticks and timeouts follow the mount, the overlay never
    shows a number of seconds, and it cannot come to "GO!" without a render
    that throws: when the overlay is shown after a run of events, the first
    event after which it is shown is a tick at which at least one second and
    less than 61 seconds remained, the overlay was hidden after every event
    before it, and the render after that tick, with a number from 1 to 60,
    throws a ReferenceError. *)
Theorem countdown_render_throws start events :
  countdownView (fst (countdownRun (Some start) events countdownInitial 0))
  <> OverlayHidden ->
  exists pre now post,
    events = pre ++ Tick now :: post /\
    (forall k, countdownView
                 (fst (countdownRun (Some start) (firstn k pre) countdownInitial 0))
               = OverlayHidden) /\
    1000 <= start - now < 61000 /\
    fst (countdownRun (Some start) (pre ++ [Tick now]) countdownInitial 0)
    = Countdown.mk true ((start - now) / 1000) /\
    1 <= (start - now) / 1000 <= 60 /\
    countdownView (fst (countdownRun (Some start) (pre ++ [Tick now]) countdownInitial 0))
    = OverlayThrows.
Proof.
  intros Hshown.
  assert (Hend : Countdown.showCountdown
                   (fst (countdownRun (Some start) events countdownInitial 0)) = true).
  { unfold countdownView in Hshown.
    destruct (Countdown.showCountdown _); [reflexivity|contradiction]. }
  destruct (countdownRun_first_shown start events countdownInitial 0%nat eq_refl Hend)
    as (pre & now & post & Hevents & Hpre & Hin & Hst & Hsec).
  exists pre, now, post. split; [exact Hevents|].
  split; [intros k; unfold countdownView; now rewrite Hpre|].
  split; [exact Hin|]. split; [exact Hst|]. split; [exact Hsec|].
  rewrite Hst. unfold countdownView.
  cbn [Countdown.showCountdown Countdown.countdownSeconds].
  destruct (Z.ltb_spec 0 ((start - now) / 1000)); [reflexivity|lia].
Qed.

Lemma countdown_render_throws_witness :
  countdownView
    (fst (countdownRun (Some 100000) [Tick 38000; Tick 39001; Tick 40000; Tick 100500]
            countdownInitial 0))
  = OverlayGo /\
  exists pre now post,
    [Tick 38000; Tick 39001; Tick 40000; Tick 100500] = pre ++ Tick now :: post /\
    countdownView (fst (countdownRun (Some 100000) (pre ++ [Tick now]) countdownInitial 0))
    = OverlayThrows.
Proof.
  split; [reflexivity|].
  destruct (countdown_render_throws 100000
              [Tick 38000; Tick 39001; Tick 40000; Tick 100500])
    as (pre & now & post & Hevents & _ & _ & _ & _ & Hthrows); [discriminate|].
  exists pre, now, post. split; [exact Hevents|exact Hthrows].
Defined.

(** X14.  A viewer whose first check comes when less than one second
    remains, or after the start, never sees the overlay; likewise an
    overlay hidden after "GO!" does not come back. *)
Theorem countdown_late start events st armed since :
  clockMonotone since events ->
  start - since < 1000 ->
  Countdown.showCountdown st = false ->
  countdownView (fst (countdownRun (Some start) events st armed)) = OverlayHidden.
Proof.
  intros Hclock Hlate Hshow. unfold countdownView.
  now rewrite (countdownRun_late start events st armed since Hclock Hlate Hshow).
Qed.

Lemma countdown_late_witness :
  countdownView
    (fst (countdownRun (Some 100000) [Tick 99500; Tick 100500; TimeoutFired; Tick 101500]
            countdownInitial 0))
  = OverlayHidden.
Proof.
  apply (countdown_late 100000 _ countdownInitial 0%nat 99500); [simpl; lia|lia|reflexivity].
Defined.
(** ** Judges: validation and sessions *)

Lemma trimStart_nil (s : jsString) :
  trimStart s = [] <-> List.Forall (fun c => is_white_space c = true) s.
Proof.
  induction s as [|c s IH]; cbn [trimStart].
  - split; [constructor | reflexivity].
  - destruct (is_white_space c) eqn:Hc.
    + rewrite IH. split; intros H.
      * constructor; assumption.
      * inversion H; assumption.
    + split; intros H; [discriminate|].
      inversion H; congruence.
Qed.

Lemma trimStart_white (s : jsString) :
  List.Forall (fun c => is_white_space c = true) (trimStart s) ->
  List.Forall (fun c => is_white_space c = true) s.
Proof.
  induction s as [|c s IH]; cbn [trimStart]; intros H.
  - constructor.
  - destruct (is_white_space c) eqn:Hc.
    + constructor; [exact Hc | exact (IH H)].
    + exact H.
Qed.

Lemma trim_nil (s : jsString) :
  trim s = [] <-> List.Forall (fun c => is_white_space c = true) s.
Proof.
  unfold trim. split.
  - intros H.
    apply (f_equal (@rev Z)) in H. rewrite rev_involutive in H. cbn [rev] in H.
    apply trimStart_nil in H.
    apply trimStart_white.
    apply List.Forall_forall. intros c Hc.
    apply (proj1 (List.Forall_forall _ _) H). apply -> in_rev. exact Hc.
  - intros H. apply trimStart_nil in H. rewrite H. reflexivity.
Qed.

Lemma blank_false (x : option jsString) :
  blank x = false <->
  exists s, x = Some s /\ List.Exists (fun c => is_white_space c = false) s.
Proof.
  destruct x as [s|]; cbn [blank].
  - split.
    + intros H. exists s. split; [reflexivity|].
      apply List.Exists_exists.
      destruct (List.Forall_Exists_dec (fun c => is_white_space c = true)
                  (fun c => bool_dec (is_white_space c) true) s) as [Hall|Hex].
      * apply trim_nil in Hall. rewrite Hall in H. discriminate.
      * apply List.Exists_exists in Hex. destruct Hex as [c [Hin Hc]].
        exists c. split; [exact Hin | apply not_true_iff_false, Hc].
    + intros [s' [[= <-] Hex]].
      destruct (trim s) eqn:Ht; [|reflexivity].
      apply trim_nil in Ht.
      apply List.Exists_exists in Hex. destruct Hex as [c [Hin Hc]].
      rewrite (proj1 (List.Forall_forall _ _) Ht c Hin) in Hc. discriminate.
  - split; [discriminate | intros [s [[=] _]]].
Qed.

Lemma nullable_matches (r : regex) : nullable r = true <-> Matches r [].
Proof.
  induction r as [| |p|r1 IH1 r2 IH2|r1 IH1 r2 IH2|r IH]; cbn [nullable].
  - split; [discriminate | intros H; inversion H].
  - split; [intros _; constructor | reflexivity].
  - split; [discriminate | intros H; inversion H].
  - rewrite andb_true_iff, IH1, IH2. split.
    + intros [H1 H2]. exact (MSeq r1 r2 [] [] H1 H2).
    + intros H. inversion H as [| |? ? s1 s2 H1 H2| | | |]; subst.
      match goal with Heq : _ ++ _ = [] |- _ => destruct (app_eq_nil _ _ Heq) as [-> ->] end.
      split; assumption.
  - rewrite orb_true_iff, IH1, IH2. split.
    + intros [H|H]; [apply MAltL | apply MAltR]; exact H.
    + intros H. inversion H; subst; [left | right]; assumption.
  - split; [intros _; constructor | reflexivity].
Qed.

Lemma star_cons (r : regex) (c : Z) (s : jsString) :
  Matches (RStar r) (c :: s) ->
  exists s1 s2, s = s1 ++ s2 /\ Matches r (c :: s1) /\ Matches (RStar r) s2.
Proof.
  intros H.
  remember (RStar r) as re eqn:Hre. remember (c :: s) as cs eqn:Hcs.
  revert Hre Hcs.
  induction H as [| | | | | |r' s1 s2 H1 _ H2 IH2]; intros Hre Hcs; try discriminate.
  injection Hre as ->.
  destruct s1 as [|c1 s1].
  - exact (IH2 eq_refl Hcs).
  - injection Hcs as -> <-. exists s1, s2. repeat split; assumption.
Qed.

Lemma derive_matches (c : Z) (r : regex) :
  forall s, Matches (derive c r) s <-> Matches r (c :: s).
Proof.
  induction r as [| |p|r1 IH1 r2 IH2|r1 IH1 r2 IH2|r IH]; intros s; cbn [derive].
  - split; intros H; inversion H.
  - split; intros H; inversion H.
  - destruct (p c) eqn:Hp; split; intros H.
    + inversion H; subst. constructor. exact Hp.
    + inversion H; subst. constructor.
    + inversion H.
    + inversion H; subst. congruence.
  - assert (Hleft : forall t, Matches (RSeq (derive c r1) r2) t -> Matches (RSeq r1 r2) (c :: t)).
    { intros t H. inversion H as [| |? ? s1 s2 H1 H2| | | |]; subst.
      apply IH1 in H1. exact (MSeq r1 r2 (c :: s1) s2 H1 H2). }
    assert (Hback : forall t, Matches (RSeq r1 r2) (c :: t) ->
              Matches (RSeq (derive c r1) r2) t \/
              (Matches r1 [] /\ Matches (derive c r2) t)).
    { intros t H. inversion H as [| |? ? s1 s2 H1 H2| | | |]; subst.
      match goal with Heq : _ ++ _ = _ :: _ |- _ => rename Heq into Hsplit end.
      destruct s1 as [|c1 s1].
      - cbn [app] in Hsplit. subst s2. right. split; [exact H1 | apply IH2, H2].
      - injection Hsplit as -> <-. left. apply MSeq; [apply IH1, H1 | exact H2]. }
    destruct (nullable r1) eqn:Hn; split; intros H.
    + inversion H; subst.
      * apply Hleft. assumption.
      * apply (MSeq r1 r2 [] (c :: s)); [apply nullable_matches, Hn | apply IH2; assumption].
    + destruct (Hback s H) as [Hl|[_ Hr]]; [apply MAltL, Hl | apply MAltR, Hr].
    + apply Hleft, H.
    + destruct (Hback s H) as [Hl|[Hr _]]; [exact Hl|].
      apply nullable_matches in Hr. congruence.
  - split; intros H; inversion H; subst.
    + apply MAltL, IH1. assumption.
    + apply MAltR, IH2. assumption.
    + apply MAltL, IH1. assumption.
    + apply MAltR, IH2. assumption.
  - split; intros H.
    + inversion H as [| |? ? s1 s2 H1 H2| | | |]; subst.
      apply IH in H1. exact (MStarApp r (c :: s1) s2 H1 H2).
    + destruct (star_cons r c s H) as [s1 [s2 [-> [H1 H2]]]].
      apply MSeq; [apply IH, H1 | exact H2].
Qed.

Lemma test_matches (r : regex) (s : jsString) : test r s = true <-> Matches r s.
Proof.
  unfold test. revert r.
  induction s as [|c s IH]; intros r; cbn [fold_left].
  - apply nullable_matches.
  - rewrite IH. apply derive_matches.
Qed.

Lemma star_class (p : Z -> bool) (s : jsString) :
  Matches (RStar (RClass p)) s <-> List.Forall (fun c => p c = true) s.
Proof.
  split.
  - intros H. remember (RStar (RClass p)) as re eqn:Hre. revert Hre.
    induction H as [| | | | | |r' s1 s2 H1 _ H2 IH2]; intros Hre; try discriminate.
    + constructor.
    + injection Hre as ->. inversion H1; subst.
      constructor; [assumption | exact (IH2 eq_refl)].
  - induction 1 as [|c s Hc _ IH].
    + constructor.
    + exact (MStarApp (RClass p) [c] s (MClass p c Hc) IH).
Qed.

Lemma plus_class (p : Z -> bool) (s : jsString) :
  Matches (RPlus (RClass p)) s <-> s <> [] /\ List.Forall (fun c => p c = true) s.
Proof.
  unfold RPlus. split.
  - intros H. inversion H as [| |? ? s1 s2 H1 H2| | | |]; subst.
    inversion H1; subst. apply star_class in H2.
    split; [discriminate | constructor; assumption].
  - intros [Hne Hall]. destruct s as [|c s]; [congruence|].
    inversion Hall; subst.
    apply (MSeq (RClass p) (RStar (RClass p)) [c] s); [constructor; assumption|].
    apply star_class. assumption.
Qed.

Lemma char_seq (c : Z) (r : regex) (s : jsString) :
  Matches (RSeq (RChar c) r) s <-> exists t, s = c :: t /\ Matches r t.
Proof.
  unfold RChar. split.
  - intros H. inversion H as [| |? ? s1 s2 H1 H2| | | |]; subst.
    inversion H1 as [|? c' Hc| | | | |]; subst.
    apply Z.eqb_eq in Hc. subst c'. exists s2. split; [reflexivity | exact H2].
  - intros [t [-> H]].
    apply (MSeq (RClass (Z.eqb c)) r [c] t); [|exact H].
    constructor. apply Z.eqb_refl.
Qed.

Lemma emailPattern_shape (s : jsString) :
  test emailPattern s = true <->
  exists user domain tld,
    s = user ++ AT :: domain ++ DOT :: tld /\ plain user /\ plain domain /\ plain tld.
Proof.
  rewrite test_matches. unfold emailPattern, plain. split.
  - intros H. inversion H as [| |? ? user s2 H1 H2| | | |]; subst.
    apply plus_class in H1.
    apply char_seq in H2. destruct H2 as [t [-> H2]].
    inversion H2 as [| |? ? domain s3 H3 H4| | | |]; subst.
    apply plus_class in H3.
    apply char_seq in H4. destruct H4 as [tld [-> H4]].
    apply plus_class in H4.
    exists user, domain, tld. repeat split; tauto.
  - intros [user [domain [tld [-> [Hu [Hd Ht]]]]]].
    apply MSeq; [apply plus_class, Hu|].
    apply char_seq. eexists. split; [reflexivity|].
    apply MSeq; [apply plus_class, Hd|].
    apply char_seq. eexists. split; [reflexivity|].
    apply plus_class, Ht.
Qed.

Lemma emailUnit_true (c : Z) :
  emailUnit c = true <-> is_white_space c = false /\ c <> AT.
Proof.
  unfold emailUnit. rewrite negb_true_iff, orb_false_iff, Z.eqb_neq. reflexivity.
Qed.

Lemma plain_visible (s : jsString) : plain s -> List.Exists visible s.
Proof.
  intros [Hne Hall]. destruct s as [|c s]; [congruence|].
  inversion Hall; subst. apply List.Exists_cons_hd.
  apply emailUnit_true. assumption.
Qed.

Lemma beforeAt_app (user rest : jsString) :
  List.Forall (fun c => emailUnit c = true) user ->
  beforeAt (user ++ AT :: rest) = user.
Proof.
  induction 1 as [|c user Hc _ IH]; cbn [app beforeAt].
  - rewrite Z.eqb_refl. reflexivity.
  - apply emailUnit_true in Hc. destruct Hc as [_ Hc].
    apply Z.eqb_neq in Hc. rewrite Hc, IH. reflexivity.
Qed.

Lemma beforeAt_no_at (s : jsString) : ~ In AT (beforeAt s).
Proof.
  induction s as [|c s IH]; cbn [beforeAt]; [intros []|].
  destruct (c =? AT) eqn:Hc; [intros []|].
  apply Z.eqb_neq in Hc. intros [H|H]; [congruence | exact (IH H)].
Qed.

Lemma orElse_nonempty (a : option jsString) (b : jsString) : b <> [] -> orElse a b <> [].
Proof.
  intros Hb. destruct a as [[|c rest]|]; cbn [orElse]; [exact Hb | discriminate | exact Hb].
Qed.

Lemma validateJudgeData_empty (judgeData : JudgeAuthData.t) (isEditing : bool)
  (excludeUid : option jsString) :
  validateJudgeData judgeData isEditing excludeUid = ∅ <->
  blank (JudgeAuthData.name judgeData) = false /\
  blank (JudgeAuthData.email judgeData) = false /\
  test emailPattern (default [] (JudgeAuthData.email judgeData)) = true /\
  negb isEditing && blank (JudgeAuthData.password judgeData) = false /\
  match JudgeAuthData.password judgeData with
  | Some (c :: rest) => (Z.of_nat (length (c :: rest)) <? 6) = false
  | _ => True
  end.
Proof.
  unfold validateJudgeData.
  destruct (blank (JudgeAuthData.name judgeData));
    destruct (blank (JudgeAuthData.email judgeData));
    destruct (test emailPattern (default [] (JudgeAuthData.email judgeData)));
    destruct (negb isEditing && blank (JudgeAuthData.password judgeData));
    destruct (JudgeAuthData.password judgeData) as [[|c rest]|];
    try destruct (Z.of_nat (length (c :: rest)) <? 6);
    cbn [negb]; split;
    try (intros H; exfalso; exact (insert_non_empty _ _ _ H));
    try (intros (H1 & H2 & H3 & H4 & H5); discriminate);
    try (intros _; repeat split; reflexivity);
    try (intros _; reflexivity).
Qed.

(** X15. [validateJudgeData] returns no error exactly when the name holds a
    code unit that is not white space, the email is [user@domain.tld] with
    the three parts non-empty and free of white space and of [@], and the
    password is accepted: when a judge is created it must hold a code unit
    that is not white space and count six or more; when a judge is edited
    it may be missing or empty, and otherwise must count six or more (white
    space alone is then enough).  [excludeUid] plays no part. *)
Theorem validation_passes (judgeData : JudgeAuthData.t) (isEditing : bool)
  (excludeUid : option jsString) :
  validateJudgeData judgeData isEditing excludeUid = ∅ <->
  (exists name, JudgeAuthData.name judgeData = Some name /\ List.Exists visible name) /\
  (exists user domain tld,
      JudgeAuthData.email judgeData = Some (user ++ AT :: domain ++ DOT :: tld) /\
      plain user /\ plain domain /\ plain tld) /\
  passwordAccepted isEditing (JudgeAuthData.password judgeData).
Proof.
  rewrite validateJudgeData_empty, !blank_false.
  split.
  - intros (Hname & [email [Hemail Hvis]] & Htest & Hreq & Hlen).
    split; [exact Hname|]. split.
    + rewrite Hemail in Htest.
      change (test emailPattern email = true) in Htest.
      apply emailPattern_shape in Htest.
      destruct Htest as (user & domain & tld & -> & Hshape).
      exists user, domain, tld. split; [exact Hemail | exact Hshape].
    + unfold passwordAccepted. destruct isEditing; cbn [negb andb] in Hreq.
      * intros p Hp. rewrite Hp in Hlen.
        destruct p as [|c rest]; [left; reflexivity | right].
        apply Z.ltb_ge in Hlen. lia.
      * apply blank_false in Hreq. destruct Hreq as [p [Hp Hvisible]].
        exists p. split; [exact Hp|]. split; [exact Hvisible|].
        rewrite Hp in Hlen. destruct p as [|c rest]; [inversion Hvisible|].
        apply Z.ltb_ge in Hlen. lia.
  - intros (Hname & (user & domain & tld & Hemail & Hu & Hd & Ht) & Hpw).
    split; [exact Hname|]. split; [|split; [|split]].
    + eexists. split; [exact Hemail|].
      apply List.Exists_app. left. apply plain_visible, Hu.
    + rewrite Hemail.
      change (test emailPattern (user ++ AT :: domain ++ DOT :: tld) = true).
      apply emailPattern_shape.
      exists user, domain, tld.
      split; [reflexivity | split; [exact Hu | split; [exact Hd | exact Ht]]].
    + unfold passwordAccepted in Hpw. destruct isEditing; cbn [negb andb]; [reflexivity|].
      apply blank_false. destruct Hpw as [p [Hp [Hvisible _]]].
      exists p. split; [exact Hp | exact Hvisible].
    + unfold passwordAccepted in Hpw.
      destruct (JudgeAuthData.password judgeData) as [[|c rest]|] eqn:Hp; [exact I| |exact I].
      apply Z.ltb_ge.
      destruct isEditing.
      * destruct (Hpw _ eq_refl) as [Hnil|Hlen]; [discriminate | lia].
      * destruct Hpw as [p [[= <-] [_ Hlen]]]. lia.
Qed.

(** X16. For data that [validateJudgeData] accepts, the username that
    [createJudge] stores, [email.split('@')[0]], is the non-empty part of
    the email before its only [@]: the email is that username, [@], and a
    rest that has a dot and neither white space nor [@]. *)
Theorem accepted_username (judgeData : JudgeAuthData.t) (isEditing : bool)
  (excludeUid : option jsString) (email : jsString)
  (Hvalid : validateJudgeData judgeData isEditing excludeUid = ∅)
  (Hemail : JudgeAuthData.email judgeData = Some email) :
  exists rest,
    email = judgeUsername email ++ AT :: rest /\
    plain (judgeUsername email) /\
    List.Forall (fun c => emailUnit c = true) rest /\
    In DOT rest.
Proof.
  apply validateJudgeData_empty in Hvalid.
  destruct Hvalid as (_ & _ & Htest & _).
  rewrite Hemail in Htest. change (test emailPattern email = true) in Htest.
  apply emailPattern_shape in Htest.
  destruct Htest as (user & domain & tld & -> & Hu & Hd & Ht).
  exists (domain ++ DOT :: tld). unfold judgeUsername.
  rewrite (beforeAt_app user (domain ++ DOT :: tld) (proj2 Hu)).
  split; [reflexivity|]. split; [exact Hu|]. split.
  - apply List.Forall_app. split; [exact (proj2 Hd)|].
    constructor; [reflexivity | exact (proj2 Ht)].
  - apply in_or_app. right. left. reflexivity.
Qed.

Lemma accepted_username_witness :
  validateJudgeData judgeSample false None = ∅ /\
  exists rest,
    lit "ana@club.tn" = judgeUsername (lit "ana@club.tn") ++ AT :: rest /\
    plain (judgeUsername (lit "ana@club.tn")) /\
    List.Forall (fun c => emailUnit c = true) rest /\
    In DOT rest.
Proof.
  assert (Hvalid : validateJudgeData judgeSample false None = ∅) by (vm_compute; reflexivity).
  split; [exact Hvalid|].
  exact (accepted_username judgeSample false None (lit "ana@club.tn") Hvalid eq_refl).
Defined.

(** X17. Data accepted for the creation of a judge is accepted for an
    edition too. *)
Theorem creation_stricter (judgeData : JudgeAuthData.t) (excludeUid : option jsString)
  (Hvalid : validateJudgeData judgeData false excludeUid = ∅) :
  validateJudgeData judgeData true excludeUid = ∅.
Proof.
  apply validateJudgeData_empty in Hvalid. apply validateJudgeData_empty.
  destruct Hvalid as (Hname & Hemail & Htest & _ & Hlen).
  repeat split; assumption.
Qed.

Lemma creation_stricter_witness :
  validateJudgeData judgeSample false None = ∅ /\
  validateJudgeData judgeSample true None = ∅.
Proof.
  assert (Hvalid : validateJudgeData judgeSample false None = ∅) by (vm_compute; reflexivity).
  split; [exact Hvalid | exact (creation_stricter judgeSample None Hvalid)].
Defined.

Lemma isAdminEmail_username (email : option jsString) :
  isAdminEmail email = true -> orElse (beforeAt <$> email) (lit "unknown") = lit "admin".
Proof.
  destruct email as [e|]; cbn [isAdminEmail]; [|discriminate].
  intros H. apply orb_true_iff in H.
  destruct H as [H|H]; apply bool_decide_eq_true in H; subst e; vm_compute; reflexivity.
Qed.

(** X18. A signed-in user whose judge document is missing or not active
    still gets a session, unless the lookup throws.  The session carries the
    user's uid, a non-empty name and a non-empty username without [@]; the
    role comes from the email alone: [admin] for the two administrator
    addresses (no sector, username [admin]), [judge] with sector [A] for
    every other user, whatever the judge document says. *)
Theorem session_without_active_judge (user : FirebaseUser.t)
  (getJudgeByUid : jsString -> judgeLookup) (now : jsString)
  (Hreturns : getJudgeByUid (FirebaseUser.uid user) <> LookupThrows)
  (Hinactive : forall judgeData,
      getJudgeByUid (FirebaseUser.uid user) = LookupDoc judgeData ->
      JudgeDoc.status judgeData <> lit "active") :
  exists session,
    currentUserOf (Some user) getJudgeByUid now = Some session /\
    UserSession.id session = FirebaseUser.uid user /\
    UserSession.name session <> [] /\
    UserSession.username session <> [] /\
    ~ In AT (UserSession.username session) /\
    (if isAdminEmail (FirebaseUser.email user)
     then UserSession.role session = lit "admin" /\
          UserSession.sector session = None /\
          UserSession.username session = lit "admin"
     else UserSession.role session = lit "judge" /\
          UserSession.sector session = Some (lit "A")).
Proof.
  exists (fallbackSession user now). split.
  - cbn [currentUserOf].
    destruct (getJudgeByUid (FirebaseUser.uid user)) as [| |judgeData] eqn:Hlookup.
    + congruence.
    + reflexivity.
    + rewrite bool_decide_eq_false_2; [reflexivity|].
      exact (Hinactive judgeData eq_refl).
  - cbn [fallbackSession UserSession.id UserSession.name UserSession.username
         UserSession.role UserSession.sector].
    split; [reflexivity|].
    split; [apply orElse_nonempty, orElse_nonempty; discriminate|].
    split; [apply orElse_nonempty; discriminate|].
    split.
    + destruct (FirebaseUser.email user) as [e|]; cbn [fmap option_fmap option_map orElse].
      * pose proof (beforeAt_no_at e) as Hno.
        destruct (beforeAt e) as [|c rest]; [|exact Hno].
        vm_compute. intuition discriminate.
      * vm_compute. intuition discriminate.
    + destruct (isAdminEmail (FirebaseUser.email user)) eqn:Hadmin.
      * split; [reflexivity|]. split; [reflexivity|].
        apply isAdminEmail_username, Hadmin.
      * split; reflexivity.
Qed.

Lemma session_without_active_judge_witness :
  exists session,
    currentUserOf (Some visitor) (fun _ => LookupDoc inactiveJudge) (lit "2024") = Some session /\
    UserSession.id session = lit "u1" /\
    UserSession.name session <> [] /\
    UserSession.username session <> [] /\
    ~ In AT (UserSession.username session) /\
    UserSession.role session = lit "judge" /\
    UserSession.sector session = Some (lit "A").
Proof.
  apply (session_without_active_judge visitor (fun _ => LookupDoc inactiveJudge) (lit "2024")).
  - discriminate.
  - intros judgeData [= <-]. vm_compute. discriminate.
Defined.
